(** * beatspine: slot assignment and differential reconciliation

    A shallow embedding of the parts of [beatspine/core.py],
    [beatspine/definitions.py] and [beatspine/resolve_sync.py] that carry
    the placement and reconciliation properties, followed by the
    theorems about them.

    Conventions of the embedding.
    - A Python [int] is a [Z].  A naive [datetime] is a [Z]: the number of
      microseconds since 0001-01-01T00:00:00 (ordinal day 1, a Monday), so
      that [<=] on datetimes is [<=] on [Z] and a [timedelta] is a
      difference of microseconds.
    - A Python [float] is a [pyfloat], a mantissa and a binary exponent;
      [total_seconds()], [/], [*] and the conversion of an [int] round
      the exact result to the nearest float of 53 bits, ties to even, as
      binary64 arithmetic does, and [int(x)] truncates.
    - [error(...)] prints and calls [sys.exit]: it is the exception
      [SystemExit]; an out-of-range list subscript is [IndexError].
    - [echo] and the progress bar only print and are left out; [warning]
      messages are kept, in the order they are printed. *)

From Stdlib Require Import ZArith Lia Sorted.
From stdpp Require Import base option list gmap strings pretty.

Local Open Scope Z_scope.

(** ** Python runtime pieces used by the source *)

Definition Path := string.
Definition datetime := Z.

(** Messages passed to [console.error], with the numbers they print. *)
Inductive ErrorMessage :=
| InvalidTimeSpan
| TooManyPhotos (found available : Z)
| TooManyClusters (found available : Z).

Inductive PyExc :=
| SystemExit (msg : ErrorMessage)
| IndexError.

Inductive outcome (A : Type) :=
| Returned (a : A)
| Raised (e : PyExc).
Arguments Returned {A} a.
Arguments Raised {A} e.

#[global] Instance outcome_ret : MRet outcome := fun A a => Returned a.
#[global] Instance outcome_bind : MBind outcome := fun A B f m =>
  match m with
  | Returned a => f a
  | Raised e => Raised e
  end.

Definition error {A} (msg : ErrorMessage) : outcome A := Raised (SystemExit msg).

(** [for x in l: st = body st x], stopping at the first exception. *)
Fixpoint for_each {S A} (body : S -> A -> outcome S) (st : S) (l : list A)
  : outcome S :=
  match l with
  | [] => Returned st
  | x :: l' =>
      match body st x with
      | Returned st' => for_each body st' l'
      | Raised e => Raised e
      end
  end.

(** Subscript normalisation: [l[i]] accepts [-len <= i < len] and counts a
    negative [i] from the end. *)
Definition py_index (len i : Z) : option nat :=
  if bool_decide (0 <= i < len) then Some (Z.to_nat i)
  else if bool_decide (- len <= i < 0) then Some (Z.to_nat (i + len))
  else None.

Definition py_getitem {A} (l : list A) (i : Z) : outcome A :=
  match py_index (Z.of_nat (length l)) i ≫= (l !!.) with
  | Some x => Returned x
  | None => Raised IndexError
  end.

Definition py_setitem {A} (l : list A) (i : Z) (x : A) : outcome (list A) :=
  match py_index (Z.of_nat (length l)) i with
  | Some n => Returned (<[n := x]> l)
  | None => Raised IndexError
  end.

(** Slice bound clamping of [l[a:b]]. *)
Definition py_slice_bound (len i : Z) : Z :=
  if bool_decide (i < 0) then Z.max (i + len) 0 else Z.min i len.

Definition py_slice {A} (l : list A) (a b : Z) : list A :=
  let len := Z.of_nat (length l) in
  let lo := py_slice_bound len a in
  let hi := py_slice_bound len b in
  take (Z.to_nat (hi - lo)) (drop (Z.to_nat lo) l).

(** [sorted(l, key=...)]: the stable sort; [lt x y] is [key x < key y]. *)
Fixpoint sorted_insert {A} (lt : A -> A -> bool) (x : A) (l : list A) : list A :=
  match l with
  | [] => [x]
  | y :: l' => if lt y x then y :: sorted_insert lt x l' else x :: y :: l'
  end.

Definition sorted {A} (lt : A -> A -> bool) (l : list A) : list A :=
  foldr (sorted_insert lt) [] l.

(** [min(l)] and [max(l)] of a list of datetimes.  Python raises
    [ValueError] on an empty list; every call site below passes the dates
    of a non-empty photo list, and the value 0 is never produced for it. *)
Definition py_min (l : list Z) : Z :=
  match l with [] => 0 | d :: l' => foldl Z.min d l' end.
Definition py_max (l : list Z) : Z :=
  match l with [] => 0 | d :: l' => foldl Z.max d l' end.

(** *** [datetime] calendar arithmetic (CPython's [_ord2ymd]) *)

Definition us_per_second : Z := 1000000.
Definition us_per_day : Z := 86400 * us_per_second.

Definition days_before_month (leap : bool) (month : Z) : Z :=
  let base :=
    match month with
    | 1 => 0 | 2 => 31 | 3 => 59 | 4 => 90 | 5 => 120 | 6 => 151
    | 7 => 181 | 8 => 212 | 9 => 243 | 10 => 273 | 11 => 304 | _ => 334
    end in
  if leap && (2 <? month) then base + 1 else base.

Definition days_in_month (leap : bool) (month : Z) : Z :=
  match month with
  | 2 => if leap then 29 else 28
  | 4 | 6 | 9 | 11 => 30
  | _ => 31
  end.

(** Year, month and day of a proleptic Gregorian ordinal (day 1 is
    0001-01-01). *)
Definition ord2ymd (ordinal : Z) : Z * Z * Z :=
  let n := ordinal - 1 in
  let n400 := n / 146097 in
  let n := n mod 146097 in
  let n100 := n / 36524 in
  let n := n mod 36524 in
  let n4 := n / 1461 in
  let n := n mod 1461 in
  let n1 := n / 365 in
  let n := n mod 365 in
  let year := n400 * 400 + 1 + n100 * 100 + n4 * 4 + n1 in
  if (n1 =? 4) || (n100 =? 4) then (year - 1, 12, 31)
  else
    let leap := (n1 =? 3) && (negb (n4 =? 24) || (n100 =? 3)) in
    let month := Z.shiftr (n + 50) 5 in
    let preceding := days_before_month leap month in
    if n <? preceding
    then
      let month' := month - 1 in
      let preceding' := preceding - days_in_month leap month' in
      (year, month', n - preceding' + 1)
    else (year, month, n - preceding + 1).

Definition days_before_year (year : Z) : Z :=
  let y := year - 1 in
  y * 365 + y / 4 - y / 100 + y / 400.

(** *** [float]

    A finite float is [mantissa * 2^exponent].  The operations below give
    the value that IEEE 754 binary64 arithmetic gives, rounding to the
    nearest 53-bit mantissa and, half way, to the even one; the mantissa
    [2^53] stands for [2^52] at the next exponent.  The exponent range is
    not modelled: the quantities the source computes from datetimes are
    zero or lie between 1e-18 and 1e18 in absolute value, far inside it. *)
Record pyfloat := { mantissa : Z; exponent : Z }.

(** The value of [x] is [fnum x / fden x]. *)
Definition fnum (x : pyfloat) : Z := mantissa x * 2 ^ Z.max 0 (exponent x).
Definition fden (x : pyfloat) : Z := 2 ^ Z.max 0 (- exponent x).

(** [floor(log2(a / b))], for [a] and [b] positive. *)
Definition ratio_log2 (a b : Z) : Z :=
  let k := Z.log2 a - Z.log2 b in
  if b * 2 ^ Z.max 0 k <=? a * 2 ^ Z.max 0 (- k) then k else k - 1.

(** The float nearest to [a / b], for [a] and [b] positive. *)
Definition round_positive (a b : Z) : pyfloat :=
  let e := ratio_log2 a b - 52 in
  let n := a * 2 ^ Z.max 0 (- e) in
  let d := b * 2 ^ Z.max 0 e in
  let q := n / d in
  let r := n mod d in
  let m :=
    if 2 * r <? d then q
    else if d <? 2 * r then q + 1
    else if Z.even q then q else q + 1 in
  {| mantissa := m; exponent := e |}.

Definition fneg (x : pyfloat) : pyfloat :=
  {| mantissa := - mantissa x; exponent := exponent x |}.

(** [abs(x)] *)
Definition fabs (x : pyfloat) : pyfloat :=
  {| mantissa := Z.abs (mantissa x); exponent := exponent x |}.

(** The float nearest to [a / b], for [b] other than zero. *)
Definition round_ratio (a b : Z) : pyfloat :=
  let '(a, b) := if b <? 0 then (- a, - b) else (a, b) in
  if a =? 0 then {| mantissa := 0; exponent := 0 |}
  else if 0 <? a then round_positive a b
  else fneg (round_positive (- a) b).

(** [float(n)], the conversion applied to an [int] operand. *)
Definition float_of_int (n : Z) : pyfloat := round_ratio n 1.

(** [a / b] on two [int]s. *)
Definition true_divide (a b : Z) : pyfloat := round_ratio a b.

(** [x * y] and [x / y] on floats; the source never divides by zero. *)
Definition fmul (x y : pyfloat) : pyfloat :=
  round_ratio (fnum x * fnum y) (fden x * fden y).
Definition fdiv (x y : pyfloat) : pyfloat :=
  round_ratio (fnum x * fden y) (fden x * fnum y).

(** [int(x)] *)
Definition int_of_float (x : pyfloat) : Z := Z.quot (fnum x) (fden x).

(** A decimal literal: [float_literal 3044 2] is [30.44]. *)
Definition float_literal (digits places : Z) : pyfloat :=
  round_ratio digits (10 ^ places).

(** [timedelta.total_seconds()] of a difference of [microseconds]: the
    quotient of two [int]s, [microseconds / 10**6]. *)
Definition total_seconds (microseconds : Z) : pyfloat :=
  true_divide microseconds 1000000.

(** ** definitions.py *)

Inductive TimeUnit := SECOND | MINUTE | HOUR | DAY | WEEK | MONTH | YEAR.

Record TimeGap := {
  amount : Z;
  unit : TimeUnit;
  same_period_mode : bool
}.

Definition TimeGap_none : TimeGap :=
  {| amount := 0; unit := SECOND; same_period_mode := false |}.

(** [PhotoMetadata = tuple[Path, datetime, int | None]] *)
Definition PhotoMetadata : Type := Path * datetime * option Z.
Definition photo_path (p : PhotoMetadata) : Path := p.1.1.
Definition photo_date (p : PhotoMetadata) : datetime := p.1.2.
Definition photo_anchor (p : PhotoMetadata) : option Z := p.2.

Record PhotoCluster := {
  photos : list PhotoMetadata;
  start_date : datetime;
  end_date : datetime
}.

Definition lt_Z (a b : Z) : bool := a <? b.

(** The median date; [dates[len(dates) // 2]] raises on an empty cluster. *)
Definition representative_date (c : PhotoCluster) : outcome datetime :=
  let dates := sorted lt_Z (map photo_date (photos c)) in
  py_getitem dates (Z.of_nat (length dates) / 2).

Record Dimensions := { width : Z; height : Z }.

Inductive MediaType := VIDEO | AUDIO | TITLE | CAPTION | PLACEHOLDER | MARKER.

Record MediaAsset := {
  path : Path;
  asset_media_type : MediaType;
  uid : string;
  name : string;
  dimensions : option Dimensions
}.

(** What the source reads from the file system for a photo: the
    deterministic identifier ([filesystem.generate_deterministic_uid]),
    the image size and the file stem.  They are inputs of the model. *)
Record FileSystem := {
  generate_deterministic_uid : Path -> string -> string;
  detect_image_dimensions : Path -> option Dimensions;
  stem : Path -> string
}.

Definition from_photo (fs : FileSystem) (p : Path) (u : string) : MediaAsset :=
  {| path := p; asset_media_type := VIDEO; uid := u; name := stem fs p;
     dimensions := detect_image_dimensions fs p |}.

Record PhotoPlacement := {
  asset : MediaAsset;
  beat_index : Z;
  date : datetime;
  is_anchored : bool;
  cluster_id : option Z
}.

(** Only the length and the order of the beat list matter to placement. *)
Record BeatInfo := { index : Z; frame : Z }.

(** ** core.py: clustering *)

(** The length of a unit in microseconds; a month is 30.44 days and a
    year 365.25 days. *)
Definition unit_microseconds (u : TimeUnit) : Z :=
  match u with
  | SECOND => us_per_second
  | MINUTE => 60 * us_per_second
  | HOUR => 3600 * us_per_second
  | DAY => 86400 * us_per_second
  | WEEK => 86400 * 7 * us_per_second
  | MONTH => 2630016 * us_per_second      (* 86400 * 30.44 seconds *)
  | YEAR => 31557600 * us_per_second      (* 86400 * 365.25 seconds *)
  end.

Definition calculate_time_delta (date1 date2 : datetime) (u : TimeUnit) : Z :=
  let delta := fabs (total_seconds (date2 - date1)) in
  match u with
  | SECOND => int_of_float delta
  | MINUTE => int_of_float (fdiv delta (float_of_int 60))
  | HOUR => int_of_float (fdiv delta (float_of_int 3600))
  | DAY => int_of_float (fdiv delta (float_of_int 86400))
  | WEEK => int_of_float (fdiv delta (float_of_int (86400 * 7)))
  | MONTH =>
      int_of_float
        (fdiv delta (fmul (float_of_int 86400) (float_literal 3044 2)))
  | YEAR =>
      int_of_float
        (fdiv delta (fmul (float_of_int 86400) (float_literal 36525 2)))
  end.

Definition floor_to (d step : Z) : Z := d - d mod step.

Definition normalize_to_period_start (d : datetime) (u : TimeUnit) : datetime :=
  match u with
  | SECOND => floor_to d us_per_second
  | MINUTE => floor_to d (60 * us_per_second)
  | HOUR => floor_to d (3600 * us_per_second)
  | DAY => floor_to d us_per_day
  | WEEK => floor_to d (7 * us_per_day)     (* day 0 is a Monday *)
  | MONTH =>
      let days := d / us_per_day in
      let '(_, _, day) := ord2ymd (days + 1) in
      (days - (day - 1)) * us_per_day
  | YEAR =>
      let '(year, _, _) := ord2ymd (d / us_per_day + 1) in
      days_before_year year * us_per_day
  end.

Definition make_cluster (ps : list PhotoMetadata) : PhotoCluster :=
  let dates := map photo_date ps in
  {| photos := ps; start_date := py_min dates; end_date := py_max dates |}.

(** [period_groups]: a dict keeps insertion order, so it is an association
    list; a photo is appended to the list of its period. *)
Fixpoint group_append (groups : list (datetime * list PhotoMetadata))
    (key : datetime) (ph : PhotoMetadata) : list (datetime * list PhotoMetadata) :=
  match groups with
  | [] => [(key, [ph])]
  | (k, g) :: rest =>
      if bool_decide (k = key) then (k, g ++ [ph]) :: rest
      else (k, g) :: group_append rest key ph
  end.

Definition lt_start_date (c1 c2 : PhotoCluster) : bool :=
  start_date c1 <? start_date c2.

Definition cluster_photos_by_same_period
    (ps : list PhotoMetadata) (time_gap : TimeGap) : list PhotoCluster :=
  let period_groups :=
    foldl (fun groups ph =>
             group_append groups
               (normalize_to_period_start (photo_date ph) (unit time_gap)) ph)
          [] ps in
  let clusters :=
    omap (fun '(_, group_photos) =>
            match group_photos with
            | [] => None
            | _ => Some (make_cluster group_photos)
            end) period_groups in
  sorted lt_start_date clusters.

(** The loop [for i in range(1, len(photos))] of
    [cluster_photos_by_minimum_gap]: [prev] is [photos[i - 1]], the list is
    [photos[i:]], and [clusters], [current] are the two accumulators. *)
Fixpoint minimum_gap_loop (time_gap : TimeGap) (prev : PhotoMetadata)
    (rest : list PhotoMetadata) (clusters : list PhotoCluster)
    (current : list PhotoMetadata) : list PhotoCluster :=
  match rest with
  | [] =>
      match current with
      | [] => clusters
      | _ => clusters ++ [make_cluster current]
      end
  | cur :: rest' =>
      let gap :=
        calculate_time_delta (photo_date prev) (photo_date cur) (unit time_gap) in
      if amount time_gap <=? gap
      then minimum_gap_loop time_gap cur rest'
             (clusters ++ [make_cluster current]) [cur]
      else minimum_gap_loop time_gap cur rest' clusters (current ++ [cur])
  end.

Definition cluster_photos_by_minimum_gap
    (ps : list PhotoMetadata) (time_gap : TimeGap) : list PhotoCluster :=
  match ps with
  | [] => []
  | p0 :: rest => minimum_gap_loop time_gap p0 rest [] [p0]
  end.

Definition cluster_photos_by_time_gap
    (ps : list PhotoMetadata) (time_gap : TimeGap) : list PhotoCluster :=
  if amount time_gap =? 0
  then map (fun ph =>
              {| photos := [ph]; start_date := photo_date ph;
                 end_date := photo_date ph |}) ps
  else if same_period_mode time_gap
  then cluster_photos_by_same_period ps time_gap
  else cluster_photos_by_minimum_gap ps time_gap.

(** ** core.py: slot assignment *)

(** The messages given to [console.warning]. *)
Inductive Warning :=
| BeatAlreadyOccupied (anchor : Z) (p : Path)
    (* "Beat {anchor} already occupied, photo {name} will be redistributed" *)
| BeatOutsideRange (anchor : Z) (p : Path)
    (* "Beat {anchor} outside effective range for photo {name}" *)
| NoPhotosInRange.
    (* "No photos found within the specified date range" *)

(** The local variables that the two passes share and mutate. *)
Record MapState := {
  beat_occupied : list bool;
  placements : list PhotoPlacement;
  anchored_count : Z;
  warnings : list Warning
}.

Definition add_warning (w : Warning) (st : MapState) : MapState :=
  {| beat_occupied := beat_occupied st; placements := placements st;
     anchored_count := anchored_count st; warnings := warnings st ++ [w] |}.

Definition append_placement (p : PhotoPlacement) (st : MapState) : MapState :=
  {| beat_occupied := beat_occupied st; placements := placements st ++ [p];
     anchored_count := anchored_count st; warnings := warnings st |}.

Definition initial_state (beats : list BeatInfo) : MapState :=
  {| beat_occupied := replicate (length beats) false; placements := [];
     anchored_count := 0; warnings := [] |}.

Definition in_date_range (start_date end_date : datetime) (ph : PhotoMetadata) : bool :=
  (start_date <=? photo_date ph) && (photo_date ph <=? end_date).

(** [start_offset <= i < len(beats) - end_offset] *)
Definition in_effective_range (beats : list BeatInfo)
    (start_offset end_offset i : Z) : bool :=
  (start_offset <=? i) && (i <? Z.of_nat (length beats) - end_offset).

(** [start_offset + min(int(position * (n - 1)), n - 1)] with
    [position = (d - start_date).total_seconds() / timespan].  The
    callers keep [timespan] as the difference of the two dates in
    microseconds; the float the source holds is [total_seconds timespan],
    which is positive exactly when the difference is. *)
Definition preferred_beat_of (start_date timespan start_offset n : Z)
    (d : datetime) : Z :=
  let position :=
    fdiv (total_seconds (d - start_date)) (total_seconds timespan) in
  start_offset
  + Z.min (int_of_float (fmul position (float_of_int (n - 1)))) (n - 1).

(** The body of the [while] loop of the nearest-free-beat search, entered
    with [beat_occupied[preferred_beat]] true; [remaining] is
    [num_effective_beats - search_radius], the number of iterations the
    loop condition still allows.  Falling out of the loop leaves
    [assigned_beat = preferred_beat]. *)
Fixpoint search_loop (beats : list BeatInfo) (start_offset end_offset : Z)
    (occupied : list bool) (preferred_beat search_radius : Z)
    (remaining : nat) : outcome Z :=
  match remaining with
  | O => Returned preferred_beat
  | S remaining' =>
      let search_radius := search_radius + 1 in
      let candidate :=
        if search_radius mod 2 =? 1
        then preferred_beat - (search_radius / 2 + 1)
        else preferred_beat + search_radius / 2 in
      if in_effective_range beats start_offset end_offset candidate
      then
        match py_getitem occupied candidate with
        | Returned false => Returned candidate
        | Returned true =>
            search_loop beats start_offset end_offset occupied preferred_beat
              search_radius remaining'
        | Raised e => Raised e
        end
      else
        search_loop beats start_offset end_offset occupied preferred_beat
          search_radius remaining'
  end.

Definition find_nearest_beat (beats : list BeatInfo) (start_offset end_offset : Z)
    (occupied : list bool) (preferred_beat num_effective_beats : Z) : outcome Z :=
  b ← py_getitem occupied preferred_beat;
  if b : bool
  then search_loop beats start_offset end_offset occupied preferred_beat 0
         (Z.to_nat num_effective_beats)
  else Returned preferred_beat.

Definition lt_beat_index (p q : PhotoPlacement) : bool :=
  beat_index p <? beat_index q.

(** [(beat_index, date)] compared as tuples. *)
Definition lt_beat_index_date (p q : PhotoPlacement) : bool :=
  (beat_index p <? beat_index q)
  || ((beat_index p =? beat_index q) && (date p <? date q)).

Section assignment.
Context (fs : FileSystem).

Definition new_placement (id_method : string) (p : Path) (d : datetime)
    (b : Z) (anchored : bool) (cid : option Z) : PhotoPlacement :=
  {| asset := from_photo fs p (generate_deterministic_uid fs p id_method);
     beat_index := b; date := d; is_anchored := anchored; cluster_id := cid |}.

(** [beat_occupied[b] = True] followed by [placements.append(...)]. *)
Definition occupy_and_place (id_method : string) (p : Path) (d : datetime)
    (b : Z) (anchored : bool) (cid : option Z) (st : MapState)
  : outcome MapState :=
  occ ← py_setitem (beat_occupied st) b true;
  Returned
    {| beat_occupied := occ;
       placements :=
         placements st ++ [new_placement id_method p d b anchored cid];
       anchored_count :=
         if anchored then anchored_count st + 1 else anchored_count st;
       warnings := warnings st |}.

(** *** [map_photos_to_beats_original] *)

(** First pass, one photo. *)
Definition place_anchored_photo (beats : list BeatInfo)
    (start_offset end_offset : Z) (id_method : string)
    (st : MapState) (ph : PhotoMetadata) : outcome MapState :=
  match photo_anchor ph with
  | None => Returned st
  | Some anchor =>
      let b := anchor - 1 in
      if in_effective_range beats start_offset end_offset b
      then
        occupied ← py_getitem (beat_occupied st) b;
        if occupied : bool
        then Returned (add_warning (BeatAlreadyOccupied anchor (photo_path ph)) st)
        else occupy_and_place id_method (photo_path ph) (photo_date ph) b
               true None st
      else Returned (add_warning (BeatOutsideRange anchor (photo_path ph)) st)
  end.

(** [anchor is None or not any(p.asset.path == path for p in placements)] *)
Definition is_non_anchored (pls : list PhotoPlacement) (ph : PhotoMetadata) : bool :=
  match photo_anchor ph with
  | None => true
  | Some _ =>
      negb (existsb (fun p => bool_decide (path (asset p) = photo_path ph)) pls)
  end.

(** Second pass, one photo. *)
Definition distribute_photo (beats : list BeatInfo)
    (start_date timespan start_offset end_offset num_effective_beats : Z)
    (id_method : string) (st : MapState) (pd : Path * datetime)
  : outcome MapState :=
  let preferred_beat :=
    preferred_beat_of start_date timespan start_offset num_effective_beats pd.2 in
  assigned_beat ←
    find_nearest_beat beats start_offset end_offset (beat_occupied st)
      preferred_beat num_effective_beats;
  occupied ← py_getitem (beat_occupied st) assigned_beat;
  if occupied : bool then Returned st
  else occupy_and_place id_method pd.1 pd.2 assigned_beat false None st.

Definition map_photos_to_beats_original (photos : list PhotoMetadata)
    (beats : list BeatInfo) (start_date end_date : datetime)
    (start_offset end_offset : Z) (id_method : string)
  : outcome (list PhotoPlacement * list Warning) :=
  let timespan := end_date - start_date in
  if timespan <=? 0 then error InvalidTimeSpan
  else
    let effective_beats :=
      py_slice beats start_offset (Z.of_nat (length beats) - end_offset) in
    let num_effective_beats := Z.of_nat (length effective_beats) in
    let filtered_photos := List.filter (in_date_range start_date end_date) photos in
    if num_effective_beats <? Z.of_nat (length filtered_photos)
    then error (TooManyPhotos (Z.of_nat (length filtered_photos))
                              num_effective_beats)
    else
      st ← for_each
             (place_anchored_photo beats start_offset end_offset id_method)
             (initial_state beats) filtered_photos;
      let non_anchored :=
        map (fun ph => (photo_path ph, photo_date ph))
          (List.filter (is_non_anchored (placements st)) filtered_photos) in
      st ← for_each
             (distribute_photo beats start_date timespan start_offset
                end_offset num_effective_beats id_method)
             st non_anchored;
      Returned (sorted lt_beat_index (placements st), warnings st).

(** *** [map_photo_clusters_to_beats] *)

Definition enumerate {A} (l : list A) : list (Z * A) :=
  imap (fun i x => (Z.of_nat i, x)) l.

(** First pass, one photo of cluster [cluster_idx]. *)
Definition place_anchored_cluster_photo (beats : list BeatInfo)
    (start_offset end_offset : Z) (id_method : string) (cluster_idx : Z)
    (st : MapState) (ph : PhotoMetadata) : outcome MapState :=
  match photo_anchor ph with
  | None => Returned st
  | Some anchor =>
      let b := anchor - 1 in
      if in_effective_range beats start_offset end_offset b
      then
        occupied ← py_getitem (beat_occupied st) b;
        if occupied : bool
        then Returned (add_warning (BeatAlreadyOccupied anchor (photo_path ph)) st)
        else occupy_and_place id_method (photo_path ph) (photo_date ph) b
               true (Some cluster_idx) st
      else Returned st
  end.

Definition place_anchored_cluster (beats : list BeatInfo)
    (start_offset end_offset : Z) (id_method : string)
    (st : MapState) (ic : Z * PhotoCluster) : outcome MapState :=
  for_each
    (place_anchored_cluster_photo beats start_offset end_offset id_method ic.1)
    st (photos ic.2).

(** [any(p.cluster_id == cluster_idx and p.is_anchored for p in placements)] *)
Definition cluster_has_anchored (pls : list PhotoPlacement) (cluster_idx : Z) : bool :=
  existsb (fun p => bool_decide (cluster_id p = Some cluster_idx) && is_anchored p)
    pls.

(** The inner loop of the second pass: one photo of the cluster placed
    at [assigned_beat] unless an anchored placement has its path. *)
Definition place_cluster_member (id_method : string) (cluster_idx assigned_beat : Z)
    (st : MapState) (ph : PhotoMetadata) : MapState :=
  if existsb (fun p => bool_decide (path (asset p) = photo_path ph) && is_anchored p)
       (placements st)
  then st
  else append_placement
         (new_placement id_method (photo_path ph) (photo_date ph) assigned_beat
            false (Some cluster_idx)) st.

(** Second pass, one cluster. *)
Definition distribute_cluster (beats : list BeatInfo)
    (start_date timespan start_offset end_offset num_effective_beats : Z)
    (id_method : string) (st : MapState) (ic : Z * PhotoCluster)
  : outcome MapState :=
  d ← representative_date ic.2;
  let preferred_beat :=
    preferred_beat_of start_date timespan start_offset num_effective_beats d in
  assigned_beat ←
    find_nearest_beat beats start_offset end_offset (beat_occupied st)
      preferred_beat num_effective_beats;
  occupied ← py_getitem (beat_occupied st) assigned_beat;
  if occupied : bool then Returned st
  else
    occ ← py_setitem (beat_occupied st) assigned_beat true;
    Returned
      (foldl (place_cluster_member id_method ic.1 assigned_beat)
         {| beat_occupied := occ; placements := placements st;
            anchored_count := anchored_count st; warnings := warnings st |}
         (photos ic.2)).

Definition map_photo_clusters_to_beats (clusters : list PhotoCluster)
    (beats : list BeatInfo) (start_date end_date : datetime)
    (start_offset end_offset : Z) (id_method : string)
  : outcome (list PhotoPlacement * list Warning) :=
  let timespan := end_date - start_date in
  if timespan <=? 0 then error InvalidTimeSpan
  else
    let effective_beats :=
      py_slice beats start_offset (Z.of_nat (length beats) - end_offset) in
    let num_effective_beats := Z.of_nat (length effective_beats) in
    if num_effective_beats <? Z.of_nat (length clusters)
    then error (TooManyClusters (Z.of_nat (length clusters)) num_effective_beats)
    else
      st ← for_each
             (place_anchored_cluster beats start_offset end_offset id_method)
             (initial_state beats) (enumerate clusters);
      let unassigned_clusters :=
        List.filter (fun ic => negb (cluster_has_anchored (placements st) ic.1))
          (enumerate clusters) in
      st ← for_each
             (distribute_cluster beats start_date timespan start_offset
                end_offset num_effective_beats id_method)
             st unassigned_clusters;
      Returned (sorted lt_beat_index_date (placements st), warnings st).

(** *** [map_photos_to_beats] *)

Definition map_photos_to_beats (photos : list PhotoMetadata)
    (beats : list BeatInfo) (start_date end_date : datetime)
    (start_offset end_offset : Z) (time_gap : TimeGap) (id_method : string)
  : outcome (list PhotoPlacement * list Warning) :=
  let filtered_photos := List.filter (in_date_range start_date end_date) photos in
  match filtered_photos with
  | [] => Returned ([], [NoPhotosInRange])
  | _ =>
      if amount time_gap =? 0
      then map_photos_to_beats_original filtered_photos beats start_date
             end_date start_offset end_offset id_method
      else
        let clusters := cluster_photos_by_time_gap filtered_photos time_gap in
        map_photo_clusters_to_beats clusters beats start_date end_date
          start_offset end_offset id_method
  end.
End assignment.

(** A file system for the concrete runs below: the identifier and the stem
    of a photo are its path, and no image size is detected. *)
Definition plain_fs : FileSystem :=
  {| generate_deterministic_uid := fun p _ => p;
     detect_image_dimensions := fun _ => None;
     stem := fun p => p |}.

(** [n] beats, numbered from 0. *)
Definition beat_grid (n : nat) : list BeatInfo :=
  map (fun i => {| index := Z.of_nat i; frame := 0 |}) (seq 0 n).

(** ** resolve_sync.py *)

(** The fields of [TimeRange], [TimelineElement] and [TimelineProject] that
    reconciliation reads. *)
Record TimeRange := { start_frame : Z; duration_frames : Z }.

Record TimelineElement := {
  element_asset : option MediaAsset;
  time_range : TimeRange;
  track : Z;
  media_type : MediaType
}.

Inductive PlaceholderMode :=
| PlaceholderNone | PlaceholderTitle | PlaceholderCaptions | PlaceholderImage
| PlaceholderMissing.

Record TimelineProject := {
  project_name : string;
  frame_rate : Z;
  elements : list TimelineElement;
  project_beats : list BeatInfo;
  photo_placements : list PhotoPlacement;
  placeholder_mode : PlaceholderMode
}.

Record SyncState := {
  state_project_name : string;
  state_timeline_name : string;
  photo_count : Z;
  audio_duration_ms : Z;
  state_placeholder_mode : PlaceholderMode;
  managed_asset_uids : gset string;
  timeline_item_count : Z;
  last_sync_version : string
}.

Record TimelineChanges := {
  items_to_add : list TimelineElement;
  items_to_remove : gset string;
  items_to_update : list (string * TimelineElement);
  markers_to_sync : bool
}.

Definition has_changes (c : TimelineChanges) : bool :=
  negb (bool_decide (items_to_add c = []))
  || negb (bool_decide (items_to_remove c = ∅))
  || negb (bool_decide (length (items_to_update c) = 0%nat))
  || markers_to_sync c.

Record ConflictReport := {
  unmanaged_items : list string;
  modified_positions : list string;
  manual_markers : list string
}.

Definition has_conflicts (c : ConflictReport) : bool :=
  negb (bool_decide (unmanaged_items c = []))
  || negb (bool_decide (modified_positions c = []))
  || negb (bool_decide (manual_markers c = [])).

(** *** What the host shows of a timeline

    The objects the scripting bridge hands out are read through getters;
    a value below is what those getters return while the plan is computed:
    [GetMarkers()] is the list of (frame, marker) entries of the dict,
    [GetStart(True)] and [GetDuration(True)] are frame counts, and the
    setting [beatspine_state] is given by what [_extract_managed_state]
    makes of its text. *)
Record MarkerInfo := {
  customData : option string;
  marker_name : option string
}.

Record TimelineItem := {
  item_name : string;
  item_markers : list (Z * MarkerInfo);
  item_start : Z;
  item_duration : Z
}.

(** The text of the setting [beatspine_state], by the way it decodes. *)
Inductive StoredState :=
| NoStoredState
    (* absent or empty, not JSON, or a JSON object with a key missing or
       an unknown placeholder mode: [None] is returned *)
| StoredSyncState (state : SyncState)
| IllTypedState.
    (* JSON that is not an object ([null], a list, a number, a text), or
       an object whose [managed_asset_uids] cannot be made a [frozenset]:
       [TypeError], which is not among the exceptions caught *)

Record Timeline := {
  timeline_name : string;
  timeline_start_frame : Z;
  stored_sync_state : StoredState;
  video_tracks : list (list TimelineItem);
  audio_tracks : list (list TimelineItem);
  timeline_markers : list (Z * MarkerInfo)
}.

Record Project := { timelines : list Timeline }.

Definition managed_prefix : string := "beatspine:".

(** [marker_info.get("customData", "")] *)
Definition custom_data_of (m : MarkerInfo) : string := default ""%string (customData m).

(** [custom_data.split(":", 1)[1]] for a text that starts with the prefix. *)
Definition after_prefix (s : string) : string :=
  String.substring (String.length managed_prefix)
    (String.length s - String.length managed_prefix)%nat s.

Fixpoint first_managed_marker (markers : list (Z * MarkerInfo)) : option string :=
  match markers with
  | [] => None
  | (_, m) :: rest =>
      if String.prefix managed_prefix (custom_data_of m)
      then Some (after_prefix (custom_data_of m))
      else first_managed_marker rest
  end.

Definition _extract_beatspine_uid (item : TimelineItem) : option string :=
  first_managed_marker (item_markers item).

(** The truth value of the result: [None] and the empty text are false. *)
Definition uid_truthy (u : option string) : option string :=
  match u with
  | Some s => if bool_decide (s = ""%string) then None else Some s
  | None => None
  end.

Definition all_items (timeline : Timeline) : list TimelineItem :=
  concat (video_tracks timeline) ++ concat (audio_tracks timeline).

Definition _catalog_current_items (timeline : Timeline) : gmap string TimelineItem :=
  foldl (fun managed_items item =>
           match uid_truthy (_extract_beatspine_uid item) with
           | Some asset_uid => <[asset_uid := item]> managed_items
           | None => managed_items
           end)
        ∅ (all_items timeline).

(** The exceptions that end [sync_project]. *)
Inductive SyncError :=
| ResolveConnectionError
| ProjectCreationFailed (name : string)      (* RuntimeError *)
| FramerateSettingFailed (key : string)      (* RuntimeError, from the assert *)
| TimelineCreationFailed (name : string)     (* RuntimeError *)
| StoredStateTypeError.                      (* TypeError *)

Definition _extract_managed_state (timeline : Timeline)
  : SyncError + option SyncState :=
  match stored_sync_state timeline with
  | NoStoredState => inr None
  | StoredSyncState state => inr (Some state)
  | IllTypedState => inl StoredStateTypeError
  end.

(** [abs(current - target) > 0.5] on whole frame counts. *)
Definition beyond_tolerance (current target : Z) : bool :=
  1 <? 2 * Z.abs (current - target).

Definition _requires_update (current_item : TimelineItem)
    (target_element : TimelineElement) (project : TimelineProject) : bool :=
  if beyond_tolerance (item_start current_item)
       (start_frame (time_range target_element))
  then true
  else beyond_tolerance (item_duration current_item)
         (duration_frames (time_range target_element)).

(** [{elem.asset.uid: elem for elem in project.elements if elem.asset}] *)
Definition target_elements_of (project : TimelineProject)
  : gmap string TimelineElement :=
  foldl (fun m elem =>
           match element_asset elem with
           | Some a => <[uid a := elem]> m
           | None => m
           end)
        ∅ (elements project).

(** Iterating over a Python set has no specified order; the model walks
    the set in the order of [base.elements]. *)
Definition _compute_differential_changes
    (current_items : gmap string TimelineItem)
    (target_elements : gmap string TimelineElement)
    (stored_state : option SyncState) (project : TimelineProject)
  : TimelineChanges :=
  let current_uids : gset string := dom current_items in
  let target_uids : gset string := dom target_elements in
  let managed_uids : gset string :=
    match stored_state with
    | Some s => managed_asset_uids s
    | None => ∅
    end in
  let new_uids := target_uids ∖ current_uids in
  let items_to_add :=
    omap (fun u => target_elements !! u) (base.elements new_uids) in
  let stale_uids := (current_uids ∩ managed_uids) ∖ target_uids in
  let common_uids := current_uids ∩ target_uids in
  let items_to_update :=
    omap (fun u =>
            match current_items !! u, target_elements !! u with
            | Some item, Some elem =>
                if _requires_update item elem project then Some (u, elem) else None
            | _, _ => None
            end)
         (base.elements common_uids) in
  {| items_to_add := items_to_add;
     items_to_remove := stale_uids;
     items_to_update := items_to_update;
     markers_to_sync := true |}.

Definition _analyze_conflicts (timeline : Timeline)
    (current_items : gmap string TimelineItem) (managed_uids : gset string)
  : ConflictReport :=
  let unmanaged :=
    omap (fun item =>
            match uid_truthy (_extract_beatspine_uid item) with
            | Some _ => None
            | None => Some ("Manual item: " +:+ item_name item)
            end)
         (all_items timeline) in
  let manual :=
    omap (fun '(frame_id, m) =>
            if String.prefix managed_prefix (custom_data_of m) then None
            else Some ("Manual marker at frame " +:+ pretty frame_id +:+ ": "
                       +:+ default "Unknown"%string (marker_name m)))
         (timeline_markers timeline) in
  {| unmanaged_items := unmanaged; modified_positions := []; manual_markers := manual |}.

(** *** A reconciliation session

    [sync_project] talks to the host through the scripting bridge.  The
    calls that connect, open or close a project, change the host or ask
    the operator are events of type [HostCall R], [R] being the type of
    the answer; a session is the tree of the events it issues, and
    running it against a host gives the list of them, in order.  The
    calls that only read a project or a timeline ([GetTimelineCount],
    [GetTimelineByIndex], [GetName], [GetStartFrame], [GetSetting],
    [GetTrackCount], [GetItemListInTrack], [GetMarkers], [GetStart],
    [GetDuration]) are not events: what they return is the data of the
    [Project] that [LoadProject] or [CreateProject] answers.  A list of
    calls below is a list of events, not of every call made. *)
Inductive HostCall : Type -> Type :=
| GetResolve : HostCall bool
    (* get_resolve() and GetProjectManager(); false when either raises *)
| LoadProject (name : string) : HostCall (option Project)
| CloseProject (name : string) : HostCall Datatypes.unit
| DeleteProject (name : string) : HostCall Datatypes.unit
| CreateProject (name : string) : HostCall (option Project)
| SetSetting (key value : string) : HostCall bool
| ConfirmAsk : HostCall bool
    (* Confirm.ask("Apply changes? Manual modifications will be preserved.") *)
| CreateEmptyTimeline (name : string) : HostCall (option Timeline)
| ImportMedia (paths : list Path) : HostCall (list Path)
| SetMetadata (item key value : string) : HostCall bool
| AppendToTimeline (asset_uid : string) (record_frame : Z) : HostCall bool
| DeleteMarkerAtFrame (frame_id : Z) : HostCall bool
| AddMarker (frame_id : Z) (custom_data : string) : HostCall bool
| TimelineSetSetting (key : string) (state : option SyncState) : HostCall bool
| SetCurrentTimeline (name : string) : HostCall bool.

(** The calls that change the state of the host. *)
Definition is_mutating {R} (c : HostCall R) : bool :=
  match c with
  | GetResolve | LoadProject _ | CloseProject _ | ConfirmAsk => false
  | DeleteProject _ | CreateProject _ | SetSetting _ _
  | CreateEmptyTimeline _ | ImportMedia _ | SetMetadata _ _ _
  | AppendToTimeline _ _ | DeleteMarkerAtFrame _ | AddMarker _ _
  | TimelineSetSetting _ _ | SetCurrentTimeline _ => true
  end.

Inductive Session (A : Type) : Type :=
| Done (r : A)
| Fail (e : SyncError)
| Call {R : Type} (c : HostCall R) (k : R -> Session A).
Arguments Done {A} r.
Arguments Fail {A} e.
Arguments Call {A R} c k.

Fixpoint session_bind {A B} (f : A -> Session B) (s : Session A) : Session B :=
  match s with
  | Done r => f r
  | Fail e => Fail e
  | Call c k => Call c (fun r => session_bind f (k r))
  end.

#[global] Instance session_ret : MRet Session := fun A a => Done a.
#[global] Instance session_mbind : MBind Session := fun A B f s => session_bind f s.

Definition call {R} (c : HostCall R) : Session R := Call c Done.

(** A call that was issued, without its answer. *)
Record Issued := { answer_type : Type; issued_call : HostCall answer_type }.

Definition issued_mutating (i : Issued) : bool := is_mutating (issued_call i).

(** A host answers a call knowing the calls issued before it. *)
Definition Host := list Issued -> forall R, HostCall R -> R.

Fixpoint run_session {A} (host : Host) (s : Session A) (trace : list Issued)
  : list Issued * (SyncError + A) :=
  match s with
  | Done r => (trace, inr r)
  | Fail e => (trace, inl e)
  | Call c k =>
      run_session host (k (host trace _ c))
        (trace ++ [{| answer_type := _; issued_call := c |}])
  end.

Definition _establish_connection : Session Datatypes.unit :=
  ok ← call GetResolve;
  if ok : bool then Done tt else Fail ResolveConnectionError.

Definition _locate_or_create_project (name : string) (recreate : bool)
  : Session Project :=
  let create :=
    new_project ← call (CreateProject name);
    match new_project with
    | None => Fail (ProjectCreationFailed name)
    | Some p => Done p
    end in
  existing_project ← call (LoadProject name);
  match existing_project with
  | Some p =>
      if negb recreate then Done p
      else
        _ ← call (CloseProject name);
        _ ← call (DeleteProject name);
        create
  | None => create
  end.

Definition _locate_timeline (project : Project) (name : string) : option Timeline :=
  List.find (fun t => bool_decide (timeline_name t = name)) (timelines project).

Definition _create_new_timeline (project : TimelineProject) : Session Timeline :=
  timeline ← call (CreateEmptyTimeline (project_name project));
  match timeline with
  | None => Fail (TimelineCreationFailed (project_name project))
  | Some t => Done t
  end.

(** [assert resolve_project.SetSetting(key, value), key] *)
Definition assert_setting (key value : string) : Session Datatypes.unit :=
  ok ← call (SetSetting key value);
  if ok : bool then Done tt else Fail (FramerateSettingFailed key).

Section sync.
(** [_sync_timeline_content] (media import, item placement, marker
    synchronisation, state persistence, timeline activation): the apply
    phase of a session. *)
Context (_sync_timeline_content :
           Timeline -> TimelineProject -> bool -> option TimelineChanges ->
           Session Datatypes.unit).

Definition sync_project (project : TimelineProject)
    (force recreate dry_run : bool) : Session Datatypes.unit :=
  _ ← _establish_connection;
  resolve_project ← _locate_or_create_project (project_name project) recreate;
  _ ← assert_setting "timelineFrameRate" (pretty (frame_rate project));
  _ ← assert_setting "timelineFrameRateMismatchBehavior" "fcp7";
  _ ← assert_setting "videoMonitorFormat"
        ("HD 1080p " +:+ pretty (frame_rate project));
  match _locate_timeline resolve_project (project_name project) with
  | None =>
      if dry_run then Done tt
      else
        timeline ← _create_new_timeline project;
        _sync_timeline_content timeline project dry_run None
  | Some existing_timeline =>
      match _extract_managed_state existing_timeline with
      | inl e => Fail e
      | inr stored_state =>
          let current_items := _catalog_current_items existing_timeline in
          let target_elements := target_elements_of project in
          let changes :=
            _compute_differential_changes current_items target_elements
              stored_state project in
          let managed_uids : gset string :=
            match stored_state with
            | Some s => managed_asset_uids s
            | None => ∅
            end in
          let conflicts :=
            _analyze_conflicts existing_timeline current_items managed_uids in
          let proceed :=
            if dry_run then Done tt
            else _sync_timeline_content existing_timeline project dry_run
                   (Some changes) in
          if has_conflicts conflicts && negb force
          then
            if dry_run then Done tt
            else
              confirmed ← call ConfirmAsk;
              if confirmed : bool then proceed else Done tt
          else proceed
      end
  end.
End sync.

(** The calls issued by a session started on a fresh connection. *)
Definition calls_of {A} (host : Host) (s : Session A) : list Issued :=
  (run_session host s []).1.

(** ** Invariants of the assignment state *)

(** Every slot that holds a placement is marked in the occupancy list. *)
Definition slots_marked (st : MapState) : Prop :=
  forall p, p ∈ placements st ->
    py_getitem (beat_occupied st) (beat_index p) = Returned true.

(** Placements that share a slot belong to one cluster. *)
Definition one_cluster_per_slot (pls : list PhotoPlacement) : Prop :=
  forall p q, p ∈ pls -> q ∈ pls ->
    beat_index p = beat_index q -> cluster_id p = cluster_id q.

(** The invariant of the pass without clustering. *)
Definition distinct_slots (st : MapState) : Prop :=
  slots_marked st /\ NoDup (map beat_index (placements st)).

(** The invariant of the pass over clusters. *)
Definition cluster_slots (st : MapState) : Prop :=
  slots_marked st /\ one_cluster_per_slot (placements st).

(** ** Concrete inputs

    The runs that the examples and counterexamples below evaluate. *)

Definition photo (p : Path) (d : datetime) (anchor : option Z) : PhotoMetadata :=
  (p, d, anchor).

Definition singleton_cluster (ph : PhotoMetadata) : PhotoCluster :=
  {| photos := [ph]; start_date := photo_date ph; end_date := photo_date ph |}.

(** What a placement list shows: path, beat index, anchored flag, cluster. *)
Definition summary (pls : list PhotoPlacement)
  : list (Path * Z * bool * option Z) :=
  map (fun p => (path (asset p), beat_index p, is_anchored p, cluster_id p)) pls.

(** Five photos for five beats: four taken at the start of the date range
    and one at its end. *)
Definition crowded_photos : list PhotoMetadata :=
  [photo "a" 0 None; photo "b" 0 None; photo "c" 0 None; photo "d" 0 None;
   photo "e" 100 None].

(** Six photos for five beats. *)
Definition six_photos : list PhotoMetadata :=
  [photo "a" 0 None; photo "b" 20 None; photo "c" 40 None; photo "d" 60 None;
   photo "e" 80 None; photo "f" 100 None].

(** A media asset and a timeline element for it. *)
Definition photo_asset (u : string) : MediaAsset :=
  {| path := u; asset_media_type := VIDEO; uid := u; name := u;
     dimensions := None |}.

Definition photo_element (u : string) (start len : Z) : TimelineElement :=
  {| element_asset := Some (photo_asset u);
     time_range := {| start_frame := start; duration_frames := len |};
     track := 1; media_type := VIDEO |}.

(** A timeline item tagged as managed under identifier [u]. *)
Definition managed_item (u : string) (start len : Z) : TimelineItem :=
  {| item_name := u;
     item_markers :=
       [(0, {| customData := Some (managed_prefix +:+ u); marker_name := None |})];
     item_start := start; item_duration := len |}.

Definition steady_project : TimelineProject :=
  {| project_name := "show"; frame_rate := 60;
     elements := [photo_element "A" 0 30; photo_element "B" 30 30];
     project_beats := beat_grid 2; photo_placements := [];
     placeholder_mode := PlaceholderNone |}.

Definition state_of (uids : gset string) : SyncState :=
  {| state_project_name := "show"; state_timeline_name := "show";
     photo_count := 2; audio_duration_ms := 1000;
     state_placeholder_mode := PlaceholderNone; managed_asset_uids := uids;
     timeline_item_count := 2; last_sync_version := "1.0" |}.

(** A timeline in step with [steady_project]: both elements present at
    their target frames, each with the tag that [_extract_beatspine_uid]
    reads, and the stored state listing both identifiers. *)
Definition steady_timeline : Timeline :=
  {| timeline_name := "show"; timeline_start_frame := 0;
     stored_sync_state := StoredSyncState (state_of {["A"; "B"]});
     video_tracks := [[managed_item "A" 0 30; managed_item "B" 30 30]];
     audio_tracks := []; timeline_markers := [] |}.

(** A snapshot with a stale managed item ["C"] and a tagged item ["X"]
    that no stored state lists. *)
Definition drifted_items : gmap string TimelineItem :=
  {[ "A" := managed_item "A" 0 30; "C" := managed_item "C" 60 30;
     "X" := managed_item "X" 90 30 ]}.

(** A host on which the project does not exist yet and every call
    succeeds; a new project has no timeline. *)
Definition fresh_host : Host := fun _ R c =>
  match c in HostCall R return R with
  | GetResolve => true
  | LoadProject _ => None
  | CloseProject _ => tt
  | DeleteProject _ => tt
  | CreateProject _ => Some {| timelines := [] |}
  | SetSetting _ _ => true
  | ConfirmAsk => false
  | CreateEmptyTimeline _ => None
  | ImportMedia _ => []
  | SetMetadata _ _ _ => true
  | AppendToTimeline _ _ => true
  | DeleteMarkerAtFrame _ => true
  | AddMarker _ _ => true
  | TimelineSetSetting _ _ => true
  | SetCurrentTimeline _ => true
  end.

(** A host on which the project exists and holds [steady_timeline]. *)
Definition steady_host : Host := fun _ R c =>
  match c in HostCall R return R with
  | GetResolve => true
  | LoadProject _ => Some {| timelines := [steady_timeline] |}
  | CloseProject _ => tt
  | DeleteProject _ => tt
  | CreateProject _ => Some {| timelines := [] |}
  | SetSetting _ _ => true
  | ConfirmAsk => false
  | CreateEmptyTimeline _ => None
  | ImportMedia _ => []
  | SetMetadata _ _ _ => true
  | AppendToTimeline _ _ => true
  | DeleteMarkerAtFrame _ => true
  | AddMarker _ _ => true
  | TimelineSetSetting _ _ => true
  | SetCurrentTimeline _ => true
  end.

(** An apply phase that does nothing, for runs that never reach it. *)
Definition no_apply (t : Timeline) (p : TimelineProject) (dry_run : bool)
    (changes : option TimelineChanges) : Session Datatypes.unit := Done tt.

(** The names of the calls issued, for display. *)
Definition call_name {R} (c : HostCall R) : string :=
  match c with
  | GetResolve => "GetResolve"
  | LoadProject _ => "LoadProject"
  | CloseProject _ => "CloseProject"
  | DeleteProject _ => "DeleteProject"
  | CreateProject _ => "CreateProject"
  | SetSetting key _ => "SetSetting " +:+ key
  | ConfirmAsk => "Confirm.ask"
  | CreateEmptyTimeline _ => "CreateEmptyTimeline"
  | ImportMedia _ => "ImportMedia"
  | SetMetadata _ _ _ => "SetMetadata"
  | AppendToTimeline _ _ => "AppendToTimeline"
  | DeleteMarkerAtFrame _ => "DeleteMarkerAtFrame"
  | AddMarker _ _ => "AddMarker"
  | TimelineSetSetting _ _ => "Timeline.SetSetting"
  | SetCurrentTimeline _ => "SetCurrentTimeline"
  end.

Definition call_names (tr : list Issued) : list string :=
  map (fun i => call_name (issued_call i)) tr.

(** [steady_timeline] with a clip that the operator added by hand. *)
Definition edited_timeline : Timeline :=
  {| timeline_name := "show"; timeline_start_frame := 0;
     stored_sync_state := StoredSyncState (state_of {["A"; "B"]});
     video_tracks :=
       [[managed_item "A" 0 30; managed_item "B" 30 30];
        [{| item_name := "title card"; item_markers := []; item_start := 0;
            item_duration := 60 |}]];
     audio_tracks := []; timeline_markers := [] |}.

(** A host holding [edited_timeline], with an operator who declines. *)
Definition edited_host : Host := fun _ R c =>
  match c in HostCall R return R with
  | GetResolve => true
  | LoadProject _ => Some {| timelines := [edited_timeline] |}
  | CloseProject _ => tt
  | DeleteProject _ => tt
  | CreateProject _ => Some {| timelines := [] |}
  | SetSetting _ _ => true
  | ConfirmAsk => false
  | CreateEmptyTimeline _ => None
  | ImportMedia _ => []
  | SetMetadata _ _ _ => true
  | AppendToTimeline _ _ => true
  | DeleteMarkerAtFrame _ => true
  | AddMarker _ _ => true
  | TimelineSetSetting _ _ => true
  | SetCurrentTimeline _ => true
  end.

(** ** Minimum-gap clustering, as the specification words it

    Walk the sorted items; the gap is measured from the immediately
    preceding item; a new cluster starts when the gap, in the configured
    unit and truncated, is at least the configured amount; otherwise the
    item joins the current cluster. *)

Definition gap_between (time_gap : TimeGap) (a b : PhotoMetadata) : Z :=
  calculate_time_delta (photo_date a) (photo_date b) (unit time_gap).

(** [split_at_gaps time_gap prev rest]: the items of [rest] that join the
    cluster of [prev], and the clusters that follow it. *)
Fixpoint split_at_gaps (time_gap : TimeGap) (prev : PhotoMetadata)
    (rest : list PhotoMetadata) : list PhotoMetadata * list (list PhotoMetadata) :=
  match rest with
  | [] => ([], [])
  | cur :: rest' =>
      let '(joining, following) := split_at_gaps time_gap cur rest' in
      if amount time_gap <=? gap_between time_gap prev cur
      then ([], (cur :: joining) :: following)
      else (cur :: joining, following)
  end.

Definition clusters_by_gap (time_gap : TimeGap) (ps : list PhotoMetadata)
  : list (list PhotoMetadata) :=
  match ps with
  | [] => []
  | p0 :: rest =>
      let '(joining, following) := split_at_gaps time_gap p0 rest in
      (p0 :: joining) :: following
  end.

(** [R] holds of every two neighbours of a list. *)
Fixpoint neighbours {A} (R : A -> A -> Prop) (l : list A) : Prop :=
  match l with
  | x :: (y :: _) as l' => R x y /\ neighbours R l'
  | _ => True
  end.

(** The last item of one cluster and the first of the next are at least
    the configured amount apart. *)
Definition gap_separates (time_gap : TimeGap) (g1 g2 : list PhotoMetadata) : Prop :=
  exists a b, last g1 = Some a /\ head g2 = Some b
              /\ amount time_gap <= gap_between time_gap a b.

(** Items at 0 s, 10 s and 25 s, and a minimum gap of 20 seconds. *)
Definition three_photos : list PhotoMetadata :=
  [photo "p0" 0 None; photo "p10" 10000000 None; photo "p25" 25000000 None].

Definition gap_20_seconds : TimeGap :=
  {| amount := 20; unit := SECOND; same_period_mode := false |}.

(** Every placement is the placement of a photo of [src]. *)
Definition placed_from (src : list PhotoMetadata) (st : MapState) : Prop :=
  forall p, p ∈ placements st ->
    exists ph, ph ∈ src /\ photo_path ph = path (asset p)
               /\ photo_date ph = date p.

Definition cluster_members (clusters : list PhotoCluster) : list PhotoMetadata :=
  concat (map photos clusters).

(** Photos around the date range from 0 to 100: one inside, and one pinned
    to beat 2 but dated after the range. *)
Definition late_photo : PhotoMetadata := photo "late" 200 (Some 2).
Definition inside_and_late : list PhotoMetadata := [photo "in" 50 None; late_photo].

(** The placement [p] pins photo [ph] to slot [b]. *)
Definition pinned_at (ph : PhotoMetadata) (b : Z) (p : PhotoPlacement) : Prop :=
  path (asset p) = photo_path ph /\ date p = photo_date ph
  /\ beat_index p = b /\ is_anchored p = true.

(** Slot [b] is not marked as occupied (its cell reads [False], or the
    subscript is out of range). *)
Definition slot_free (b : Z) (st : MapState) : Prop :=
  py_getitem (beat_occupied st) b <> Returned true.

(** Two photos taken at the start of the range, which both prefer beat 0,
    and a photo taken near its end that is pinned to beat 1 (slot 0). *)
Definition pinned_photo : PhotoMetadata := photo "pin" 90 (Some 1).
Definition pressured_photos : list PhotoMetadata :=
  [photo "a" 0 None; photo "b" 0 None; pinned_photo].

(** ** Co-location of a cluster *)

(** Photo [ph] has a chronological placement at slot [b] under cluster
    index [idx]. *)
Definition member_placed (pls : list PhotoPlacement) (idx b : Z)
    (ph : PhotoMetadata) : Prop :=
  exists p, p ∈ pls /\ path (asset p) = photo_path ph /\ date p = photo_date ph
            /\ beat_index p = b /\ cluster_id p = Some idx
            /\ is_anchored p = false.

(** The placement that the second pass makes for a member of a cluster. *)
Definition member_placement (fs : FileSystem) (id_method : string)
    (idx b : Z) (ph : PhotoMetadata) : PhotoPlacement :=
  {| asset := from_photo fs (photo_path ph)
                (generate_deterministic_uid fs (photo_path ph) id_method);
     beat_index := b; date := photo_date ph; is_anchored := false;
     cluster_id := Some idx |}.

(** Where the anchored placements of the first pass come from. *)
Definition anchored_in_clusters (clusters : list PhotoCluster)
    (pls : list PhotoPlacement) : Prop :=
  forall p, p ∈ pls ->
    is_anchored p = true
    /\ exists n c ph, clusters !! n = Some c /\ cluster_id p = Some (Z.of_nat n)
                      /\ ph ∈ photos c /\ path (asset p) = photo_path ph.

(** The invariant of the second pass over clusters: [pls1] are the
    placements of the first pass and [done] the clusters walked so far. *)
Definition chrono_inv (pls1 : list PhotoPlacement)
    (done : list (Z * PhotoCluster)) (st : MapState) : Prop :=
  (forall p, p ∈ placements st -> is_anchored p = true -> p ∈ pls1)
  /\ (forall p, p ∈ placements st -> is_anchored p = false ->
        exists ic, ic ∈ done /\ cluster_id p = Some ic.1)
  /\ (forall ic p0, ic ∈ done -> p0 ∈ placements st ->
        cluster_id p0 = Some ic.1 -> is_anchored p0 = false ->
        (forall ph, ph ∈ photos ic.2 ->
                    member_placed (placements st) ic.1 (beat_index p0) ph)
        /\ (forall p, p ∈ placements st -> cluster_id p = Some ic.1 ->
                      is_anchored p = false -> beat_index p = beat_index p0)).

(** One cluster whose two members are pinned to beats 1 and 3, and one
    cluster with a member pinned to beat 1 and a member without a pin. *)
Definition two_pins_cluster : PhotoCluster :=
  make_cluster [photo "x" 10 (Some 1); photo "y" 20 (Some 3)].

Definition pin_and_plain_cluster : PhotoCluster :=
  make_cluster [photo "x" 10 (Some 1); photo "y" 20 None].

(** Two clusters without pins: photos ["a"], ["b"] and photo ["c"]. *)
Definition plain_clusters : list PhotoCluster :=
  [make_cluster [photo "a" 10 None; photo "b" 20 None];
   make_cluster [photo "c" 90 None]].

(** ** Further notions for the clustering and sorting properties *)

(** The period of a photo under a gap configuration. *)
Definition period_of (time_gap : TimeGap) (ph : PhotoMetadata) : datetime :=
  normalize_to_period_start (photo_date ph) (unit time_gap).

(** The photos of a list that fall into period [k], in their order. *)
Definition photos_of_period (time_gap : TimeGap) (k : datetime)
    (ps : list PhotoMetadata) : list PhotoMetadata :=
  List.filter (fun ph => bool_decide (period_of time_gap ph = k)) ps.

(** The units whose periods all have the same length. *)
Definition fixed_length_unit (u : TimeUnit) : bool :=
  match u with
  | SECOND | MINUTE | HOUR | DAY | WEEK => true
  | MONTH | YEAR => false
  end.

(** The order in which [sorted] leaves two neighbours: not [y < x]. *)
Definition not_after {A} (lt : A -> A -> bool) (x y : A) : Prop := lt y x = false.

(** ** Further notions for the placement properties *)

(** The beat tried at a search radius: odd radii look to the left of the
    preferred beat, even radii to its right. *)
Definition candidate_at (preferred_beat search_radius : Z) : Z :=
  if search_radius mod 2 =? 1
  then preferred_beat - (search_radius / 2 + 1)
  else preferred_beat + search_radius / 2.

(** A beat that the search may take: inside the effective range and free. *)
Definition usable (beats : list BeatInfo) (start_offset end_offset : Z)
    (occupied : list bool) (b : Z) : Prop :=
  in_effective_range beats start_offset end_offset b = true
  /\ py_getitem occupied b = Returned false.

(** Every placement lies inside the effective range. *)
Definition placed_in_range (beats : list BeatInfo) (start_offset end_offset : Z)
    (st : MapState) : Prop :=
  forall p, p ∈ placements st ->
    start_offset <= beat_index p < Z.of_nat (length beats) - end_offset.

(** The order of the output of the pass over clusters. *)
Definition by_beat_then_date (p q : PhotoPlacement) : Prop :=
  beat_index p < beat_index q
  \/ (beat_index p = beat_index q /\ date p <= date q).

(** ** Vocabulary of a session *)

(** The calls made on the project manager and on the project itself,
    before any timeline is touched. *)
Definition project_level {R} (c : HostCall R) : bool :=
  match c with
  | GetResolve | LoadProject _ | CloseProject _ | DeleteProject _
  | CreateProject _ | SetSetting _ _ => true
  | _ => false
  end.

Definition issued_project_level (i : Issued) : bool :=
  project_level (issued_call i).

(** [Confirm.ask], the question put to the operator. *)
Definition asks_operator (i : Issued) : bool :=
  match issued_call i with
  | ConfirmAsk => true
  | _ => false
  end.

(** The call whose refusal raises the error. *)
Definition raised_by (e : SyncError) (i : Issued) : bool :=
  match e, issued_call i with
  | ResolveConnectionError, GetResolve => true
  | ProjectCreationFailed name, CreateProject name' => bool_decide (name = name')
  | FramerateSettingFailed key, SetSetting key' _ => bool_decide (key = key')
  | TimelineCreationFailed name, CreateEmptyTimeline name' =>
      bool_decide (name = name')
  | _, _ => false
  end.

(** A host on which nothing can be reached. *)
Definition unreachable_host : Host :=
  fun _ R c =>
    match c in HostCall R return R with
    | GetResolve => false
    | LoadProject _ => None
    | CloseProject _ => tt
    | DeleteProject _ => tt
    | CreateProject _ => None
    | SetSetting _ _ => false
    | ConfirmAsk => false
    | CreateEmptyTimeline _ => None
    | ImportMedia _ => []
    | SetMetadata _ _ _ => false
    | AppendToTimeline _ _ => false
    | DeleteMarkerAtFrame _ => false
    | AddMarker _ _ => false
    | TimelineSetSetting _ _ => false
    | SetCurrentTimeline _ => false
    end.

(** ** resolve_sync.py: beat markers *)

Definition beat_prefix : string := "beatspine:beat:".

(** The character [:]. *)
Definition colon : Ascii.ascii := Ascii.ascii_of_nat 58.

Fixpoint has_colon (s : string) : bool :=
  match s with
  | EmptyString => false
  | String c rest => if Ascii.eqb c colon then true else has_colon rest
  end.

(** [custom_data.split(":")[-1]]: what follows the last colon, the whole
    text when it has none. *)
Fixpoint last_segment (s : string) : string :=
  match s with
  | EmptyString => EmptyString
  | String c rest =>
      if has_colon rest then last_segment rest
      else if Ascii.eqb c colon then rest else s
  end.

Definition delete_marker (frame_id : Z) : Issued :=
  {| answer_type := bool; issued_call := DeleteMarkerAtFrame frame_id |}.

Definition add_marker (frame_id : Z) (custom_data : string) : Issued :=
  {| answer_type := bool; issued_call := AddMarker frame_id custom_data |}.

Section beat_markers.
(** [int(text)] is [py_int text], [None] when it raises [ValueError];
    [int(beat.time * project.frame_rate)] is [frame_position project beat].
    The answers of the host to [DeleteMarkerAtFrame] and [AddMarker] are
    not read, so the synchronisation is the list of the calls it issues,
    with the exception that ends it, if any.  Frame numbers are whole
    frames, and the loops over the sets of beat indices walk them in the
    order of [base.elements]. *)
Context (py_int : string -> option Z).
Context (frame_position : TimelineProject -> BeatInfo -> Z).

(** The marker [m] is a beat marker of the beat index [i]. *)
Definition tagged_beat (m : MarkerInfo) (i : Z) : Prop :=
  String.prefix beat_prefix (custom_data_of m) = true
  /\ py_int (last_segment (custom_data_of m)) = Some i.

(** The first loop: the beat markers found, by beat index, and the
    deletions of the malformed ones. *)
Definition catalog_beat_markers (existing_markers : list (Z * MarkerInfo))
  : gmap Z Z * list Issued :=
  foldl (fun '(current_beat_markers, calls) '(frame_id, marker_info) =>
           let custom_data := custom_data_of marker_info in
           if String.prefix beat_prefix custom_data then
             match py_int (last_segment custom_data) with
             | Some beat_index =>
                 (<[beat_index := frame_id]> current_beat_markers, calls)
             | None => (current_beat_markers, calls ++ [delete_marker frame_id])
             end
           else (current_beat_markers, calls))
        (∅, []) existing_markers.

Definition target_markers_of (project : TimelineProject) : gmap Z Z :=
  foldl (fun target_markers beat =>
           <[index beat := frame_position project beat]> target_markers)
        ∅ (project_beats project).

(** The last loop, over the target indices. *)
Fixpoint add_and_move_markers (project : TimelineProject)
    (current_beat_markers target_markers : gmap Z Z) (indices : list Z)
  : list Issued * outcome Datatypes.unit :=
  match indices with
  | [] => ([], Returned tt)
  | beat_index :: rest =>
      let target_frame := target_markers !!! beat_index in
      let current_frame := current_beat_markers !! beat_index in
      let moved :=
        match current_frame with
        | None => true
        | Some f => beyond_tolerance f target_frame
        end in
      if moved then
        let deleted :=
          match current_frame with
          | None => []
          | Some f => [delete_marker f]
          end in
        match py_getitem (project_beats project) beat_index with
        | Raised e => (deleted, Raised e)
        | Returned beat =>
            let '(calls, result) :=
              add_and_move_markers project current_beat_markers target_markers
                rest in
            (deleted
               ++ add_marker target_frame (beat_prefix +:+ pretty (index beat))
               :: calls,
             result)
        end
      else
        add_and_move_markers project current_beat_markers target_markers rest
  end.

Definition _synchronize_beat_markers (timeline : Timeline)
    (project : TimelineProject) : list Issued * outcome Datatypes.unit :=
  let '(current_beat_markers, malformed) :=
    catalog_beat_markers (timeline_markers timeline) in
  let target_markers := target_markers_of project in
  let obsolete_indices := dom current_beat_markers ∖ dom target_markers in
  let obsolete :=
    (fun beat_index => delete_marker (current_beat_markers !!! beat_index))
      <$> base.elements obsolete_indices in
  let '(calls, result) :=
    add_and_move_markers project current_beat_markers target_markers
      (base.elements (dom target_markers)) in
  (malformed ++ obsolete ++ calls, result).
End beat_markers.

(** A stand-in for [int] in the concrete runs below: it agrees with
    [int] on a text of ASCII digits and rejects every other text, also
    the signed, padded or underscored numbers that [int] accepts; the
    runs hold no such text. *)
Definition digit_of (c : Ascii.ascii) : option Z :=
  let n := Z.of_nat (Ascii.nat_of_ascii c) in
  if bool_decide (48 <= n <= 57) then Some (n - 48) else None.

Fixpoint digits_value (s : string) (acc : Z) : option Z :=
  match s with
  | EmptyString => Some acc
  | String c rest => d ← digit_of c; digits_value rest (10 * acc + d)
  end.

Definition decimal_int (s : string) : option Z :=
  match s with
  | EmptyString => None
  | _ => digits_value s 0
  end.

(** The frame of a beat as its [frame] field gives it. *)
Definition frame_of_beat (project : TimelineProject) (beat : BeatInfo) : Z :=
  frame beat.

Definition beat_marker (i : Z) : MarkerInfo :=
  {| customData := Some (beat_prefix +:+ pretty i);
     marker_name := Some ("Beat " +:+ pretty (i + 1)) |}.

Definition manual_marker (name : string) : MarkerInfo :=
  {| customData := None; marker_name := Some name |}.

(** Two beats, at frames 0 and 30. *)
Definition two_beat_project : TimelineProject :=
  {| project_name := "show"; frame_rate := 60;
     elements := [photo_element "A" 0 30; photo_element "B" 30 30];
     project_beats := [ {| index := 0; frame := 0 |};
                        {| index := 1; frame := 30 |} ];
     photo_placements := []; placeholder_mode := PlaceholderNone |}.

(** A timeline with the two beat markers in place and a marker set by
    hand between them. *)
Definition marked_timeline : Timeline :=
  {| timeline_name := "show"; timeline_start_frame := 0;
     stored_sync_state := NoStoredState; video_tracks := [];
     audio_tracks := [];
     timeline_markers :=
       [(0, beat_marker 0); (15, manual_marker "cut here");
        (30, beat_marker 1)] |}.

(** The same timeline after the second beat marker was dragged to frame
    40, a beat marker of an old run left at frame 90, and one whose tag
    does not end in a number. *)
Definition stale_marked_timeline : Timeline :=
  {| timeline_name := "show"; timeline_start_frame := 0;
     stored_sync_state := NoStoredState; video_tracks := [];
     audio_tracks := [];
     timeline_markers :=
       [(0, beat_marker 0); (15, manual_marker "cut here");
        (40, beat_marker 1); (90, beat_marker 5);
        (95, {| customData := Some "beatspine:beat:x";
                marker_name := None |})] |}.

(** What a placement shows of its photo, and the same of a photo. *)
Definition placed_photo (p : PhotoPlacement) : Path * datetime :=
  (path (asset p), date p).

Definition photo_key (ph : PhotoMetadata) : Path * datetime :=
  (photo_path ph, photo_date ph).

(** The gap between the timestamps of two items, converted to the
    configured unit with truncation. *)
Definition truncated_gap (time_gap : TimeGap) (a b : PhotoMetadata) : Z :=
  Z.abs (photo_date b - photo_date a) / unit_microseconds (unit time_gap).

(** The last item of one cluster and the first of the next are at least
    the configured amount apart, by their timestamps. *)
Definition truncated_gap_separates (time_gap : TimeGap)
    (g1 g2 : list PhotoMetadata) : Prop :=
  exists a b, last g1 = Some a /\ head g2 = Some b
              /\ amount time_gap <= truncated_gap time_gap a b.

(** Dates less than [2^53] microseconds (some 285 years) apart. *)
Definition within_float_precision (ps : list PhotoMetadata) : Prop :=
  forall a b, a ∈ ps -> b ∈ ps ->
    Z.abs (photo_date b - photo_date a) < 2 ^ 53.

(** Items at 0 s, 10 s and 30 s; at 0 s, 15 s and 30 s; at 0 s and
    19.999999 s; at 0 s, 119.999999 s and 240 s, with a minimum gap of two
    minutes. *)
Definition photos_0_10_30 : list PhotoMetadata :=
  [photo "p0" 0 None; photo "p10" 10000000 None; photo "p30" 30000000 None].

Definition photos_0_15_30 : list PhotoMetadata :=
  [photo "p0" 0 None; photo "p15" 15000000 None; photo "p30" 30000000 None].

Definition photos_just_under_20 : list PhotoMetadata :=
  [photo "p0" 0 None; photo "p19" 19999999 None].

Definition photos_in_minutes : list PhotoMetadata :=
  [photo "p0" 0 None; photo "p119" 119999999 None; photo "p240" 240000000 None].

Definition gap_2_minutes : TimeGap :=
  {| amount := 2; unit := MINUTE; same_period_mode := false |}.

(** Two items 19999999999.999999 seconds (some 634 years) apart, and a
    minimum gap of 20000000000 seconds. *)
Definition centuries_apart : list PhotoMetadata :=
  [photo "old" 0 None; photo "new" 19999999999999999 None].

Definition gap_20_gigaseconds : TimeGap :=
  {| amount := 20000000000; unit := SECOND; same_period_mode := false |}.

(** The paths of the clusters, for display. *)
Definition cluster_paths (clusters : list PhotoCluster) : list (list Path) :=
  map (fun c => map photo_path (photos c)) clusters.

(** A host on which the project exists and holds a timeline whose stored
    state is the JSON text [null]. *)
Definition null_state_timeline : Timeline :=
  {| timeline_name := "show"; timeline_start_frame := 0;
     stored_sync_state := IllTypedState; video_tracks := [];
     audio_tracks := []; timeline_markers := [] |}.

Definition null_state_host : Host := fun _ R c =>
  match c in HostCall R return R with
  | GetResolve => true
  | LoadProject _ => Some {| timelines := [null_state_timeline] |}
  | CloseProject _ => tt
  | DeleteProject _ => tt
  | CreateProject _ => Some {| timelines := [] |}
  | SetSetting _ _ => true
  | ConfirmAsk => false
  | CreateEmptyTimeline _ => None
  | ImportMedia _ => []
  | SetMetadata _ _ _ => true
  | AppendToTimeline _ _ => true
  | DeleteMarkerAtFrame _ => true
  | AddMarker _ _ => true
  | TimelineSetSetting _ _ => true
  | SetCurrentTimeline _ => true
  end.

(** ** The timeline a run leaves behind

    [_add_elements_to_timeline] places a clip with
    [AppendToTimeline([clip_info])] and sets no marker on the timeline
    item; the identifier is written only as metadata of the media pool
    item.  [_extract_beatspine_uid] looks for the identifier in the
    markers of the timeline item. *)

(** No marker of the item starts with [beatspine:]. *)
Definition untagged (item : TimelineItem) : Prop :=
  Forall (fun fm => String.prefix managed_prefix (custom_data_of fm.2) = false)
    (item_markers item).

(** A clip as [AppendToTimeline] places it: no marker on it. *)
Definition appended_item (name : string) (start len : Z) : TimelineItem :=
  {| item_name := name; item_markers := []; item_start := start;
     item_duration := len |}.

(** The timeline after a first run for [steady_project]: the two clips
    at their target frames, the two beat markers, and the stored state
    listing both identifiers. *)
Definition first_run_timeline : Timeline :=
  {| timeline_name := "show"; timeline_start_frame := 0;
     stored_sync_state := StoredSyncState (state_of {["A"; "B"]});
     video_tracks := [[appended_item "A" 0 30; appended_item "B" 30 30]];
     audio_tracks := [];
     timeline_markers := [(0, beat_marker 0); (30, beat_marker 1)] |}.

(** * Properties *)

(** ** Floats *)

Lemma pow2_pos (k : Z) : 0 <= k -> 0 < 2 ^ k.
Proof. intros. by apply Z.pow_pos_nonneg. Qed.

Lemma pow2_succ (k : Z) : 0 <= k -> 2 ^ (k + 1) = 2 * 2 ^ k.
Proof. intros. rewrite Z.pow_add_r by lia. lia. Qed.

Lemma Zlog2_bounds (a : Z) : 0 < a -> 2 ^ Z.log2 a <= a < 2 * 2 ^ Z.log2 a.
Proof.
  intros Ha. pose proof (Z.log2_spec a Ha) as [? ?].
  pose proof (Z.log2_nonneg a). rewrite <- pow2_succ by done.
  replace (Z.log2 a + 1) with (Z.succ (Z.log2 a)) by lia. done.
Qed.

Lemma ratio_log2_spec (a b : Z) :
  0 < a -> 0 < b ->
  let l := ratio_log2 a b in
  b * 2 ^ Z.max 0 l <= a * 2 ^ Z.max 0 (- l) < 2 * (b * 2 ^ Z.max 0 l).
Proof.
  intros Ha Hb. unfold ratio_log2.
  pose proof (Zlog2_bounds a Ha) as [Ha1 Ha2].
  pose proof (Zlog2_bounds b Hb) as [Hb1 Hb2].
  pose proof (Z.log2_nonneg a) as Hla. pose proof (Z.log2_nonneg b) as Hlb.
  set (la := Z.log2 a) in *. set (lb := Z.log2 b) in *.
  set (k := la - lb).
  destruct (Z.leb_spec (b * 2 ^ Z.max 0 k) (a * 2 ^ Z.max 0 (- k))) as [Ht|Ht];
    cbv zeta.
  - split; [done|].
    destruct (Z.le_gt_cases 0 k) as [Hk|Hk].
    + rewrite (Z.max_l 0 (- k)), (Z.max_r 0 k) by lia.
      assert (2 ^ la = 2 ^ lb * 2 ^ k) as Hpow.
      { rewrite <- Z.pow_add_r by lia. f_equal. unfold k. lia. }
      pose proof (pow2_pos k Hk). nia.
    + rewrite (Z.max_r 0 (- k)), (Z.max_l 0 k) by lia.
      assert (2 ^ lb = 2 ^ la * 2 ^ (- k)) as Hpow.
      { rewrite <- Z.pow_add_r by lia. f_equal. unfold k. lia. }
      pose proof (pow2_pos (- k) ltac:(lia)). nia.
  - destruct (Z.le_gt_cases 1 k) as [Hk|Hk].
    + rewrite (Z.max_l 0 (- k)), (Z.max_r 0 k) in Ht by lia.
      rewrite (Z.max_l 0 (- (k - 1))), (Z.max_r 0 (k - 1)) by lia.
      assert (2 ^ k = 2 * 2 ^ (k - 1)) as Hk2.
      { rewrite <- pow2_succ by lia. f_equal. lia. }
      assert (2 ^ la = 2 ^ lb * 2 ^ k) as Hpow.
      { rewrite <- Z.pow_add_r by lia. f_equal. unfold k. lia. }
      pose proof (pow2_pos (k - 1) ltac:(lia)). nia.
    + rewrite (Z.max_r 0 (- k)), (Z.max_l 0 k) in Ht by lia.
      rewrite (Z.max_r 0 (- (k - 1))), (Z.max_l 0 (k - 1)) by lia.
      assert (2 ^ (- (k - 1)) = 2 * 2 ^ (- k)) as Hk2.
      { rewrite <- pow2_succ by lia. f_equal. lia. }
      assert (2 ^ lb = 2 ^ la * 2 ^ (- k)) as Hpow.
      { rewrite <- Z.pow_add_r by lia. f_equal. unfold k. lia. }
      pose proof (pow2_pos (- k) ltac:(lia)). nia.
Qed.

(** Rounding a ratio below [2^53]: the result is [m / s] for a power of
    two [s], the scaled ratio [a * s / b] lies between [2^52] and [2^53],
    and [m] is an integer nearest to it. *)
Lemma round_positive_small (a b : Z) :
  0 < a -> 0 < b -> a < 2 ^ 53 * b ->
  let f := round_positive a b in
  let s := fden f in
  fnum f = mantissa f
  /\ (exists j, 0 <= j /\ s = 2 ^ j)
  /\ 2 ^ 52 * b <= a * s < 2 ^ 53 * b
  /\ b * (2 * mantissa f - 1) <= 2 * (a * s) <= b * (2 * mantissa f + 1).
Proof.
  intros Ha Hb Hsmall.
  pose proof (ratio_log2_spec a b Ha Hb) as Hl. cbv zeta in Hl.
  unfold round_positive, fnum, fden. cbv zeta. simpl.
  set (l := ratio_log2 a b) in *.
  assert (l <= 52) as Hl52.
  { destruct (Z.le_gt_cases l 52) as [|Hgt]; [done|exfalso].
    rewrite (Z.max_r 0 l), (Z.max_l 0 (- l)) in Hl by lia.
    assert (2 ^ l = 2 ^ 53 * 2 ^ (l - 53)) as Hpow.
    { rewrite <- Z.pow_add_r by lia. f_equal. lia. }
    pose proof (pow2_pos (l - 53) ltac:(lia)). nia. }
  rewrite (Z.max_l 0 (l - 52)), (Z.max_r 0 (- (l - 52))) by lia.
  rewrite Z.pow_0_r, !Z.mul_1_r.
  set (s := 2 ^ (- (l - 52))).
  assert (0 < s) as Hs by (apply pow2_pos; lia).
  assert (2 ^ 52 * b <= a * s < 2 ^ 53 * b) as Hrange.
  { destruct (Z.le_gt_cases 0 l) as [Hl0|Hl0].
    - rewrite (Z.max_r 0 l), (Z.max_l 0 (- l)) in Hl by lia.
      assert (2 ^ 52 = 2 ^ l * s) as Hpow.
      { unfold s. rewrite <- Z.pow_add_r by lia. f_equal. lia. }
      rewrite Z.pow_0_r, Z.mul_1_r in Hl.
      change (2 ^ 53) with (2 * 2 ^ 52). rewrite Hpow.
      pose proof (pow2_pos l Hl0). nia.
    - rewrite (Z.max_l 0 l), (Z.max_r 0 (- l)) in Hl by lia.
      assert (s = 2 ^ 52 * 2 ^ (- l)) as Hpow.
      { unfold s. rewrite <- Z.pow_add_r by lia. f_equal. lia. }
      rewrite Z.pow_0_r, Z.mul_1_r in Hl.
      change (2 ^ 53) with (2 * 2 ^ 52). rewrite Hpow.
      pose proof (pow2_pos (- l) ltac:(lia)). nia. }
  split; [done|]. split; [exists (- (l - 52)); split; [lia|done]|].
  split; [exact Hrange|].
  pose proof (Z.div_mod (a * s) b ltac:(lia)) as Hdm.
  pose proof (Z.mod_pos_bound (a * s) b Hb) as Hr.
  set (q := a * s / b) in *. set (r := (a * s) mod b) in *.
  destruct (Z.ltb_spec (2 * r) b); [nia|].
  destruct (Z.ltb_spec b (2 * r)); [nia|].
  destruct (Z.even q); nia.
Qed.

Lemma pow2_mod3 (j : Z) : 0 <= j -> 2 ^ j mod 3 = 1 \/ 2 ^ j mod 3 = 2.
Proof.
  revert j. apply natlike_ind; [by left|].
  intros j Hj IH. rewrite Z.pow_succ_r by done.
  rewrite Z.mul_mod by lia. destruct IH as [-> | ->]; [by right|by left].
Qed.

Lemma int_of_float_nonneg (x : pyfloat) (Q : Z) :
  0 < fden x -> Q * fden x <= fnum x < (Q + 1) * fden x -> 0 <= Q ->
  int_of_float x = Q.
Proof.
  intros Hd [Hlo Hhi] HQ. unfold int_of_float.
  rewrite Z.quot_div_nonneg by nia.
  symmetry. apply (Z.div_unique_pos _ _ Q (fnum x - Q * fden x)); lia.
Qed.

(** The float of a whole number of microseconds below [2^53], against
    whole numbers of seconds. *)
Lemma total_seconds_small (N : Z) :
  0 < N < 2 ^ 53 ->
  let x := total_seconds N in
  (exists j, 0 <= j /\ fden x = 2 ^ j)
  /\ 0 < fnum x <= 2 ^ 53
  /\ (forall K, K * 1000000 <= N -> K * fden x <= fnum x)
  /\ (forall K, N < K * 1000000 -> fnum x < K * fden x).
Proof.
  intros [HN0 HN]. unfold total_seconds, true_divide, round_ratio.
  change (1000000 <? 0) with false. cbv iota beta.
  destruct (Z.eqb_spec N 0); [lia|]. destruct (Z.ltb_spec 0 N); [|lia].
  destruct (round_positive_small N 1000000 HN0 ltac:(lia) ltac:(lia))
    as (Hnum & Hpow & Hrange & Hnear).
  set (x := round_positive N 1000000) in *.
  rewrite Hnum. set (m := mantissa x) in *. set (s := fden x) in *.
  assert (0 < s) as Hs by (destruct Hpow as (j & ? & ->); by apply pow2_pos).
  assert (1000000 < 2 * s) as Hfine by nia.
  split; [done|]. split; [nia|]. split.
  - intros K HK. assert (K * 1000000 * s <= N * s) by nia. nia.
  - intros K HK. assert ((N + 1) * s <= K * 1000000 * s) by nia. nia.
Qed.

Lemma total_seconds_zero : total_seconds 0 = {| mantissa := 0; exponent := 0 |}.
Proof. reflexivity. Qed.

(** [int(delta)] on a span below [2^53] microseconds. *)
Lemma seconds_truncate (N : Z) :
  0 <= N < 2 ^ 53 -> int_of_float (total_seconds N) = N / 1000000.
Proof.
  intros [HN0 HN]. destruct (Z.eq_dec N 0) as [->|Hne]; [reflexivity|].
  destruct (total_seconds_small N ltac:(lia)) as (Hpow & Hm & Hlo & Hhi).
  assert (0 < fden (total_seconds N)) as Hs
    by (destruct Hpow as (j & ? & ->); by apply pow2_pos).
  pose proof (Z.div_mod N 1000000 ltac:(lia)) as Hdm.
  pose proof (Z.mod_pos_bound N 1000000 ltac:(lia)) as Hr.
  apply int_of_float_nonneg; [done| |apply Z.div_pos; lia].
  split; [apply Hlo|apply Hhi]; lia.
Qed.

(** [int(delta / u)] on a span below [2^53] microseconds, for a divisor
    that is the float of a whole number [U] of seconds, [U] a multiple of
    three. *)
Lemma units_truncate (N U : Z) (y : pyfloat) :
  0 <= N < 2 ^ 53 -> 0 < U -> U mod 3 = 0 ->
  0 < fden y -> fnum y = U * fden y ->
  int_of_float (fdiv (total_seconds N) y) = N / (1000000 * U).
Proof.
  intros [HN0 HN] HU HU3 Hc Hy.
  destruct (Z.eq_dec N 0) as [->|Hne].
  { rewrite total_seconds_zero. unfold fdiv, round_ratio.
    change (fnum {| mantissa := 0; exponent := 0 |}) with 0.
    rewrite Z.mul_0_l. simpl. by destruct (_ <? 0). }
  destruct (total_seconds_small N ltac:(lia)) as (Hpow1 & Hm1 & Hlo & Hhi).
  set (x := total_seconds N) in *.
  set (m1 := fnum x) in *. set (s1 := fden x) in *. set (c := fden y) in *.
  destruct Hpow1 as (j1 & Hj1 & Hs1).
  assert (0 < s1) as Hs1pos by (rewrite Hs1; by apply pow2_pos).
  assert (3 <= U) as HU3'.
  { pose proof (Z.div_mod U 3 ltac:(lia)). lia. }
  set (Q := N / (1000000 * U)).
  pose proof (Z.div_mod N (1000000 * U) ltac:(lia)) as Hdm.
  pose proof (Z.mod_pos_bound N (1000000 * U) ltac:(lia)) as Hr.
  fold Q in Hdm.
  assert (0 <= Q) as HQ by (apply Z.div_pos; lia).
  assert (Q * U * s1 <= m1) as Hlo1 by (apply Hlo; lia).
  assert (m1 < (Q + 1) * U * s1) as Hhi1 by (apply Hhi; lia).
  unfold fdiv, round_ratio. fold m1 s1 c. rewrite Hy.
  set (a := m1 * c). set (b := s1 * (U * c)).
  assert (0 < a) as Ha by nia. assert (0 < b) as Hb by nia.
  destruct (Z.ltb_spec b 0); [lia|].
  destruct (Z.eqb_spec a 0); [lia|]. destruct (Z.ltb_spec 0 a); [|lia].
  assert (a < 2 ^ 53 * b) as Hsmall.
  { unfold a, b. assert (m1 < 2 ^ 53 * (s1 * U)) by nia. nia. }
  destruct (round_positive_small a b Ha Hb Hsmall)
    as (Hnum & (j2 & Hj2 & Hs2) & Hrange & Hnear).
  set (f := round_positive a b) in *.
  set (m2 := mantissa f) in *. set (s2 := fden f) in *.
  assert (0 < s2) as Hs2pos by (rewrite Hs2; by apply pow2_pos).
  apply int_of_float_nonneg; [done| |done]. rewrite Hnum. fold m2 s2.
  assert (Q * s2 * b <= a * s2) as Hlo2.
  { unfold a, b. assert (Q * U * s1 * (c * s2) <= m1 * (c * s2)) by nia. nia. }
  assert (a * s2 + c * s2 <= (Q + 1) * s2 * b) as Hhi2.
  { unfold a, b.
    assert ((m1 + 1) * (c * s2) <= (Q + 1) * U * s1 * (c * s2)) by nia. nia. }
  split; [nia|].
  destruct (Z.lt_ge_cases m2 ((Q + 1) * s2)) as [|Hge]; [done|exfalso].
  assert (b * (2 * ((Q + 1) * s2) - 1) <= b * (2 * m2 - 1)) as Hmono by nia.
  assert (2 * (c * s2) <= b) as Hwide by nia.
  assert (2 ^ 52 * b <= 2 ^ 53 * (c * s2)) as Hnarrow.
  { assert (a * s2 <= 2 ^ 53 * (c * s2)) by (unfold a; nia). lia. }
  assert (b = 2 * (c * s2)) as Heq by lia.
  assert (s1 * U = 2 * s2) as Heq' by (unfold b in Heq; nia).
  assert ((s1 * U) mod 3 = 0) as H3.
  { rewrite Z.mul_mod, HU3, Z.mul_0_r by lia. done. }
  rewrite Heq', Hs2, <- Z.pow_succ_r in H3 by done.
  destruct (pow2_mod3 (Z.succ j2) ltac:(lia)); lia.
Qed.

Lemma fden_pos (x : pyfloat) : 0 < fden x.
Proof. unfold fden. apply pow2_pos. lia. Qed.

Lemma round_positive_pos (a b : Z) :
  0 < a -> 0 < b -> 0 < mantissa (round_positive a b).
Proof.
  intros Ha Hb. pose proof (ratio_log2_spec a b Ha Hb) as [Hl _].
  cbv zeta in Hl. unfold round_positive. cbv zeta. simpl.
  set (l := ratio_log2 a b) in *. set (e := l - 52).
  set (n := a * 2 ^ Z.max 0 (- e)). set (d := b * 2 ^ Z.max 0 e).
  assert (0 < d) as Hd by (unfold d; pose proof (pow2_pos (Z.max 0 e)); nia).
  assert (d <= n) as Hdn.
  { unfold d, n, e.
    destruct (Z.le_gt_cases 52 l) as [Hl52|Hl52].
    - rewrite (Z.max_r 0 (l - 52)), (Z.max_l 0 (- (l - 52))) by lia.
      rewrite (Z.max_r 0 l), (Z.max_l 0 (- l)) in Hl by lia.
      assert (2 ^ l = 2 ^ 52 * 2 ^ (l - 52)) as Hpow.
      { rewrite <- Z.pow_add_r by lia. f_equal. lia. }
      pose proof (pow2_pos (l - 52) ltac:(lia)).
      rewrite Z.pow_0_r, Z.mul_1_r in *. nia.
    - rewrite (Z.max_l 0 (l - 52)), (Z.max_r 0 (- (l - 52))) by lia.
      rewrite Z.pow_0_r, Z.mul_1_r.
      destruct (Z.le_gt_cases 0 l) as [Hl0|Hl0].
      + rewrite (Z.max_r 0 l), (Z.max_l 0 (- l)) in Hl by lia.
        rewrite Z.pow_0_r, Z.mul_1_r in Hl.
        pose proof (pow2_pos l Hl0). pose proof (pow2_pos (- (l - 52)) ltac:(lia)).
        nia.
      + rewrite (Z.max_l 0 l), (Z.max_r 0 (- l)) in Hl by lia.
        rewrite Z.pow_0_r, Z.mul_1_r in Hl.
        assert (2 ^ (- (l - 52)) = 2 ^ 52 * 2 ^ (- l)) as Hpow.
        { rewrite <- Z.pow_add_r by lia. f_equal. lia. }
        pose proof (pow2_pos (- l) ltac:(lia)). nia. }
  assert (1 <= n / d) as Hq by (apply Z.div_le_lower_bound; lia).
  destruct (_ <? _); [lia|]. destruct (_ <? _); [lia|].
  destruct (Z.even _); lia.
Qed.

(** The sign of a rounded ratio is the sign of the ratio. *)
Lemma round_ratio_sign (a b : Z) :
  0 < b ->
  (0 <= a -> 0 <= mantissa (round_ratio a b))
  /\ (0 < a -> 0 < mantissa (round_ratio a b)).
Proof.
  intros Hb. unfold round_ratio. destruct (Z.ltb_spec b 0); [lia|].
  destruct (Z.eqb_spec a 0) as [->|Hne]; [split; [done|lia]|].
  destruct (Z.ltb_spec 0 a) as [Ha|Ha]; [|split; lia].
  pose proof (round_positive_pos a b Ha Hb). split; lia.
Qed.

Lemma fnum_sign (x : pyfloat) :
  (0 <= mantissa x -> 0 <= fnum x) /\ (0 < mantissa x -> 0 < fnum x).
Proof.
  unfold fnum. pose proof (pow2_pos (Z.max 0 (exponent x)) ltac:(lia)).
  split; nia.
Qed.

Lemma int_of_float_sign (x : pyfloat) : 0 <= mantissa x -> 0 <= int_of_float x.
Proof.
  intros Hm. unfold int_of_float. apply Z.quot_pos; [by apply fnum_sign|].
  pose proof (fden_pos x). lia.
Qed.

(** [abs] of the seconds of a difference is the seconds of its absolute
    value. *)
Lemma fabs_total_seconds (N : Z) :
  fabs (total_seconds N) = total_seconds (Z.abs N).
Proof.
  unfold total_seconds, true_divide, round_ratio.
  change (1000000 <? 0) with false. cbv iota beta.
  destruct (Z.eqb_spec N 0) as [->|Hne]; [reflexivity|].
  destruct (Z.eqb_spec (Z.abs N) 0); [lia|].
  destruct (Z.ltb_spec 0 (Z.abs N)); [|lia].
  destruct (Z.ltb_spec 0 N) as [Hpos|Hneg].
  - rewrite (Z.abs_eq N) by lia.
    pose proof (round_positive_pos N 1000000 Hpos ltac:(lia)).
    unfold fabs. destruct (round_positive N 1000000) as [m e]. simpl in *.
    f_equal. lia.
  - replace (Z.abs N) with (- N) by lia.
    pose proof (round_positive_pos (- N) 1000000 ltac:(lia) ltac:(lia)).
    unfold fabs, fneg. destruct (round_positive (- N) 1000000) as [m e].
    simpl in *. f_equal. lia.
Qed.

(** Some values, with the floats Python prints for them: [1 / 10] is
    [0x1.999999999999ap-4], [30.44] is [0x1.e70a3d70a3d71p+4], the
    seconds of 75 microseconds are [0x1.3a92a30553261p-14], and
    [7.5e-05 / 0.0001] is [0.7499999999999999], so that three quarters of
    the way through four intervals is still in the third. *)
Example binary64_values :
  true_divide 1 10 = {| mantissa := 7205759403792794; exponent := -56 |}
  /\ float_literal 3044 2
     = {| mantissa := 8568098291072369; exponent := -48 |}
  /\ total_seconds 75 = {| mantissa := 5534023222112865; exponent := -66 |}
  /\ fdiv (total_seconds 75) (total_seconds 100)
     = {| mantissa := 6755399441055743; exponent := -53 |}
  /\ int_of_float
       (fmul (fdiv (total_seconds 75) (total_seconds 100)) (float_of_int 4))
     = 2
  /\ fmul (float_of_int 86400) (float_literal 3044 2)
     = {| mantissa := 5647916353978368; exponent := -31 |}.
Proof. split_and!; vm_compute; reflexivity. Qed.

(** On spans below [2^53] microseconds, some 285 years, the float
    computation of the time difference is the exact quotient, truncated. *)
Lemma calculate_time_delta_exact (date1 date2 : datetime) (u : TimeUnit) :
  Z.abs (date2 - date1) < 2 ^ 53 ->
  calculate_time_delta date1 date2 u
  = Z.abs (date2 - date1) / unit_microseconds u.
Proof.
  intros Hsmall. unfold calculate_time_delta. cbv zeta.
  rewrite fabs_total_seconds.
  assert (0 <= Z.abs (date2 - date1) < 2 ^ 53) as HN by lia.
  destruct u.
  - by apply seconds_truncate.
  - by apply (units_truncate _ 60).
  - by apply (units_truncate _ 3600).
  - by apply (units_truncate _ 86400).
  - by apply (units_truncate _ 604800).
  - by apply (units_truncate _ 2630016).
  - by apply (units_truncate _ 31557600).
Qed.

Lemma calculate_time_delta_sym (date1 date2 : datetime) (u : TimeUnit) :
  calculate_time_delta date1 date2 u = calculate_time_delta date2 date1 u.
Proof.
  unfold calculate_time_delta. cbv zeta. rewrite !fabs_total_seconds.
  by replace (Z.abs (date1 - date2)) with (Z.abs (date2 - date1)) by lia.
Qed.


(** ** The Python runtime pieces *)

Lemma bind_Returned {A B} (m : outcome A) (f : A -> outcome B) (b : B) :
  m ≫= f = Returned b -> exists a, m = Returned a /\ f a = Returned b.
Proof. destruct m as [a|e]; simpl; [eauto | discriminate]. Qed.

Lemma for_each_invariant {S A} (P : S -> Prop) (body : S -> A -> outcome S) l :
  (forall st x st', x ∈ l -> P st -> body st x = Returned st' -> P st') ->
  forall st st', P st -> for_each body st l = Returned st' -> P st'.
Proof.
  induction l as [|x l IH]; intros Hbody st st' HP Hrun; simpl in Hrun.
  - congruence.
  - destruct (body st x) as [st1|e] eqn:Hx; [|discriminate].
    eapply IH; [| |exact Hrun].
    + intros ? ? ? ?. apply Hbody. by right.
    + eapply Hbody; [by left|done|done].
Qed.

Lemma sorted_insert_Permutation {A} (lt : A -> A -> bool) x l :
  sorted_insert lt x l ≡ₚ x :: l.
Proof.
  induction l as [|y l IH]; simpl; [done|].
  destruct (lt y x); [|done].
  rewrite IH. apply Permutation_swap.
Qed.

Lemma sorted_Permutation {A} (lt : A -> A -> bool) (l : list A) :
  sorted lt l ≡ₚ l.
Proof.
  induction l as [|x l IH]; simpl; [done|].
  unfold sorted in *. simpl. rewrite sorted_insert_Permutation. by rewrite IH.
Qed.

Lemma elem_of_sorted {A} (lt : A -> A -> bool) (l : list A) x :
  x ∈ sorted lt l <-> x ∈ l.
Proof. by rewrite sorted_Permutation. Qed.

Lemma py_index_lt len i n : py_index len i = Some n -> (Z.of_nat n < len)%Z.
Proof.
  unfold py_index. repeat case_bool_decide; intros; simplify_eq; lia.
Qed.

Lemma py_setitem_length {A} (l l' : list A) i x :
  py_setitem l i x = Returned l' -> length l' = length l.
Proof.
  unfold py_setitem. destruct (py_index _ i); intros; simplify_eq.
  by rewrite length_insert.
Qed.

Lemma py_getitem_after_setitem {A} (l l' : list A) i x :
  py_setitem l i x = Returned l' -> py_getitem l' i = Returned x.
Proof.
  unfold py_setitem, py_getitem.
  destruct (py_index _ i) as [n|] eqn:Hn; intros; simplify_eq.
  rewrite length_insert, Hn. simpl.
  apply py_index_lt in Hn.
  rewrite list_lookup_insert_eq; [done | lia].
Qed.

(** Setting a cell to [True] leaves every cell that was [True] so. *)
Lemma py_setitem_true_mono (l l' : list bool) i j :
  py_setitem l i true = Returned l' ->
  py_getitem l j = Returned true -> py_getitem l' j = Returned true.
Proof.
  unfold py_setitem, py_getitem.
  destruct (py_index _ i) as [n|] eqn:Hn; intros ? Hj; simplify_eq.
  rewrite length_insert.
  destruct (py_index _ j) as [m|] eqn:Hm; simpl in *; [|done].
  destruct (decide (n = m)) as [->|Hne].
  - apply py_index_lt in Hm. rewrite list_lookup_insert_eq; [done | lia].
  - by rewrite list_lookup_insert_ne.
Qed.

(** Distinct non-negative subscripts name distinct cells. *)
Lemma py_setitem_other {A} (l l' : list A) i j x :
  0 <= i -> 0 <= j -> i <> j ->
  py_setitem l i x = Returned l' -> py_getitem l' j = py_getitem l j.
Proof.
  unfold py_setitem, py_getitem. intros Hi Hj Hne.
  destruct (py_index _ i) as [n|] eqn:Hn; intros; simplify_eq.
  rewrite length_insert.
  destruct (py_index _ j) as [m|] eqn:Hm; simpl; [|done].
  rewrite list_lookup_insert_ne; [done|].
  unfold py_index in *. repeat case_bool_decide; simplify_eq; lia.
Qed.

Tactic Notation "outcome_inv" hyp(H) "as" ident(a) ident(Ha) :=
  apply bind_Returned in H as (a & Ha & H).
Tactic Notation "outcome_inv" hyp(H) :=
  let a := fresh "a" in
  let Ha := fresh "Ha" in
  apply bind_Returned in H as (a & Ha & H).


(** ** Slot assignment: what both passes preserve *)

Section assignment_facts.
Context (fs : FileSystem).

Lemma occupy_and_place_inv id_method p d b anchored cid st st' :
  occupy_and_place fs id_method p d b anchored cid st = Returned st' ->
  py_setitem (beat_occupied st) b true = Returned (beat_occupied st')
  /\ placements st' =
       placements st ++ [new_placement fs id_method p d b anchored cid]
  /\ warnings st' = warnings st.
Proof.
  unfold occupy_and_place. intros H. outcome_inv H. by simplify_eq.
Qed.

(** A slot that reads free holds no placement. *)
Lemma free_slot_unused st b :
  slots_marked st -> py_getitem (beat_occupied st) b = Returned false ->
  forall p, p ∈ placements st -> beat_index p <> b.
Proof.
  intros Hm Hb p Hp Heq. specialize (Hm p Hp). congruence.
Qed.

Lemma occupy_and_place_marked id_method p d b anchored cid st st' :
  slots_marked st ->
  occupy_and_place fs id_method p d b anchored cid st = Returned st' ->
  slots_marked st'.
Proof.
  intros Hm H. apply occupy_and_place_inv in H as (Hset & Hpl & _).
  intros q. rewrite Hpl, elem_of_app, list_elem_of_singleton.
  intros [Hq | ->].
  - eapply py_setitem_true_mono; eauto.
  - simpl. eapply py_getitem_after_setitem; eauto.
Qed.

Lemma initial_state_marked beats : slots_marked (initial_state beats).
Proof. intros p Hp. simpl in Hp. by apply elem_of_nil in Hp. Qed.

(** *** The pass without clustering *)

Lemma occupy_and_place_distinct id_method p d b anchored cid st st' :
  distinct_slots st ->
  py_getitem (beat_occupied st) b = Returned false ->
  occupy_and_place fs id_method p d b anchored cid st = Returned st' ->
  distinct_slots st'.
Proof.
  intros [Hm Hnd] Hfree H. split; [by eapply occupy_and_place_marked|].
  apply occupy_and_place_inv in H as (_ & Hpl & _).
  rewrite Hpl, map_app. simpl.
  apply NoDup_app. split_and!; [done| |apply NoDup_singleton].
  intros x Hx Hb. apply list_elem_of_singleton in Hb as ->.
  apply list_elem_of_fmap in Hx as (q & Hq1 & Hq2).
  by eapply free_slot_unused.
Qed.

Lemma place_anchored_photo_distinct beats so eo id_method st ph st' :
  distinct_slots st ->
  place_anchored_photo fs beats so eo id_method st ph = Returned st' ->
  distinct_slots st'.
Proof.
  unfold place_anchored_photo. intros Hinv H.
  destruct (photo_anchor ph) as [anchor|]; [|by simplify_eq].
  destruct (in_effective_range _ _ _ _); [|by simplify_eq].
  outcome_inv H. destruct a; [by simplify_eq|].
  by eapply occupy_and_place_distinct.
Qed.

Lemma distribute_photo_distinct beats sd ts so eo n id_method st pd st' :
  distinct_slots st ->
  distribute_photo fs beats sd ts so eo n id_method st pd = Returned st' ->
  distinct_slots st'.
Proof.
  unfold distribute_photo. intros Hinv H.
  outcome_inv H. outcome_inv H. destruct a0; [by simplify_eq|].
  by eapply occupy_and_place_distinct.
Qed.

(** *** The pass over clusters *)

Lemma one_cluster_per_slot_app pls new b cid :
  one_cluster_per_slot pls ->
  (forall p, p ∈ pls -> beat_index p <> b) ->
  (forall p, p ∈ new -> beat_index p = b /\ cluster_id p = cid) ->
  one_cluster_per_slot (pls ++ new).
Proof.
  intros Hold Hfresh Hnew p q.
  rewrite !elem_of_app. intros [Hp|Hp] [Hq|Hq] Heq.
  - by apply Hold.
  - destruct (Hnew q Hq) as [Hb _]. exfalso. apply (Hfresh p Hp). congruence.
  - destruct (Hnew p Hp) as [Hb _]. exfalso. apply (Hfresh q Hq). congruence.
  - destruct (Hnew p Hp) as [_ ->]. by destruct (Hnew q Hq) as [_ ->].
Qed.

Lemma place_anchored_cluster_photo_inv beats so eo id_method idx st ph st' :
  cluster_slots st ->
  place_anchored_cluster_photo fs beats so eo id_method idx st ph = Returned st' ->
  cluster_slots st'.
Proof.
  unfold place_anchored_cluster_photo. intros [Hm Hone] H.
  destruct (photo_anchor ph) as [anchor|]; [|by simplify_eq].
  destruct (in_effective_range _ _ _ _); [|by simplify_eq].
  outcome_inv H. destruct a; [by simplify_eq|].
  split; [by eapply occupy_and_place_marked|].
  apply occupy_and_place_inv in H as (_ & Hpl & _). rewrite Hpl.
  eapply one_cluster_per_slot_app; [done|by eapply free_slot_unused|].
  intros p Hp. by apply list_elem_of_singleton in Hp as ->.
Qed.

(** The members of a cluster are appended at the assigned slot, under
    the index of the cluster, and never as anchored placements. *)
Lemma place_cluster_members_inv id_method idx b members st :
  let st' := foldl (place_cluster_member fs id_method idx b) st members in
  beat_occupied st' = beat_occupied st
  /\ warnings st' = warnings st
  /\ exists new, placements st' = placements st ++ new
       /\ forall p, p ∈ new ->
            beat_index p = b /\ cluster_id p = Some idx /\ is_anchored p = false.
Proof.
  revert st. induction members as [|ph members IH]; intros st; simpl.
  - split_and!; [done..|]. exists []. rewrite app_nil_r. split; [done|].
    intros p Hp. by apply elem_of_nil in Hp.
  - destruct (IH (place_cluster_member fs id_method idx b st ph))
      as (Hocc & Hw & new & Hpl & Hnew).
    rewrite Hocc, Hw, Hpl. unfold place_cluster_member.
    destruct (existsb _ _); [by eauto|]. simpl.
    split_and!; [done..|].
    eexists (_ :: new). rewrite <- app_assoc. split; [done|].
    intros p Hp. apply elem_of_cons in Hp as [->|Hp]; [done|by apply Hnew].
Qed.

Lemma distribute_cluster_inv beats sd ts so eo n id_method st ic st' :
  cluster_slots st ->
  distribute_cluster fs beats sd ts so eo n id_method st ic = Returned st' ->
  cluster_slots st'.
Proof.
  unfold distribute_cluster. intros [Hm Hone] H.
  outcome_inv H. outcome_inv H. outcome_inv H.
  destruct a1; [by simplify_eq|]. outcome_inv H. simplify_eq.
  match goal with |- cluster_slots (foldl _ ?s _) => set (st0 := s) end.
  destruct (place_cluster_members_inv id_method ic.1 a0 (photos ic.2) st0)
    as (Hocc & _ & new & Hpl & Hnew).
  split.
  - intros p. rewrite Hpl, Hocc, elem_of_app. simpl. intros [Hp|Hp].
    + eapply py_setitem_true_mono; eauto.
    + destruct (Hnew p Hp) as [-> _]. by eapply py_getitem_after_setitem.
  - rewrite Hpl. simpl.
    eapply one_cluster_per_slot_app; [done|by eapply free_slot_unused|].
    intros p Hp. by destruct (Hnew p Hp) as (? & ? & _).
Qed.
End assignment_facts.

(** C1 (uniqueness of slot occupation).  In every run that returns, the
    pass without clustering gives no two placements the same beat index,
    and the pass over clusters gives no two distinct clusters the same
    beat index: placements that share a beat index carry one cluster
    index. *)
Theorem slot_occupation_unique (fs : FileSystem) (beats : list BeatInfo)
    (start_date end_date : datetime) (start_offset end_offset : Z)
    (id_method : string) :
  (forall photos pls ws,
      map_photos_to_beats_original fs photos beats start_date end_date
        start_offset end_offset id_method = Returned (pls, ws) ->
      NoDup (map beat_index pls))
  /\ (forall clusters pls ws,
        map_photo_clusters_to_beats fs clusters beats start_date end_date
          start_offset end_offset id_method = Returned (pls, ws) ->
        forall p q, p ∈ pls -> q ∈ pls ->
          beat_index p = beat_index q -> cluster_id p = cluster_id q).
Proof.
  split.
  - intros photos pls ws. unfold map_photos_to_beats_original.
    destruct (_ <=? 0); [discriminate|].
    destruct (_ <? _); [discriminate|].
    intros H. outcome_inv H as st1 Hpass1. outcome_inv H as st2 Hpass2.
    simplify_eq. rewrite sorted_Permutation.
    assert (distinct_slots st1) as Hst1.
    { eapply for_each_invariant; [| |exact Hpass1].
      - intros ? ? ? _. apply place_anchored_photo_distinct.
      - split; [apply initial_state_marked|constructor]. }
    assert (distinct_slots st2) as [_ ?]; [|done].
    eapply for_each_invariant; [|exact Hst1|exact Hpass2].
    intros ? ? ? _. apply distribute_photo_distinct.
  - intros clusters pls ws. unfold map_photo_clusters_to_beats.
    destruct (_ <=? 0); [discriminate|].
    destruct (_ <? _); [discriminate|].
    intros H. outcome_inv H as st1 Hpass1. outcome_inv H as st2 Hpass2.
    simplify_eq. intros p q. rewrite !elem_of_sorted.
    assert (cluster_slots st1) as Hst1.
    { eapply for_each_invariant; [| |exact Hpass1].
      - intros st [i c] st' _ HP. unfold place_anchored_cluster.
        apply for_each_invariant; [|done].
        intros ? ? ? _. apply place_anchored_cluster_photo_inv.
      - split; [apply initial_state_marked|].
        intros ? ? Hp. by apply elem_of_nil in Hp. }
    assert (cluster_slots st2) as [_ Hone]; [|apply Hone].
    eapply for_each_invariant; [|exact Hst1|exact Hpass2].
    intros ? ? ? _. apply distribute_cluster_inv.
Qed.


(** ** Reconciliation plan *)

(** C2 (conservative removal).  The plan removes exactly the identifiers
    that are present and previously managed but no longer targeted; an
    identifier outside the previously managed set is never removed, and
    without a stored state nothing is removed. *)
Theorem removal_is_conservative
    (current_items : gmap string TimelineItem)
    (target_elements : gmap string TimelineElement)
    (stored_state : option SyncState) (project : TimelineProject) :
  let changes :=
    _compute_differential_changes current_items target_elements stored_state
      project in
  let managed : gset string :=
    match stored_state with Some s => managed_asset_uids s | None => ∅ end in
  items_to_remove changes
    = (dom current_items ∩ managed) ∖ dom target_elements
  /\ (forall u, u ∉ managed -> u ∉ items_to_remove changes)
  /\ (stored_state = None -> items_to_remove changes = ∅).
Proof.
  simpl. split_and!.
  - done.
  - intros u Hu. rewrite elem_of_difference, elem_of_intersection. tauto.
  - intros ->. apply set_eq. intros u.
    rewrite elem_of_difference, elem_of_intersection, elem_of_empty. tauto.
Qed.

Lemma removal_is_conservative_witness :
  ("X" ∉ items_to_remove
           (_compute_differential_changes drifted_items
              (target_elements_of steady_project)
              (Some (state_of {["A"; "C"]})) steady_project))
  /\ items_to_remove
       (_compute_differential_changes drifted_items
          (target_elements_of steady_project) None steady_project) = ∅.
Proof.
  pose proof (removal_is_conservative drifted_items
                (target_elements_of steady_project)
                (Some (state_of {["A"; "C"]})) steady_project) as (_ & Hforeign & _).
  pose proof (removal_is_conservative drifted_items
                (target_elements_of steady_project) None steady_project)
    as (_ & _ & Hnone).
  split.
  - apply Hforeign. apply (bool_decide_unpack _). vm_compute. exact I.
  - apply Hnone. reflexivity.
Defined.


Lemma beyond_tolerance_same (f : Z) : beyond_tolerance f f = false.
Proof. unfold beyond_tolerance. rewrite Z.sub_diag. reflexivity. Qed.

Lemma omap_none {A B} (f : A -> option B) (l : list A) :
  (forall x, x ∈ l -> f x = None) -> omap f l = [].
Proof.
  induction l as [|x l IH]; intros Hf; simpl; [done|].
  rewrite (Hf x) by left. apply IH. intros y Hy. apply Hf. by right.
Qed.

(** Whatever the snapshot and the target are, the plan asks for the beat
    markers to be synchronised, so it always counts as having changes. *)
Lemma plan_always_has_changes current_items target_elements stored_state project :
  has_changes
    (_compute_differential_changes current_items target_elements stored_state
       project) = true.
Proof. unfold has_changes. simpl. apply orb_true_r. Qed.

(** ** Reconciliation sessions *)

Lemma run_session_bind {A B} (host : Host) (s : Session A) (f : A -> Session B) tr :
  run_session host (s ≫= f) tr =
  match run_session host s tr with
  | (tr', inr a) => run_session host (f a) tr'
  | (tr', inl e) => (tr', inl e)
  end.
Proof.
  revert tr. induction s as [r|e|R c k IH]; intros tr; simpl; [done..|].
  apply IH.
Qed.

(** Calls already issued stay in the trace. *)
Lemma run_session_keeps {A} (host : Host) (s : Session A) tr i :
  i ∈ tr -> i ∈ (run_session host s tr).1.
Proof.
  revert tr. induction s as [r|e|R c k IH]; intros tr Hi; simpl; [done..|].
  apply IH. apply elem_of_app. by left.
Qed.

Lemma run_session_issues {A R} (host : Host) (c : HostCall R) (k : R -> Session A) tr :
  {| answer_type := R; issued_call := c |} ∈ (run_session host (Call c k) tr).1.
Proof.
  simpl. apply run_session_keeps. apply elem_of_app. right. by left.
Qed.

Lemma run_session_bind_keeps {A B} (host : Host) (s : Session A)
    (f : A -> Session B) tr i :
  i ∈ (run_session host s tr).1 -> i ∈ (run_session host (s ≫= f) tr).1.
Proof.
  rewrite run_session_bind. destruct (run_session host s tr) as [tr' [e|a]]; simpl.
  - done.
  - apply run_session_keeps.
Qed.

Lemma establish_connection_run (host : Host) tr :
  host tr bool GetResolve = true ->
  run_session host _establish_connection tr
  = (tr ++ [{| answer_type := bool; issued_call := GetResolve |}], inr tt).
Proof. intros H. unfold _establish_connection, call. simpl. by rewrite H. Qed.

(** Locating the project either changes the host (creation, or deletion
    and creation) or only loads the existing project. *)
Lemma locate_or_create_project_cases (host : Host) name recreate tr :
  (exists i,
      i ∈ (run_session host (_locate_or_create_project name recreate) tr).1
      /\ issued_mutating i = true)
  \/ (recreate = false /\ exists p,
        run_session host (_locate_or_create_project name recreate) tr
        = (tr ++ [{| answer_type := option Project;
                     issued_call := LoadProject name |}], inr p)).
Proof.
  unfold _locate_or_create_project, call. cbn [mbind session_mbind session_bind].
  cbn [run_session].
  destruct (host tr _ (LoadProject name)) as [p|].
  - destruct recreate; cbn [negb].
    + left. eexists {| issued_call := DeleteProject name |}. split; [|done].
      cbn [session_bind run_session].
      match goal with |- _ ∈ (run_session _ ?s ?t).1 =>
        apply (run_session_keeps host s t) end.
      rewrite !elem_of_app, !list_elem_of_singleton. tauto.
    + right. split; [done|]. by exists p.
  - left. eexists {| issued_call := CreateProject name |}. split; [|done].
    cbn [session_bind]. apply run_session_issues.
Qed.

Lemma assert_setting_issues (host : Host) key value tr :
  {| answer_type := bool; issued_call := SetSetting key value |}
  ∈ (run_session host (assert_setting key value) tr).1.
Proof. unfold assert_setting, call. apply run_session_issues. Qed.

Section sync_facts.
Context (apply_phase :
           Timeline -> TimelineProject -> bool -> option TimelineChanges ->
           Session Datatypes.unit).

(** C4, the defect: a dry run that reaches the host always changes it.
    Once the connection is established, a session started with the
    dry-run option issues a mutating call: it creates the project, or
    deletes and recreates it, or (on an existing project) writes the
    frame-rate settings, before it looks at the dry-run option. *)
Theorem dry_run_mutates_host (host : Host) (project : TimelineProject)
    (force recreate : bool) :
  host [] bool GetResolve = true ->
  exists i, i ∈ calls_of host (sync_project apply_phase project force recreate true)
            /\ issued_mutating i = true.
Proof.
  intros Hconn. unfold calls_of, sync_project.
  rewrite run_session_bind, (establish_connection_run host [] Hconn).
  destruct (locate_or_create_project_cases host (project_name project)
              recreate ([] ++ [{| issued_call := GetResolve |}]))
    as [(i & Hi & Hmut) | (_ & p & Hrun)].
  - exists i. split; [|done]. by apply run_session_bind_keeps.
  - rewrite run_session_bind, Hrun.
    exists {| issued_call :=
                SetSetting "timelineFrameRate" (pretty (frame_rate project)) |}.
    split; [|done].
    apply run_session_bind_keeps, assert_setting_issues.
Qed.

(** What a dry run does keep to: it never enters the apply phase, so the
    session is the same whatever the apply phase is. *)
Lemma dry_run_skips_apply_phase apply_phase' project force recreate :
  sync_project apply_phase project force recreate true
  = sync_project apply_phase' project force recreate true.
Proof. reflexivity. Qed.
End sync_facts.

Lemma dry_run_mutates_host_witness :
  exists i,
    i ∈ calls_of fresh_host (sync_project no_apply steady_project false false true)
    /\ issued_mutating i = true.
Proof.
  apply (dry_run_mutates_host no_apply fresh_host steady_project false false).
  reflexivity.
Defined.

(** The calls of three dry runs: on a host without the project, with
    [recreate] on a host that has it, and on a host that has it. *)
Example dry_run_creates_project :
  call_names
    (calls_of fresh_host (sync_project no_apply steady_project false false true))
  = ["GetResolve"; "LoadProject"; "CreateProject";
     "SetSetting timelineFrameRate";
     "SetSetting timelineFrameRateMismatchBehavior";
     "SetSetting videoMonitorFormat"].
Proof. reflexivity. Qed.

Example dry_run_recreates_project :
  call_names
    (calls_of steady_host (sync_project no_apply steady_project false true true))
  = ["GetResolve"; "LoadProject"; "CloseProject"; "DeleteProject";
     "CreateProject"; "SetSetting timelineFrameRate";
     "SetSetting timelineFrameRateMismatchBehavior";
     "SetSetting videoMonitorFormat"].
Proof. reflexivity. Qed.

Example dry_run_writes_settings :
  call_names
    (calls_of steady_host (sync_project no_apply steady_project false false true))
  = ["GetResolve"; "LoadProject"; "SetSetting timelineFrameRate";
     "SetSetting timelineFrameRateMismatchBehavior";
     "SetSetting videoMonitorFormat"].
Proof. reflexivity. Qed.

(** The operator declining at the conflict gate: the settings were written
    before the question was asked. *)
Example declined_session_wrote_settings :
  run_session edited_host (sync_project no_apply steady_project false false false) []
  = (calls_of edited_host (sync_project no_apply steady_project false false false),
     inr tt)
  /\ call_names
       (calls_of edited_host
          (sync_project no_apply steady_project false false false))
     = ["GetResolve"; "LoadProject"; "SetSetting timelineFrameRate";
        "SetSetting timelineFrameRateMismatchBehavior";
        "SetSetting videoMonitorFormat"; "Confirm.ask"].
Proof. split; reflexivity. Qed.


(** ** Capacity *)

Section capacity.
Context (fs : FileSystem).

(** The capacity check comes before both passes: with a positive time
    span, more clusters (or photos in the date range) than effective
    beats is an immediate error carrying both numbers. *)
Lemma too_many_clusters_fails clusters beats sd ed so eo id_method :
  let n :=
    Z.of_nat (length (py_slice beats so (Z.of_nat (length beats) - eo))) in
  sd < ed -> n < Z.of_nat (length clusters) ->
  map_photo_clusters_to_beats fs clusters beats sd ed so eo id_method
  = Raised (SystemExit (TooManyClusters (Z.of_nat (length clusters)) n)).
Proof.
  intros n Hspan Hcap. unfold map_photo_clusters_to_beats.
  destruct (Z.leb_spec (ed - sd) 0); [lia|].
  fold n. destruct (Z.ltb_spec n (Z.of_nat (length clusters))); [done|lia].
Qed.

Lemma too_many_photos_fails photos beats sd ed so eo id_method :
  let n :=
    Z.of_nat (length (py_slice beats so (Z.of_nat (length beats) - eo))) in
  let found := Z.of_nat (length (List.filter (in_date_range sd ed) photos)) in
  sd < ed -> n < found ->
  map_photos_to_beats_original fs photos beats sd ed so eo id_method
  = Raised (SystemExit (TooManyPhotos found n)).
Proof.
  intros n found Hspan Hcap. unfold map_photos_to_beats_original.
  destruct (Z.leb_spec (ed - sd) 0); [lia|].
  fold n found. destruct (Z.ltb_spec n found); [done|lia].
Qed.
End capacity.

(** Six singleton clusters without pins against five effective beats. *)
Example six_clusters_five_beats :
  map_photo_clusters_to_beats plain_fs (map singleton_cluster six_photos)
    (beat_grid 5) 0 100 0 0 "inode"
  = Raised (SystemExit (TooManyClusters 6 5))
  /\ map_photos_to_beats_original plain_fs six_photos (beat_grid 5) 0 100 0 0
       "inode"
     = Raised (SystemExit (TooManyPhotos 6 5)).
Proof. split; reflexivity. Qed.

(** C5, the defect.  Five photos without pins meet five effective beats,
    so the capacity check passes; four of them prefer beat 0.  The search
    of the fourth tries beats -1, 1, -2, 2, -3 and then gives up at radius
    5, although beat 3 is free: photo ["d"] is dropped without an error.
    The same happens to the fourth of five singleton clusters. *)
Theorem search_gives_up_below_capacity :
  Z.of_nat (length crowded_photos) <= 5
  /\ (exists pls,
        map_photos_to_beats_original plain_fs crowded_photos (beat_grid 5)
          0 100 0 0 "inode" = Returned (pls, [])
        /\ summary pls
           = [("a", 0, false, None); ("b", 1, false, None);
              ("c", 2, false, None); ("e", 4, false, None)])
  /\ (exists pls,
        map_photo_clusters_to_beats plain_fs
          (map singleton_cluster crowded_photos) (beat_grid 5) 0 100 0 0 "inode"
        = Returned (pls, [])
        /\ summary pls
           = [("a", 0, false, Some 0); ("b", 1, false, Some 1);
              ("c", 2, false, Some 2); ("e", 4, false, Some 4)]).
Proof.
  split; [vm_compute; discriminate|].
  split; eexists; (split; [vm_compute; reflexivity|reflexivity]).
Qed.


(** ** Clustering *)

Lemma elem_of_concat {A} (ls : list (list A)) x :
  x ∈ concat ls <-> exists l, x ∈ l /\ l ∈ ls.
Proof.
  induction ls as [|l0 ls IH]; simpl.
  - split; [intros H; by apply elem_of_nil in H|].
    intros (l & _ & H). by apply elem_of_nil in H.
  - rewrite elem_of_app, IH. split.
    + intros [H|(l & Hx & Hl)]; [exists l0|exists l]; split; try done;
        [by left|by right].
    + intros (l & Hx & Hl). apply elem_of_cons in Hl as [->|Hl]; eauto.
Qed.

Lemma minimum_gap_loop_refines time_gap prev rest clusters current :
  current <> [] ->
  map photos (minimum_gap_loop time_gap prev rest clusters current)
  = map photos clusters
    ++ (current ++ (split_at_gaps time_gap prev rest).1)
       :: (split_at_gaps time_gap prev rest).2.
Proof.
  revert prev clusters current.
  induction rest as [|cur rest IH]; intros prev clusters current Hne; simpl.
  - destruct current; [done|]. by rewrite map_app, app_nil_r.
  - unfold gap_between.
    destruct (split_at_gaps time_gap cur rest) as [joining following] eqn:Hs.
    destruct (amount time_gap <=? _); simpl.
    + rewrite IH, Hs by done. simpl.
      by rewrite map_app, app_nil_r, <- app_assoc.
    + rewrite IH, Hs by (by destruct current). simpl.
      by rewrite <- app_assoc.
Qed.

Lemma cluster_photos_by_minimum_gap_refines ps time_gap :
  map photos (cluster_photos_by_minimum_gap ps time_gap)
  = clusters_by_gap time_gap ps.
Proof.
  destruct ps as [|p0 rest]; simpl; [done|].
  rewrite minimum_gap_loop_refines by done.
  by destruct (split_at_gaps time_gap p0 rest).
Qed.

Lemma minimum_gap_loop_dates time_gap prev rest clusters current :
  Forall (fun c => c = make_cluster (photos c)) clusters ->
  Forall (fun c => c = make_cluster (photos c))
    (minimum_gap_loop time_gap prev rest clusters current).
Proof.
  revert prev clusters current.
  induction rest as [|cur rest IH]; intros prev clusters current Hc; simpl.
  - destruct current; [done|]. apply Forall_app. split; [done|].
    by constructor.
  - destruct (amount time_gap <=? _); apply IH; [|done].
    apply Forall_app. split; [done|]. by constructor.
Qed.

(** What [split_at_gaps] guarantees, for the cluster of [prev] and the
    clusters after it. *)
Lemma split_at_gaps_spec time_gap prev rest :
  let joining := (split_at_gaps time_gap prev rest).1 in
  let following := (split_at_gaps time_gap prev rest).2 in
  joining ++ concat following = rest
  /\ Forall (fun g => g <> []) following
  /\ neighbours (fun a b => gap_between time_gap a b < amount time_gap)
       (prev :: joining)
  /\ Forall (neighbours (fun a b => gap_between time_gap a b < amount time_gap))
       following
  /\ neighbours (gap_separates time_gap) ((prev :: joining) :: following).
Proof.
  revert prev. induction rest as [|cur rest IH]; intros prev; simpl.
  - split_and!; done.
  - destruct (IH cur) as (Hcat & Hne & Hin & Hall & Hsep).
    destruct (split_at_gaps time_gap cur rest) as [joining following].
    simpl in *.
    destruct (Z.leb_spec (amount time_gap) (gap_between time_gap prev cur));
      simpl.
    + split_and!; [by rewrite Hcat|by constructor|done|by constructor| |done].
      exists prev, cur. done.
    + split_and!; [by rewrite Hcat|done|lia|done|done|].
      destruct following as [|g following]; [done|].
      destruct Hsep as [(a & b & Ha & Hb & Hab) Hsep]. split; [|done].
      exists a, b. split_and!; [|done..].
      by destruct joining.
Qed.

Lemma neighbours_weaken {A} (R R' : A -> A -> Prop) (l : list A) :
  (forall a b, a ∈ l -> b ∈ l -> R a b -> R' a b) ->
  neighbours R l -> neighbours R' l.
Proof.
  induction l as [|x [|y l] IH]; intros Himpl Hl; simpl; [done..|].
  destruct Hl as [Hxy Hl]. split.
  - apply Himpl; [by left|right; by left|done].
  - apply IH; [|done]. intros a b Ha Hb. apply Himpl; by right.
Qed.

(** The structure of the clusters, in terms of the gap the code
    computes. *)
Lemma minimum_gap_runs (ps : list PhotoMetadata) (time_gap : TimeGap) :
  let clusters := cluster_photos_by_minimum_gap ps time_gap in
  concat (map photos clusters) = ps
  /\ Forall (fun c => photos c <> []) clusters
  /\ Forall (fun c =>
               neighbours
                 (fun a b => gap_between time_gap a b < amount time_gap)
                 (photos c)) clusters
  /\ neighbours (gap_separates time_gap) (map photos clusters)
  /\ Forall (fun c => c = make_cluster (photos c)) clusters.
Proof.
  intros clusters.
  assert (Forall (fun c => c = make_cluster (photos c)) clusters) as Hdates.
  { subst clusters. destruct ps as [|p0 rest]; simpl; [done|].
    by apply minimum_gap_loop_dates. }
  pose proof (cluster_photos_by_minimum_gap_refines ps time_gap) as Href.
  fold clusters in Href.
  assert (concat (map photos clusters) = ps
          /\ Forall (fun g => g <> []) (map photos clusters)
          /\ Forall (neighbours
                       (fun a b => gap_between time_gap a b < amount time_gap))
               (map photos clusters)
          /\ neighbours (gap_separates time_gap) (map photos clusters))
    as (Hcat & Hne & Hin & Hsep).
  { rewrite Href. destruct ps as [|p0 rest]; simpl; [done|].
    destruct (split_at_gaps_spec time_gap p0 rest)
      as (Hcat & Hne & Hin & Hall & Hsep).
    destruct (split_at_gaps time_gap p0 rest) as [joining following];
      simpl in *.
    split_and!; [by rewrite Hcat|by constructor|by constructor|done]. }
  rewrite Forall_forall in Hne, Hin.
  split_and!; [done| | |done|done]; apply Forall_forall; intros c Hc.
  - apply Hne, list_elem_of_fmap. eauto.
  - apply Hin, list_elem_of_fmap. eauto.
Qed.

Lemma gap_between_truncated (time_gap : TimeGap) (ps : list PhotoMetadata) a b :
  within_float_precision ps -> a ∈ ps -> b ∈ ps ->
  gap_between time_gap a b = truncated_gap time_gap a b.
Proof.
  intros Hclose Ha Hb. unfold gap_between, truncated_gap.
  apply calculate_time_delta_exact. by apply Hclose.
Qed.

Lemma last_elem_of {A} (l : list A) x : last l = Some x -> x ∈ l.
Proof.
  intros Hlast. apply last_Some in Hlast as [l' ->].
  apply elem_of_app. right. by left.
Qed.

Lemma head_elem_of {A} (l : list A) x : head l = Some x -> x ∈ l.
Proof. destruct l; intros; simplify_eq/=. by left. Qed.

(** C8 (minimum-gap clustering boundary), for items whose timestamps lie
    less than [2^53] microseconds (some 285 years) apart.  The clusters,
    in order, are the input list cut into non-empty runs.  A new run
    starts exactly at the items whose timestamp is at least the
    configured amount after the timestamp of the item just before them,
    the difference being converted to the configured unit with
    truncation: inside a run every item is less than the amount after its
    predecessor, and the first item of a run is at least the amount after
    the last item of the run before.  Every cluster spans from its
    earliest to its latest date.  Items at 0 s, 10 s and 25 s with a
    minimum gap of 20 seconds form one cluster; at 0 s, 10 s and 30 s the
    third item starts a cluster; at 0 s, 15 s and 30 s there is one
    cluster, the gap being measured from the item before and not from the
    start of the cluster; 19.999999 s count as 19 seconds and 119.999999 s
    as one minute. *)
Theorem minimum_gap_boundary :
  (forall (ps : list PhotoMetadata) (time_gap : TimeGap),
      within_float_precision ps ->
      let clusters := cluster_photos_by_minimum_gap ps time_gap in
      concat (map photos clusters) = ps
      /\ Forall (fun c => photos c <> []) clusters
      /\ Forall (fun c =>
                   neighbours
                     (fun a b => truncated_gap time_gap a b < amount time_gap)
                     (photos c)) clusters
      /\ neighbours (truncated_gap_separates time_gap) (map photos clusters)
      /\ Forall (fun c => c = make_cluster (photos c)) clusters)
  /\ map photos (cluster_photos_by_minimum_gap three_photos gap_20_seconds)
     = [three_photos]
  /\ cluster_paths (cluster_photos_by_minimum_gap photos_0_10_30 gap_20_seconds)
     = [["p0"; "p10"]; ["p30"]]
  /\ cluster_paths (cluster_photos_by_minimum_gap photos_0_15_30 gap_20_seconds)
     = [["p0"; "p15"; "p30"]]
  /\ cluster_paths
       (cluster_photos_by_minimum_gap photos_just_under_20 gap_20_seconds)
     = [["p0"; "p19"]]
  /\ cluster_paths (cluster_photos_by_minimum_gap photos_in_minutes gap_2_minutes)
     = [["p0"; "p119"]; ["p240"]].
Proof.
  split; [|split_and!; vm_compute; reflexivity].
  intros ps time_gap Hclose clusters.
  destruct (minimum_gap_runs ps time_gap)
    as (Hcat & Hne & Hin & Hsep & Hdates).
  fold clusters in Hcat, Hne, Hin, Hsep, Hdates.
  assert (forall g x, g ∈ map photos clusters -> x ∈ g -> x ∈ ps) as Hmem.
  { intros g x Hg Hx. rewrite <- Hcat. apply elem_of_concat. eauto. }
  split_and!; [done|done| | |done].
  - apply Forall_forall. intros c Hc.
    rewrite Forall_forall in Hin. specialize (Hin c Hc).
    eapply neighbours_weaken; [|exact Hin].
    intros a b Ha Hb. simpl.
    assert (photos c ∈ map photos clusters) as Hg
      by (apply list_elem_of_fmap; eauto).
    by rewrite (gap_between_truncated time_gap ps a b Hclose) by eauto.
  - eapply neighbours_weaken; [|exact Hsep].
    intros g1 g2 Hg1 Hg2 (a & b & Hlast & Hhead & Hgap).
    exists a, b. split; [done|]. split; [done|].
    rewrite <- (gap_between_truncated time_gap ps a b Hclose); [done|..].
    + eapply Hmem; [exact Hg1|by apply last_elem_of].
    + eapply Hmem; [exact Hg2|by apply head_elem_of].
Qed.

Lemma minimum_gap_boundary_witness :
  within_float_precision photos_0_10_30
  /\ neighbours (truncated_gap_separates gap_20_seconds)
       (map photos (cluster_photos_by_minimum_gap photos_0_10_30 gap_20_seconds)).
Proof.
  assert (within_float_precision photos_0_10_30) as Hclose.
  { intros a b Ha Hb. unfold photos_0_10_30 in Ha, Hb.
    repeat (apply elem_of_cons in Ha as [->|Ha]);
      repeat (apply elem_of_cons in Hb as [->|Hb]);
      try (by apply elem_of_nil in Ha); try (by apply elem_of_nil in Hb);
      vm_compute; reflexivity. }
  split; [exact Hclose|].
  apply (proj1 minimum_gap_boundary photos_0_10_30 gap_20_seconds Hclose).
Defined.

(** C8, counterexample to the claim as stated: the conversion goes
    through floats.  Two items 19999999999.999999 seconds apart are
    19999999999 whole seconds apart, less than the configured 20000000000;
    the float of the difference is 20000000000.0, and the second item
    starts a new cluster. *)
Lemma long_span_gap_is_rounded_up :
  truncated_gap gap_20_gigaseconds (photo "old" 0 None)
    (photo "new" 19999999999999999 None) = 19999999999
  /\ 19999999999 < amount gap_20_gigaseconds
  /\ cluster_paths
       (cluster_photos_by_minimum_gap centuries_apart gap_20_gigaseconds)
     = [["old"]; ["new"]].
Proof. split_and!; vm_compute; reflexivity. Qed.


(** ** Where placements come from *)

Lemma elem_of_enumerate {A} (l : list A) i x :
  (i, x) ∈ enumerate l <-> exists n, i = Z.of_nat n /\ l !! n = Some x.
Proof.
  unfold enumerate. rewrite elem_of_lookup_imap. split.
  - intros (n & y & Heq & Hn). simplify_eq. eauto.
  - intros (n & -> & Hn). eauto.
Qed.

Lemma elem_of_cluster_members clusters ph :
  ph ∈ cluster_members clusters <->
  exists c, c ∈ clusters /\ ph ∈ photos c.
Proof.
  unfold cluster_members. rewrite elem_of_concat. split.
  - intros (g & Hph & Hg). apply list_elem_of_fmap in Hg as (c & -> & Hc). eauto.
  - intros (c & Hc & Hph). exists (photos c). split; [done|].
    apply list_elem_of_fmap. eauto.
Qed.

Lemma elem_of_List_filter {A} (f : A -> bool) (l : list A) x :
  x ∈ List.filter f l <-> x ∈ l /\ f x = true.
Proof. rewrite !list_elem_of_In. apply filter_In. Qed.

Section provenance.
Context (fs : FileSystem).

Lemma occupy_and_place_from src id_method ph b anchored cid st st' :
  ph ∈ src -> placed_from src st ->
  occupy_and_place fs id_method (photo_path ph) (photo_date ph) b anchored
    cid st = Returned st' ->
  placed_from src st'.
Proof.
  intros Hph Hfrom H. apply occupy_and_place_inv in H as (_ & Hpl & _).
  intros p. rewrite Hpl, elem_of_app, list_elem_of_singleton.
  intros [Hp | ->]; [by apply Hfrom|]. by exists ph.
Qed.

Lemma place_anchored_photo_from src beats so eo id_method st ph st' :
  ph ∈ src -> placed_from src st ->
  place_anchored_photo fs beats so eo id_method st ph = Returned st' ->
  placed_from src st'.
Proof.
  unfold place_anchored_photo. intros Hph Hfrom H.
  destruct (photo_anchor ph) as [anchor|]; [|by simplify_eq].
  destruct (in_effective_range _ _ _ _); [|by simplify_eq].
  outcome_inv H. destruct a; [by simplify_eq|].
  by eapply occupy_and_place_from.
Qed.

Lemma distribute_photo_from src beats sd ts so eo n id_method st ph st' :
  ph ∈ src -> placed_from src st ->
  distribute_photo fs beats sd ts so eo n id_method st
    (photo_path ph, photo_date ph) = Returned st' ->
  placed_from src st'.
Proof.
  unfold distribute_photo. intros Hph Hfrom H.
  outcome_inv H. outcome_inv H. destruct a0; [by simplify_eq|].
  by eapply occupy_and_place_from.
Qed.

Lemma map_photos_to_beats_original_from photos beats sd ed so eo id_method
    pls ws :
  map_photos_to_beats_original fs photos beats sd ed so eo id_method
  = Returned (pls, ws) ->
  forall p, p ∈ pls ->
    exists ph, ph ∈ List.filter (in_date_range sd ed) photos
               /\ photo_path ph = path (asset p) /\ photo_date ph = date p.
Proof.
  unfold map_photos_to_beats_original.
  destruct (_ <=? 0); [discriminate|].
  destruct (_ <? _); [discriminate|].
  intros H. outcome_inv H as st1 Hpass1. outcome_inv H as st2 Hpass2.
  simplify_eq. intros p. rewrite elem_of_sorted.
  set (src := List.filter (in_date_range sd ed) photos) in *.
  assert (placed_from src st1) as Hst1.
  { eapply for_each_invariant; [| |exact Hpass1].
    - intros ? ? ? ?. by apply place_anchored_photo_from.
    - intros q Hq. by apply elem_of_nil in Hq. }
  assert (placed_from src st2) as Hst2; [|apply Hst2].
  eapply for_each_invariant; [|exact Hst1|exact Hpass2].
  intros st pd st' Hpd.
  apply list_elem_of_fmap in Hpd as (ph & -> & Hph).
  apply elem_of_List_filter in Hph as [Hph _].
  by apply distribute_photo_from.
Qed.

Lemma place_anchored_cluster_photo_from src beats so eo id_method idx st ph st' :
  ph ∈ src -> placed_from src st ->
  place_anchored_cluster_photo fs beats so eo id_method idx st ph = Returned st' ->
  placed_from src st'.
Proof.
  unfold place_anchored_cluster_photo. intros Hph Hfrom H.
  destruct (photo_anchor ph) as [anchor|]; [|by simplify_eq].
  destruct (in_effective_range _ _ _ _); [|by simplify_eq].
  outcome_inv H. destruct a; [by simplify_eq|].
  by eapply occupy_and_place_from.
Qed.

Lemma place_cluster_members_from src id_method idx b members st :
  (forall ph, ph ∈ members -> ph ∈ src) -> placed_from src st ->
  placed_from src (foldl (place_cluster_member fs id_method idx b) st members).
Proof.
  revert st. induction members as [|ph members IH]; intros st Hsrc Hfrom;
    simpl; [done|].
  apply IH; [intros; apply Hsrc; by right|].
  unfold place_cluster_member. destruct (existsb _ _); [done|].
  intros p. simpl. rewrite elem_of_app, list_elem_of_singleton.
  intros [Hp | ->]; [by apply Hfrom|].
  exists ph. split; [apply Hsrc; by left|done].
Qed.

Lemma distribute_cluster_from src beats sd ts so eo n id_method st ic st' :
  (forall ph, ph ∈ photos ic.2 -> ph ∈ src) -> placed_from src st ->
  distribute_cluster fs beats sd ts so eo n id_method st ic = Returned st' ->
  placed_from src st'.
Proof.
  unfold distribute_cluster. intros Hsrc Hfrom H.
  outcome_inv H. outcome_inv H. outcome_inv H.
  destruct a1; [by simplify_eq|]. outcome_inv H. simplify_eq.
  by apply place_cluster_members_from.
Qed.

Lemma map_photo_clusters_to_beats_from clusters beats sd ed so eo id_method
    pls ws :
  map_photo_clusters_to_beats fs clusters beats sd ed so eo id_method
  = Returned (pls, ws) ->
  forall p, p ∈ pls ->
    exists ph, ph ∈ cluster_members clusters
               /\ photo_path ph = path (asset p) /\ photo_date ph = date p.
Proof.
  unfold map_photo_clusters_to_beats.
  destruct (_ <=? 0); [discriminate|].
  destruct (_ <? _); [discriminate|].
  intros H. outcome_inv H as st1 Hpass1. outcome_inv H as st2 Hpass2.
  simplify_eq. intros p. rewrite elem_of_sorted.
  set (src := cluster_members clusters).
  assert (forall i c ph, (i, c) ∈ enumerate clusters -> ph ∈ photos c ->
                         ph ∈ src) as Hsrc.
  { intros i c ph Hic Hph. apply elem_of_enumerate in Hic as (n & _ & Hn).
    apply elem_of_cluster_members. exists c. split; [|done].
    by eapply list_elem_of_lookup_2. }
  assert (placed_from src st1) as Hst1.
  { eapply for_each_invariant; [| |exact Hpass1].
    - intros st [i c] st' Hic HP. unfold place_anchored_cluster. simpl.
      intros Hrun. eapply for_each_invariant; [|exact HP|exact Hrun].
      intros ? ph ? Hph. apply place_anchored_cluster_photo_from. eauto.
    - intros q Hq. by apply elem_of_nil in Hq. }
  assert (placed_from src st2) as Hst2; [|apply Hst2].
  eapply for_each_invariant; [|exact Hst1|exact Hpass2].
  intros st [i c] st' Hic. apply elem_of_List_filter in Hic as [Hic _].
  apply distribute_cluster_from. simpl. eauto.
Qed.
End provenance.

(** *** Clustering keeps the photos it is given *)

Lemma minimum_gap_members ps time_gap :
  cluster_members (cluster_photos_by_minimum_gap ps time_gap) = ps.
Proof.
  unfold cluster_members. rewrite cluster_photos_by_minimum_gap_refines.
  destruct ps as [|p0 rest]; simpl; [done|].
  destruct (split_at_gaps_spec time_gap p0 rest) as (Hcat & _).
  destruct (split_at_gaps time_gap p0 rest) as [joining following]; simpl in *.
  by rewrite Hcat.
Qed.

Lemma group_append_elem groups key ph k g x :
  (k, g) ∈ group_append groups key ph -> x ∈ g ->
  x = ph \/ exists g0, (k, g0) ∈ groups /\ x ∈ g0.
Proof.
  induction groups as [|[k0 g0] groups IH]; simpl.
  - rewrite list_elem_of_singleton. intros ? Hx. simplify_eq.
    apply list_elem_of_singleton in Hx. by left.
  - case_bool_decide; rewrite elem_of_cons; intros [Heq|Hin] Hx.
    + simplify_eq. apply elem_of_app in Hx as [Hx|Hx].
      * right. eexists. split; [by left|done].
      * apply list_elem_of_singleton in Hx. by left.
    + right. exists g. split; [by right|done].
    + simplify_eq. right. eexists. split; [by left|done].
    + destruct (IH Hin Hx) as [?|(g1 & Hg1 & Hx1)]; [by left|].
      right. exists g1. split; [by right|done].
Qed.

Lemma period_groups_members (key_of : PhotoMetadata -> datetime) ps groups k g x :
  (k, g) ∈ foldl (fun groups ph => group_append groups (key_of ph) ph) groups ps ->
  x ∈ g ->
  x ∈ ps \/ exists g0, (k, g0) ∈ groups /\ x ∈ g0.
Proof.
  revert groups. induction ps as [|ph ps IH]; intros groups Hkg Hx; simpl in *.
  - right. eauto.
  - destruct (IH _ Hkg Hx) as [?|(g1 & Hg1 & Hx1)]; [left; by right|].
    destruct (group_append_elem _ _ _ _ _ _ Hg1 Hx1) as [->|?];
      [left; by left|by right].
Qed.

Lemma same_period_members ps time_gap ph :
  ph ∈ cluster_members (cluster_photos_by_same_period ps time_gap) -> ph ∈ ps.
Proof.
  rewrite elem_of_cluster_members. intros (c & Hc & Hph).
  unfold cluster_photos_by_same_period in Hc.
  apply elem_of_sorted, list_elem_of_omap in Hc as ([k g] & Hkg & Hsome).
  destruct g as [|p0 g]; [discriminate|]. simplify_eq. simpl in Hph.
  destruct (period_groups_members _ _ _ _ _ _ Hkg Hph) as [?|(g0 & Hg0 & _)];
    [done|].
  by apply elem_of_nil in Hg0.
Qed.

Lemma cluster_photos_by_time_gap_members ps time_gap ph :
  ph ∈ cluster_members (cluster_photos_by_time_gap ps time_gap) -> ph ∈ ps.
Proof.
  unfold cluster_photos_by_time_gap.
  destruct (amount time_gap =? 0).
  - rewrite elem_of_cluster_members. intros (c & Hc & Hph).
    apply list_elem_of_fmap in Hc as (q & -> & Hq). simpl in Hph.
    by apply list_elem_of_singleton in Hph as ->.
  - destruct (same_period_mode time_gap).
    + apply same_period_members.
    + by rewrite minimum_gap_members.
Qed.

(** C10 (implicit date-range filtering).  [map_photos_to_beats] works on
    the photos dated inside the closed range only: its result is the
    result on the filtered list; when no photo is inside the range it
    returns the empty placement list with one warning instead of failing;
    and every placement of a run that returns is the placement of an input
    photo dated inside the range. *)
Theorem date_range_filtering (fs : FileSystem) (photos : list PhotoMetadata)
    (beats : list BeatInfo) (start_date end_date : datetime)
    (start_offset end_offset : Z) (time_gap : TimeGap) (id_method : string) :
  let run photos :=
    map_photos_to_beats fs photos beats start_date end_date start_offset
      end_offset time_gap id_method in
  let in_range := List.filter (in_date_range start_date end_date) photos in
  run photos = run in_range
  /\ (in_range = [] -> run photos = Returned ([], [NoPhotosInRange]))
  /\ (forall pls ws, run photos = Returned (pls, ws) ->
        forall p, p ∈ pls ->
          start_date <= date p <= end_date
          /\ exists ph, ph ∈ photos /\ photo_path ph = path (asset p)
                        /\ photo_date ph = date p).
Proof.
  intros run in_range. split_and!.
  - unfold run, map_photos_to_beats. fold in_range.
    assert (List.filter (in_date_range start_date end_date) in_range = in_range)
      as ->; [|done].
    unfold in_range. induction photos as [|ph photos IH]; simpl; [done|].
    destruct (in_date_range start_date end_date ph) eqn:Hph; simpl;
      [by rewrite Hph, IH|done].
  - unfold run, map_photos_to_beats. fold in_range. by intros ->.
  - intros pls ws Hrun p Hp.
    assert (exists ph, ph ∈ in_range /\ photo_path ph = path (asset p)
                       /\ photo_date ph = date p) as (ph & Hph & Hpath & Hdate).
    { unfold run, map_photos_to_beats in Hrun. fold in_range in Hrun.
      destruct in_range as [|q0 qs] eqn:Hin; [by simplify_eq; apply elem_of_nil in Hp|].
      rewrite <- Hin in *. clear Hin.
      destruct (amount time_gap =? 0).
      - destruct (map_photos_to_beats_original_from fs _ _ _ _ _ _ _ _ _ Hrun p Hp)
          as (ph & Hph & ?). apply elem_of_List_filter in Hph as [Hph _]. eauto.
      - destruct (map_photo_clusters_to_beats_from fs _ _ _ _ _ _ _ _ _ Hrun p Hp)
          as (ph & Hph & ?).
        apply cluster_photos_by_time_gap_members in Hph. eauto. }
    apply elem_of_List_filter in Hph as [Hph Hrange].
    unfold in_date_range in Hrange. rewrite <- Hdate. split; [lia|eauto].
Qed.


Lemma date_range_filtering_witness :
  map_photos_to_beats plain_fs [late_photo] (beat_grid 5) 0 100 0 0
    TimeGap_none "inode" = Returned ([], [NoPhotosInRange])
  /\ forall pls ws,
       map_photos_to_beats plain_fs inside_and_late (beat_grid 5) 0 100 0 0
         TimeGap_none "inode" = Returned (pls, ws) ->
       forall p, p ∈ pls -> 0 <= date p <= 100.
Proof.
  split.
  - apply (date_range_filtering plain_fs [late_photo] (beat_grid 5) 0 100 0 0
             TimeGap_none "inode").
    reflexivity.
  - intros pls ws Hrun p Hp.
    apply (date_range_filtering plain_fs inside_and_late (beat_grid 5) 0 100 0 0
             TimeGap_none "inode") with (pls := pls) (ws := ws); assumption.
Defined.

(** ** The effective range *)

Lemma filter_in_date_range_again sd ed photos :
  List.filter (in_date_range sd ed) (List.filter (in_date_range sd ed) photos)
  = List.filter (in_date_range sd ed) photos.
Proof.
  induction photos as [|ph photos IH]; simpl; [done|].
  destruct (in_date_range sd ed ph) eqn:Hph; simpl; [by rewrite Hph, IH|done].
Qed.

Lemma empty_effective_range {A} (l : list A) (so eo : Z) :
  0 <= so -> 0 <= eo <= Z.of_nat (length l) ->
  Z.of_nat (length l) - so - eo <= 0 ->
  py_slice l so (Z.of_nat (length l) - eo) = [].
Proof.
  intros Hso Heo Hsize. unfold py_slice, py_slice_bound.
  repeat case_bool_decide; try lia.
  replace (Z.to_nat _) with 0%nat by lia. reflexivity.
Qed.

Lemma group_append_nonempty groups key ph :
  group_append groups key ph <> []
  /\ (Forall (fun kg => kg.2 <> []) groups ->
      Forall (fun kg => kg.2 <> []) (group_append groups key ph)).
Proof.
  induction groups as [|[k g] groups [IH1 IH2]]; simpl.
  - split; [done|]. intros _. by constructor.
  - case_bool_decide; (split; [done|]); intros Hall;
      apply Forall_cons in Hall as [Hg Hall]; constructor; simpl; auto.
    by destruct g.
Qed.

Lemma period_groups_nonempty (key_of : PhotoMetadata -> datetime) ps groups :
  let result :=
    foldl (fun groups ph => group_append groups (key_of ph) ph) groups ps in
  Forall (fun kg => kg.2 <> []) groups ->
  Forall (fun kg => kg.2 <> []) result
  /\ (groups <> [] \/ ps <> [] -> result <> []).
Proof.
  revert groups. induction ps as [|ph ps IH]; intros groups result Hall.
  - split; [done|]. by intros [?|?].
  - subst result. simpl.
    destruct (group_append_nonempty groups (key_of ph) ph) as [Hne Hpres].
    destruct (IH (group_append groups (key_of ph) ph) (Hpres Hall)) as [H1 H2].
    split; [done|]. intros _. apply H2. by left.
Qed.

Lemma omap_nonempty_groups (groups : list (datetime * list PhotoMetadata)) :
  Forall (fun kg => kg.2 <> []) groups ->
  length (omap (fun '(_, group_photos) =>
                  match group_photos with
                  | [] => None
                  | _ => Some (make_cluster group_photos)
                  end) groups) = length groups.
Proof.
  induction 1 as [|[k g] groups Hg _ IH]; simpl; [done|].
  destruct g; [done|]. exact (f_equal S IH).
Qed.

(** A non-empty photo list gives at least one cluster. *)
Lemma cluster_photos_by_time_gap_nonempty ps time_gap :
  ps <> [] -> (0 < length (cluster_photos_by_time_gap ps time_gap))%nat.
Proof.
  intros Hps. unfold cluster_photos_by_time_gap.
  destruct (amount time_gap =? 0).
  - rewrite length_map. destruct ps; [done|simpl; lia].
  - destruct (same_period_mode time_gap).
    + unfold cluster_photos_by_same_period.
      destruct (period_groups_nonempty
                  (fun ph => normalize_to_period_start (photo_date ph)
                               (unit time_gap)) ps []) as [Hall Hne];
        [constructor|].
      specialize (Hne (or_intror Hps)). cbv zeta in Hall, Hne.
      set (groups := foldl _ [] ps) in *.
      rewrite (Permutation_length (sorted_Permutation _ _)).
      rewrite (omap_nonempty_groups groups Hall).
      destruct groups; [done|simpl; lia].
    + pose proof (cluster_photos_by_minimum_gap_refines ps time_gap) as Href.
      apply (f_equal length) in Href. rewrite length_map in Href.
      rewrite Href. destruct ps as [|p0 rest]; [done|]. simpl.
      destruct (split_at_gaps time_gap p0 rest). simpl. lia.
Qed.

Lemma map_photos_to_beats_in_range fs photos beats sd ed so eo time_gap id_method :
  let in_range := List.filter (in_date_range sd ed) photos in
  in_range <> [] ->
  map_photos_to_beats fs photos beats sd ed so eo time_gap id_method
  = if amount time_gap =? 0
    then map_photos_to_beats_original fs in_range beats sd ed so eo id_method
    else map_photo_clusters_to_beats fs
           (cluster_photos_by_time_gap in_range time_gap) beats sd ed so eo
           id_method.
Proof.
  intros in_range Hne. unfold map_photos_to_beats. fold in_range.
  by destruct in_range.
Qed.

(** C9, as the code has it.  No check rejects a non-positive effective
    range.  With offsets that are not negative, an end offset within the
    beat list and no effective beat left, a run over a positive time span
    fails exactly when some photo is dated inside the range, and then with
    the capacity error that reports the photos (or the clusters) against
    zero beats, after the date filter and the clustering have run; when no
    photo is inside the range the run returns the empty list. *)
Theorem empty_range_fails_as_capacity (fs : FileSystem)
    (photos : list PhotoMetadata) (beats : list BeatInfo)
    (start_date end_date : datetime) (start_offset end_offset : Z)
    (time_gap : TimeGap) (id_method : string) :
  0 <= start_offset ->
  0 <= end_offset <= Z.of_nat (length beats) ->
  Z.of_nat (length beats) - start_offset - end_offset <= 0 ->
  start_date < end_date ->
  let in_range := List.filter (in_date_range start_date end_date) photos in
  let clusters := cluster_photos_by_time_gap in_range time_gap in
  let run :=
    map_photos_to_beats fs photos beats start_date end_date start_offset
      end_offset time_gap id_method in
  (in_range = [] -> run = Returned ([], [NoPhotosInRange]))
  /\ (in_range <> [] ->
      0 < Z.of_nat (length in_range) /\ 0 < Z.of_nat (length clusters)
      /\ run =
         if amount time_gap =? 0
         then Raised (SystemExit (TooManyPhotos (Z.of_nat (length in_range)) 0))
         else Raised (SystemExit (TooManyClusters (Z.of_nat (length clusters)) 0))).
Proof.
  intros Hso Heo Hsize Hspan in_range clusters run. split.
  - unfold run, map_photos_to_beats. fold in_range. by intros ->.
  - intros Hne.
    assert (0 < Z.of_nat (length in_range)) as Hlen
      by (destruct in_range; [done|simpl; lia]).
    pose proof (cluster_photos_by_time_gap_nonempty in_range time_gap Hne) as Hcl.
    fold clusters in Hcl. split_and!; [done|lia|].
    unfold run. rewrite map_photos_to_beats_in_range by done.
    fold in_range clusters.
    destruct (amount time_gap =? 0).
    + rewrite too_many_photos_fails; rewrite ?empty_effective_range; try done.
      * unfold in_range. by rewrite filter_in_date_range_again.
      * unfold in_range. by rewrite filter_in_date_range_again.
    + rewrite too_many_clusters_fails; rewrite ?empty_effective_range; try done.
      simpl. lia.
Qed.

Lemma empty_range_fails_as_capacity_witness :
  map_photos_to_beats plain_fs inside_and_late (beat_grid 3) 0 100 2 1
    TimeGap_none "inode" = Raised (SystemExit (TooManyPhotos 1 0))
  /\ map_photos_to_beats plain_fs inside_and_late (beat_grid 3) 0 100 2 1
       gap_20_seconds "inode" = Raised (SystemExit (TooManyClusters 1 0))
  /\ map_photos_to_beats plain_fs [late_photo] (beat_grid 3) 0 100 2 1
       TimeGap_none "inode" = Returned ([], [NoPhotosInRange]).
Proof.
  split_and!.
  - destruct (empty_range_fails_as_capacity plain_fs inside_and_late
                (beat_grid 3) 0 100 2 1 TimeGap_none "inode") as [_ H];
      [lia | simpl; lia | simpl; lia | lia |].
    destruct H as (_ & _ & H); [discriminate|exact H].
  - destruct (empty_range_fails_as_capacity plain_fs inside_and_late
                (beat_grid 3) 0 100 2 1 gap_20_seconds "inode") as [_ H];
      [lia | simpl; lia | simpl; lia | lia |].
    destruct H as (_ & _ & H); [discriminate|exact H].
  - destruct (empty_range_fails_as_capacity plain_fs [late_photo]
                (beat_grid 3) 0 100 2 1 TimeGap_none "inode") as [H _];
      [lia | simpl; lia | simpl; lia | lia |].
    apply H. reflexivity.
Defined.

(** C9, counterexample to the claim as stated.  Three beats with an end
    offset of four leave [3 - 0 - 4 <= 0] slots, yet the run returns a
    placement: the slice [beats[0:-1]] has two beats.  Three beats with
    offsets two and one leave no slot, yet the run returns (an empty list)
    when no photo is dated inside the range. *)
Lemma nonpositive_range_is_not_rejected :
  (Z.of_nat (length (beat_grid 3)) - 0 - 4 <= 0
   /\ exists pls,
        map_photos_to_beats plain_fs [photo "a" 0 None] (beat_grid 3) 0 100 0 4
          TimeGap_none "inode" = Returned (pls, [])
        /\ summary pls = [("a", 0, false, None)])
  /\ (Z.of_nat (length (beat_grid 3)) - 2 - 1 <= 0
      /\ map_photos_to_beats plain_fs [late_photo] (beat_grid 3) 0 100 2 1
           TimeGap_none "inode" = Returned ([], [NoPhotosInRange])).
Proof.
  split; (split; [simpl; lia|]).
  - eexists. split; [vm_compute; reflexivity|reflexivity].
  - reflexivity.
Qed.


(** ** Pins *)

(** A loop in which the first element of a kind turns a state that is
    still [free] into one that is [placed], the other elements keep a
    state [free], and no element undoes [placed]. *)
Section first_hit.
Context {S A : Type} (step : S -> A -> outcome S).
Context (free placed : S -> Prop) (target : A -> Prop).
Context (target_dec : forall x, Decision (target x)).
Context (l : list A).
Hypothesis keep : forall st x st',
    x ∈ l -> step st x = Returned st' -> placed st -> placed st'.
Hypothesis other : forall st x st',
    x ∈ l -> ~ target x -> step st x = Returned st' -> free st -> free st'.
Hypothesis hit : forall st x st',
    x ∈ l -> target x -> step st x = Returned st' -> free st -> placed st'.

Lemma for_each_first_hit_sub l' st st' :
  l' ⊆ l -> for_each step st l' = Returned st' ->
  (placed st -> placed st')
  /\ (free st -> (Exists target l' -> placed st')
                 /\ (~ Exists target l' -> free st')).
Proof.
  revert st. induction l' as [|x l' IH]; intros st Hsub Hrun; simpl in Hrun.
  - simplify_eq. split; [done|]. intros Hfree. split; [|done].
    intros H. by apply Exists_nil in H.
  - destruct (step st x) as [st1|e] eqn:Hx; [|discriminate].
    assert (x ∈ l) as Hxl by (apply Hsub; by left).
    assert (l' ⊆ l) as Hsub' by (intros y Hy; apply Hsub; by right).
    destruct (IH st1 Hsub' Hrun) as [Hkeep Hfree1].
    split; [intros Hp; apply Hkeep; by eapply keep|].
    intros Hfree. destruct (target_dec x) as [Ht|Ht].
    + split; [intros _; apply Hkeep; by eapply hit|].
      intros Hno. exfalso. apply Hno. by left.
    + destruct (Hfree1 (other _ _ _ Hxl Ht Hx Hfree)) as [H1 H2]. split.
      * intros Hex. apply Exists_cons in Hex as [?|?]; [done|by apply H1].
      * intros Hno. apply H2. intros Hex. apply Hno. by right.
Qed.

Lemma for_each_first_hit st st' :
  for_each step st l = Returned st' -> free st ->
  (Exists target l -> placed st') /\ (~ Exists target l -> free st').
Proof.
  intros Hrun Hfree.
  by destruct (for_each_first_hit_sub l st st' (reflexivity _) Hrun) as [_ H];
    apply H.
Qed.
End first_hit.

Lemma slot_free_initially beats b : slot_free b (initial_state beats).
Proof.
  unfold slot_free, py_getitem. simpl.
  destruct (py_index _ b) as [n|]; simpl; [|done].
  destruct (replicate _ _ !! n) as [v|] eqn:Hn; [|done].
  apply lookup_replicate in Hn as [-> _]. done.
Qed.

Lemma in_effective_range_bounds beats so eo b :
  in_effective_range beats so eo b = true ->
  so <= b < Z.of_nat (length beats) - eo.
Proof. unfold in_effective_range. lia. Qed.

Section pins.
Context (fs : FileSystem).

Lemma occupy_and_place_keeps id_method p d b anchored cid st st' q :
  occupy_and_place fs id_method p d b anchored cid st = Returned st' ->
  q ∈ placements st -> q ∈ placements st'.
Proof.
  intros H Hq. apply occupy_and_place_inv in H as (_ & -> & _).
  apply elem_of_app. by left.
Qed.

(** Occupying another slot of the effective range leaves slot [b] free. *)
Lemma occupy_and_place_other id_method p d b' anchored cid st st' b :
  0 <= b -> 0 <= b' -> b' <> b ->
  occupy_and_place fs id_method p d b' anchored cid st = Returned st' ->
  slot_free b st -> slot_free b st'.
Proof.
  intros Hb Hb' Hne H Hfree. apply occupy_and_place_inv in H as (Hset & _).
  unfold slot_free. by rewrite (py_setitem_other _ _ _ _ _ Hb' Hb Hne Hset).
Qed.

Lemma occupy_and_place_pins id_method ph b cid st st' :
  occupy_and_place fs id_method (photo_path ph) (photo_date ph) b true cid st
  = Returned st' ->
  exists p, p ∈ placements st' /\ pinned_at ph b p.
Proof.
  intros H. apply occupy_and_place_inv in H as (_ & -> & _).
  eexists. split; [apply elem_of_app; right; by left|done].
Qed.

Lemma place_anchored_photo_keeps beats so eo id_method st ph st' q :
  place_anchored_photo fs beats so eo id_method st ph = Returned st' ->
  q ∈ placements st -> q ∈ placements st'.
Proof.
  unfold place_anchored_photo. intros H Hq.
  destruct (photo_anchor ph) as [anchor|]; [|by simplify_eq].
  destruct (in_effective_range _ _ _ _); [|by simplify_eq].
  outcome_inv H. destruct a; [by simplify_eq|].
  by eapply occupy_and_place_keeps.
Qed.

Lemma distribute_photo_keeps beats sd ts so eo n id_method st pd st' q :
  distribute_photo fs beats sd ts so eo n id_method st pd = Returned st' ->
  q ∈ placements st -> q ∈ placements st'.
Proof.
  unfold distribute_photo. intros H Hq.
  outcome_inv H. outcome_inv H. destruct a0; [by simplify_eq|].
  by eapply occupy_and_place_keeps.
Qed.

Lemma place_anchored_cluster_photo_keeps beats so eo id_method idx st ph st' q :
  place_anchored_cluster_photo fs beats so eo id_method idx st ph = Returned st' ->
  q ∈ placements st -> q ∈ placements st'.
Proof.
  unfold place_anchored_cluster_photo. intros H Hq.
  destruct (photo_anchor ph) as [anchor|]; [|by simplify_eq].
  destruct (in_effective_range _ _ _ _); [|by simplify_eq].
  outcome_inv H. destruct a; [by simplify_eq|].
  by eapply occupy_and_place_keeps.
Qed.

Lemma distribute_cluster_keeps beats sd ts so eo n id_method st ic st' q :
  distribute_cluster fs beats sd ts so eo n id_method st ic = Returned st' ->
  q ∈ placements st -> q ∈ placements st'.
Proof.
  unfold distribute_cluster. intros H Hq.
  outcome_inv H. outcome_inv H. outcome_inv H.
  destruct a1; [by simplify_eq|]. outcome_inv H. simplify_eq.
  match goal with |- _ ∈ placements (foldl _ ?s _) => set (st0 := s) end.
  destruct (place_cluster_members_inv fs id_method ic.1 a0 (photos ic.2) st0)
    as (_ & _ & new & -> & _).
  apply elem_of_app. by left.
Qed.

(** The first pass without clustering, seen from one pin. *)
Lemma anchored_pass_pins beats so eo id_method ph anchor l st st' :
  0 <= so -> photo_anchor ph = Some anchor ->
  in_effective_range beats so eo (anchor - 1) = true ->
  (forall q, q ∈ l -> photo_anchor q = Some anchor -> q = ph) ->
  for_each (place_anchored_photo fs beats so eo id_method) st l = Returned st' ->
  slot_free (anchor - 1) st -> ph ∈ l ->
  exists p, p ∈ placements st' /\ pinned_at ph (anchor - 1) p.
Proof.
  intros Hso Hanchor Hrange Honly Hrun Hfree Hph.
  apply in_effective_range_bounds in Hrange as Hb.
  eapply (for_each_first_hit _ (slot_free (anchor - 1))
            (fun st => exists p, p ∈ placements st /\ pinned_at ph (anchor - 1) p)
            (fun q => q = ph) (fun q => decide (q = ph)) l);
    [| | |exact Hrun|exact Hfree|].
  - intros st0 x st1 _ Hx (p & Hp & Hpin). exists p. split; [|done].
    by eapply place_anchored_photo_keeps.
  - intros st0 x st1 Hxl Hne Hx Hfree0. unfold place_anchored_photo in Hx.
    destruct (photo_anchor x) as [a'|] eqn:Hax; [|by simplify_eq].
    destruct (in_effective_range _ _ _ (a' - 1)) eqn:Hr; simplify_eq; [|done].
    apply in_effective_range_bounds in Hr.
    outcome_inv Hx. destruct a; [by simplify_eq|].
    eapply occupy_and_place_other; [| | |exact Hx|exact Hfree0]; [lia..|].
    intros Heq. apply Hne, Honly; [done|]. rewrite Hax. f_equal. lia.
  - intros st0 x st1 _ -> Hx Hfree0. unfold place_anchored_photo in Hx.
    rewrite Hanchor, Hrange in Hx. outcome_inv Hx.
    destruct a; [by destruct Hfree0|]. by eapply occupy_and_place_pins.
  - apply Exists_exists. eauto.
Qed.

(** The first pass over the photos of one cluster, seen from one pin. *)
Lemma anchored_cluster_photos_pin beats so eo id_method idx ph anchor l st st' :
  0 <= so -> photo_anchor ph = Some anchor ->
  in_effective_range beats so eo (anchor - 1) = true ->
  (forall q, q ∈ l -> photo_anchor q = Some anchor -> q = ph) ->
  for_each (place_anchored_cluster_photo fs beats so eo id_method idx) st l
  = Returned st' ->
  slot_free (anchor - 1) st ->
  (ph ∈ l -> exists p, p ∈ placements st' /\ pinned_at ph (anchor - 1) p)
  /\ (ph ∉ l -> slot_free (anchor - 1) st').
Proof.
  intros Hso Hanchor Hrange Honly Hrun Hfree.
  apply in_effective_range_bounds in Hrange as Hb.
  destruct (for_each_first_hit
            (place_anchored_cluster_photo fs beats so eo id_method idx)
            (slot_free (anchor - 1))
            (fun st => exists p, p ∈ placements st /\ pinned_at ph (anchor - 1) p)
            (fun q => q = ph) (fun q => decide (q = ph)) l)
    with (st := st) (st' := st') as [H1 H2]; [| | |exact Hrun|exact Hfree|].
  - intros st0 x st1 _ Hx (p & Hp & Hpin). exists p. split; [|done].
    by eapply place_anchored_cluster_photo_keeps.
  - intros st0 x st1 Hxl Hne Hx Hfree0.
    unfold place_anchored_cluster_photo in Hx.
    destruct (photo_anchor x) as [a'|] eqn:Hax; [|by simplify_eq].
    destruct (in_effective_range _ _ _ (a' - 1)) eqn:Hr; simplify_eq; [|done].
    apply in_effective_range_bounds in Hr.
    outcome_inv Hx. destruct a; [by simplify_eq|].
    eapply occupy_and_place_other; [| | |exact Hx|exact Hfree0]; [lia..|].
    intros Heq. apply Hne, Honly; [done|]. rewrite Hax. f_equal. lia.
  - intros st0 x st1 _ -> Hx Hfree0.
    unfold place_anchored_cluster_photo in Hx.
    rewrite Hanchor, Hrange in Hx. outcome_inv Hx.
    destruct a; [by destruct Hfree0|]. by eapply occupy_and_place_pins.
  - split.
    + intros Hph. apply H1, Exists_exists. eauto.
    + intros Hph. apply H2. intros Hex.
      apply Exists_exists in Hex as (q & Hq & ->). done.
Qed.

(** The first pass over all clusters, seen from one pin. *)
Lemma anchored_clusters_pin beats so eo id_method ph anchor
    (l : list (Z * PhotoCluster)) st st' :
  0 <= so -> photo_anchor ph = Some anchor ->
  in_effective_range beats so eo (anchor - 1) = true ->
  (forall ic q, ic ∈ l -> q ∈ photos ic.2 ->
                photo_anchor q = Some anchor -> q = ph) ->
  for_each (place_anchored_cluster fs beats so eo id_method) st l
  = Returned st' ->
  slot_free (anchor - 1) st ->
  (exists ic, ic ∈ l /\ ph ∈ photos ic.2) ->
  exists p, p ∈ placements st' /\ pinned_at ph (anchor - 1) p.
Proof.
  intros Hso Hanchor Hrange Honly Hrun Hfree Hph.
  eapply (for_each_first_hit _ (slot_free (anchor - 1))
            (fun st => exists p, p ∈ placements st /\ pinned_at ph (anchor - 1) p)
            (fun ic => ph ∈ photos ic.2)
            (fun ic => decide (ph ∈ photos ic.2)) l);
    [| | |exact Hrun|exact Hfree|].
  - intros st0 ic st1 _ Hx (p & Hp & Hpin). exists p. split; [|done].
    unfold place_anchored_cluster in Hx.
    eapply (for_each_invariant (fun st => p ∈ placements st));
      [|exact Hp|exact Hx].
    intros ? ? ? _ ? ?. by eapply place_anchored_cluster_photo_keeps.
  - intros st0 ic st1 Hic Hno Hx Hfree0.
    by eapply anchored_cluster_photos_pin; [..|exact Hx|exact Hfree0|]; eauto.
  - intros st0 ic st1 Hic Hyes Hx Hfree0.
    by eapply anchored_cluster_photos_pin; [..|exact Hx|exact Hfree0|]; eauto.
  - apply Exists_exists. eauto.
Qed.
End pins.

(** C6 (pin priority), as the code has it.  Let an item carry a pin whose
    slot lies inside the effective range, the start offset not being
    negative.  In a run that returns, the item has an anchored placement
    at exactly that slot whenever no other item considered by the pass
    carries the same pin: without clustering the items considered are
    those dated inside the date range, and the item must be one of them;
    over clusters they are all the members of the clusters.  The later
    chronological pass never removes that placement. *)
Theorem pin_priority (fs : FileSystem) (beats : list BeatInfo)
    (start_date end_date : datetime) (start_offset end_offset : Z)
    (id_method : string) (ph : PhotoMetadata) (anchor : Z) :
  0 <= start_offset ->
  photo_anchor ph = Some anchor ->
  in_effective_range beats start_offset end_offset (anchor - 1) = true ->
  (forall photos pls ws,
      map_photos_to_beats_original fs photos beats start_date end_date
        start_offset end_offset id_method = Returned (pls, ws) ->
      ph ∈ photos -> start_date <= photo_date ph <= end_date ->
      (forall q, q ∈ photos -> start_date <= photo_date q <= end_date ->
                 photo_anchor q = Some anchor -> q = ph) ->
      exists p, p ∈ pls /\ pinned_at ph (anchor - 1) p)
  /\ (forall clusters pls ws,
        map_photo_clusters_to_beats fs clusters beats start_date end_date
          start_offset end_offset id_method = Returned (pls, ws) ->
        ph ∈ cluster_members clusters ->
        (forall q, q ∈ cluster_members clusters ->
                   photo_anchor q = Some anchor -> q = ph) ->
        exists p, p ∈ pls /\ pinned_at ph (anchor - 1) p).
Proof.
  intros Hso Hanchor Hrange. split.
  - intros photos pls ws Hrun Hph Hdate Honly.
    unfold map_photos_to_beats_original in Hrun.
    destruct (_ <=? 0); [discriminate|].
    destruct (_ <? _); [discriminate|].
    outcome_inv Hrun as st1 Hpass1. outcome_inv Hrun as st2 Hpass2.
    simplify_eq.
    destruct (anchored_pass_pins fs beats start_offset end_offset id_method ph
                anchor (List.filter (in_date_range start_date end_date) photos)
                (initial_state beats) st1 Hso Hanchor Hrange)
      as (p & Hp & Hpin); [|exact Hpass1| | |].
    + intros q Hq. apply elem_of_List_filter in Hq as [Hq Hr].
      unfold in_date_range in Hr. apply Honly; [done|lia].
    + apply slot_free_initially.
    + apply elem_of_List_filter. split; [done|]. unfold in_date_range. lia.
    + exists p. split; [|done]. apply elem_of_sorted.
      eapply (for_each_invariant (fun st => p ∈ placements st));
        [|exact Hp|exact Hpass2].
      intros ? ? ? _ ? ?. by eapply distribute_photo_keeps.
  - intros clusters pls ws Hrun Hph Honly.
    unfold map_photo_clusters_to_beats in Hrun.
    destruct (_ <=? 0); [discriminate|].
    destruct (_ <? _); [discriminate|].
    outcome_inv Hrun as st1 Hpass1. outcome_inv Hrun as st2 Hpass2.
    simplify_eq.
    assert (forall ic, ic ∈ enumerate clusters -> ic.2 ∈ clusters) as Henum.
    { intros [i c] Hic. apply elem_of_enumerate in Hic as (n & _ & Hn).
      by eapply list_elem_of_lookup_2. }
    destruct (anchored_clusters_pin fs beats start_offset end_offset id_method ph
                anchor (enumerate clusters) (initial_state beats) st1 Hso
                Hanchor Hrange)
      as (p & Hp & Hpin); [|exact Hpass1| | |].
    + intros ic q Hic Hq. apply Honly, elem_of_cluster_members.
      exists ic.2. split; [by apply Henum|done].
    + apply slot_free_initially.
    + apply elem_of_cluster_members in Hph as (c & Hc & Hph).
      apply list_elem_of_lookup_1 in Hc as (n & Hn).
      exists (Z.of_nat n, c). split; [|done]. apply elem_of_enumerate. eauto.
    + exists p. split; [|done]. apply elem_of_sorted.
      eapply (for_each_invariant (fun st => p ∈ placements st));
        [|exact Hp|exact Hpass2].
      intros ? ? ? _ ? ?. by eapply distribute_cluster_keeps.
Qed.

Lemma pin_priority_witness :
  (exists pls ws,
      map_photos_to_beats_original plain_fs pressured_photos (beat_grid 5)
        0 100 0 0 "inode" = Returned (pls, ws)
      /\ exists p, p ∈ pls /\ pinned_at pinned_photo (1 - 1) p)
  /\ (exists pls ws,
        map_photo_clusters_to_beats plain_fs
          (map singleton_cluster pressured_photos) (beat_grid 5) 0 100 0 0
          "inode" = Returned (pls, ws)
        /\ exists p, p ∈ pls /\ pinned_at pinned_photo (1 - 1) p).
Proof.
  destruct (pin_priority plain_fs (beat_grid 5) 0 100 0 0 "inode" pinned_photo 1)
    as [Horiginal Hclusters]; [lia|reflexivity|reflexivity|].
  split.
  - eexists _, _. split; [vm_compute; reflexivity|].
    apply (Horiginal pressured_photos _ []).
    + vm_compute. reflexivity.
    + apply (bool_decide_unpack _). vm_compute. exact I.
    + unfold pinned_photo, photo, photo_date. simpl. lia.
    + intros q Hq _ Ha. unfold pressured_photos in Hq.
      repeat (apply elem_of_cons in Hq as [->|Hq]; [try done|]).
      by apply elem_of_nil in Hq.
  - eexists _, _. split; [vm_compute; reflexivity|].
    apply (Hclusters (map singleton_cluster pressured_photos) _ []).
    + vm_compute. reflexivity.
    + apply (bool_decide_unpack _). vm_compute. exact I.
    + intros q Hq Ha. simpl in Hq.
      repeat (apply elem_of_cons in Hq as [->|Hq]; [try done|]).
      by apply elem_of_nil in Hq.
Defined.

(** C6, counterexample to the claim as stated.  The photo ["late"] carries
    pin 2; slot 1 lies inside the effective range and no other photo is
    pinned to it; the run returns, and yet nothing is placed for the
    photo, because it is dated outside the date range. *)
Lemma pin_outside_date_range_is_ignored :
  photo_anchor late_photo = Some 2
  /\ in_effective_range (beat_grid 5) 0 0 (2 - 1) = true
  /\ (forall q, q ∈ inside_and_late -> photo_anchor q = Some 2 -> q = late_photo)
  /\ exists pls ws,
       map_photos_to_beats_original plain_fs inside_and_late (beat_grid 5)
         0 100 0 0 "inode" = Returned (pls, ws)
       /\ summary pls = [("in", 2, false, None)]
       /\ ~ exists p, p ∈ pls /\ pinned_at late_photo (2 - 1) p.
Proof.
  split_and!; [reflexivity..| |].
  - intros q Hq Ha. unfold inside_and_late in Hq.
    repeat (apply elem_of_cons in Hq as [->|Hq]; [try done|]).
    by apply elem_of_nil in Hq.
  - eexists _, _. split; [vm_compute; reflexivity|]. split; [reflexivity|].
    intros (p & Hp & Hpath & _).
    apply list_elem_of_singleton in Hp as ->. discriminate.
Qed.


Lemma slot_occupation_unique_witness :
  (exists pls ws,
      map_photos_to_beats_original plain_fs pressured_photos (beat_grid 5)
        0 100 0 0 "inode" = Returned (pls, ws)
      /\ NoDup (map beat_index pls))
  /\ (exists pls ws,
        map_photo_clusters_to_beats plain_fs
          (cluster_photos_by_minimum_gap pressured_photos gap_20_seconds)
          (beat_grid 5) 0 100 0 0 "inode" = Returned (pls, ws)
        /\ forall p q, p ∈ pls -> q ∈ pls ->
             beat_index p = beat_index q -> cluster_id p = cluster_id q).
Proof.
  destruct (slot_occupation_unique plain_fs (beat_grid 5) 0 100 0 0 "inode")
    as [Horiginal Hclusters].
  split.
  - eexists _, _. split; [vm_compute; reflexivity|].
    apply (Horiginal pressured_photos _ []). vm_compute. reflexivity.
  - eexists _, _. split; [vm_compute; reflexivity|].
    apply (Hclusters
             (cluster_photos_by_minimum_gap pressured_photos gap_20_seconds)
             _ []).
    vm_compute. reflexivity.
Defined.


(** ** Co-location *)

Lemma for_each_prefix_invariant {S A} (P : list A -> S -> Prop)
    (body : S -> A -> outcome S) (l : list A) :
  (forall pre x suf st st',
      l = pre ++ x :: suf -> P pre st -> body st x = Returned st' ->
      P (pre ++ [x]) st') ->
  forall st st', P [] st -> for_each body st l = Returned st' -> P l st'.
Proof.
  intros Hstep.
  assert (forall rest pre st st',
             l = pre ++ rest -> P pre st ->
             for_each body st rest = Returned st' -> P l st') as Hgen.
  { induction rest as [|x rest IH]; intros pre st st' Hl HP Hrun; simpl in Hrun.
    - simplify_eq. by rewrite app_nil_r.
    - destruct (body st x) as [st1|e] eqn:Hx; [|discriminate].
      apply (IH (pre ++ [x]) st1 st'); [by rewrite <- app_assoc| |done].
      by eapply Hstep. }
  intros st st'. by apply (Hgen l []).
Qed.

Lemma enumerate_indices_NoDup {A} (l : list A) : NoDup (map fst (enumerate l)).
Proof.
  unfold enumerate.
  change (map fst (imap (fun i x => (Z.of_nat i, x)) l))
    with (fst <$> imap (fun i (x : A) => (Z.of_nat i, x)) l).
  rewrite fmap_imap.
  change (NoDup (imap (fun (j : nat) (_ : A) => Z.of_nat j) l)).
  rewrite (imap_seq_0 l Z.of_nat).
  apply NoDup_fmap_2; [apply Nat2Z.inj'|apply NoDup_seq].
Qed.

Lemma List_filter_sublist {A} (f : A -> bool) (l : list A) :
  List.filter f l `sublist_of` l.
Proof.
  induction l as [|x l IH]; simpl; [done|].
  destruct (f x); by constructor.
Qed.

(** In a list of lists whose elements have pairwise distinct keys,
    elements of different rows have different keys. *)
Lemma concat_keys_distinct {A K} (key : A -> K) (ls : list (list A)) i j l1 l2 x y :
  NoDup (map key (concat ls)) ->
  ls !! i = Some l1 -> ls !! j = Some l2 -> i <> j ->
  x ∈ l1 -> y ∈ l2 -> key x <> key y.
Proof.
  assert (forall ls i j l1 l2 x y,
             NoDup (map key (concat ls)) ->
             ls !! i = Some l1 -> ls !! j = Some l2 -> (i < j)%nat ->
             x ∈ l1 -> y ∈ l2 -> key x <> key y) as Hlt.
  { clear. intros ls. induction ls as [|l0 ls IH];
      intros i j l1 l2 x y Hnd Hi Hj Hij Hx Hy; [done|].
    simpl in Hnd. rewrite map_app in Hnd.
    apply NoDup_app in Hnd as (_ & Hdisj & Hnd).
    destruct i as [|i]; destruct j as [|j]; try lia; simpl in *; simplify_eq.
    - intros Heq. apply (Hdisj (key x)).
      + apply list_elem_of_fmap. eauto.
      + rewrite Heq. apply list_elem_of_fmap. exists y. split; [done|].
        apply elem_of_concat. exists l2. split; [done|].
        by eapply list_elem_of_lookup_2.
    - eapply (IH i j); eauto. lia. }
  intros Hnd Hi Hj Hij Hx Hy.
  destruct (decide (i < j)%nat).
  - by eapply (Hlt ls i j).
  - intros Heq. eapply (Hlt ls j i l2 l1 y x); eauto. lia.
Qed.

Lemma cluster_has_anchored_false pls idx :
  cluster_has_anchored pls idx = false ->
  forall p, p ∈ pls -> is_anchored p = true -> cluster_id p <> Some idx.
Proof.
  unfold cluster_has_anchored. intros Hno p Hp Ha Hid.
  assert (existsb (fun p => bool_decide (cluster_id p = Some idx) && is_anchored p)
            pls = true) as Hyes; [|congruence].
  apply existsb_exists. exists p. split; [by apply list_elem_of_In|].
  rewrite Ha, andb_true_r. by apply bool_decide_eq_true.
Qed.

Section colocation.
Context (fs : FileSystem).

Lemma place_anchored_cluster_photo_cases beats so eo id_method idx st ph st' :
  place_anchored_cluster_photo fs beats so eo id_method idx st ph = Returned st' ->
  placements st' = placements st
  \/ exists b, placements st' =
       placements st
       ++ [new_placement fs id_method (photo_path ph) (photo_date ph) b true
             (Some idx)].
Proof.
  unfold place_anchored_cluster_photo. intros H.
  destruct (photo_anchor ph) as [anchor|]; [|left; by simplify_eq].
  destruct (in_effective_range _ _ _ _); [|left; by simplify_eq].
  outcome_inv H. destruct a; [left; by simplify_eq|].
  apply occupy_and_place_inv in H as (_ & Hpl & _). right. eauto.
Qed.

(** After the first pass every placement is anchored and is the placement
    of a member of the cluster whose index it carries. *)
Lemma anchored_pass_in_clusters beats so eo id_method clusters st1 :
  for_each (place_anchored_cluster fs beats so eo id_method)
    (initial_state beats) (enumerate clusters) = Returned st1 ->
  anchored_in_clusters clusters (placements st1).
Proof.
  intros Hrun.
  eapply (for_each_invariant
            (fun st => anchored_in_clusters clusters (placements st)));
    [| |exact Hrun].
  - intros st [i c] st' Hic Hinv Hstep. unfold place_anchored_cluster in Hstep.
    simpl in Hstep. apply elem_of_enumerate in Hic as (n & -> & Hn).
    eapply (for_each_invariant
              (fun st => anchored_in_clusters clusters (placements st)));
      [|exact Hinv|exact Hstep].
    intros st0 ph st0' Hph Hinv0 Hph_step.
    apply place_anchored_cluster_photo_cases in Hph_step as [->|[b ->]];
      [done|].
    intros p Hp. apply elem_of_app in Hp as [Hp|Hp]; [by apply Hinv0|].
    apply list_elem_of_singleton in Hp as ->. split; [done|].
    exists n, c, ph. done.
  - intros p Hp. by apply elem_of_nil in Hp.
Qed.

(** When no anchored placement has the path of a member, the inner loop
    of the second pass places every member. *)
Lemma place_cluster_members_all id_method idx b members st :
  (forall p ph, p ∈ placements st -> is_anchored p = true -> ph ∈ members ->
                path (asset p) <> photo_path ph) ->
  placements (foldl (place_cluster_member fs id_method idx b) st members)
  = placements st ++ map (member_placement fs id_method idx b) members.
Proof.
  revert st. induction members as [|ph members IH]; intros st Hclash; simpl.
  - by rewrite app_nil_r.
  - assert (place_cluster_member fs id_method idx b st ph
            = append_placement (member_placement fs id_method idx b ph) st)
      as ->.
    { unfold place_cluster_member.
      destruct (existsb _ _) eqn:Hex; [|done].
      apply existsb_exists in Hex as (p & Hp & Hpath).
      apply andb_true_iff in Hpath as [Hpath Ha].
      apply bool_decide_eq_true in Hpath. apply list_elem_of_In in Hp.
      exfalso. eapply Hclash; [exact Hp|exact Ha|by left|exact Hpath]. }
    rewrite IH; simpl; [by rewrite <- app_assoc|].
    intros p ph' Hp Ha Hph'. apply elem_of_app in Hp as [Hp|Hp].
    + apply Hclash; [done..|by right].
    + apply list_elem_of_singleton in Hp as ->. discriminate.
Qed.

Lemma distribute_cluster_cases beats sd ts so eo n id_method st ic st' :
  distribute_cluster fs beats sd ts so eo n id_method st ic = Returned st' ->
  st' = st
  \/ exists b occ,
       st' = foldl (place_cluster_member fs id_method ic.1 b)
               {| beat_occupied := occ; placements := placements st;
                  anchored_count := anchored_count st;
                  warnings := warnings st |}
               (photos ic.2).
Proof.
  unfold distribute_cluster. intros H.
  outcome_inv H. outcome_inv H. outcome_inv H.
  destruct a1; [left; by simplify_eq|]. outcome_inv H. simplify_eq.
  right. eauto.
Qed.

Lemma elem_of_member_placements id_method idx b members p :
  p ∈ map (member_placement fs id_method idx b) members <->
  exists ph, ph ∈ members /\ p = member_placement fs id_method idx b ph.
Proof.
  split.
  - intros Hp. apply list_elem_of_fmap in Hp as (ph & -> & Hph). eauto.
  - intros (ph & Hph & ->). apply list_elem_of_fmap. eauto.
Qed.

(** One step of the second pass keeps [chrono_inv]. *)
Lemma distribute_cluster_chrono beats sd ts so eo n id_method clusters pls1
    done x st st' :
  anchored_in_clusters clusters pls1 ->
  NoDup (map photo_path (cluster_members clusters)) ->
  (exists k, x.1 = Z.of_nat k /\ clusters !! k = Some x.2) ->
  cluster_has_anchored pls1 x.1 = false ->
  x.1 ∉ map fst done ->
  chrono_inv pls1 done st ->
  distribute_cluster fs beats sd ts so eo n id_method st x = Returned st' ->
  chrono_inv pls1 (done ++ [x]) st'.
Proof.
  intros Hpls1 Hpaths (k & Hk & Hxk) Hunassigned Hfresh (J1 & J2 & J3) Hstep.
  assert (forall p, p ∈ placements st -> is_anchored p = false ->
                    cluster_id p <> Some x.1) as Hnone.
  { intros p Hp Ha Hid. destruct (J2 p Hp Ha) as (ic & Hic & Hid').
    apply Hfresh. apply list_elem_of_fmap. exists ic. split; [congruence|done]. }
  apply distribute_cluster_cases in Hstep as [->|(b & occ & ->)].
  - split_and!.
    + done.
    + intros p Hp Ha. destruct (J2 p Hp Ha) as (ic & Hic & Hid).
      exists ic. split; [apply elem_of_app; by left|done].
    + intros ic p0 Hic Hp0 Hid Ha. apply elem_of_app in Hic as [Hic|Hic].
      * by apply J3.
      * apply list_elem_of_singleton in Hic as ->. by destruct (Hnone p0 Hp0 Ha).
  - match goal with |- chrono_inv _ _ (foldl _ ?s _) => set (st0 := s) end.
    assert (placements
              (foldl (place_cluster_member fs id_method x.1 b) st0 (photos x.2))
            = placements st
              ++ map (member_placement fs id_method x.1 b) (photos x.2)) as Hpl.
    { apply (place_cluster_members_all id_method x.1 b (photos x.2) st0).
      simpl. intros p ph Hp Ha Hph.
      destruct (Hpls1 p (J1 p Hp Ha)) as (_ & k' & c' & ph' & Hk' & Hid & Hph' & ->).
      assert (k' <> k) as Hne.
      { intros ->. eapply cluster_has_anchored_false; eauto. by rewrite Hk. }
      eapply (concat_keys_distinct photo_path (map photos clusters) k' k);
        [exact Hpaths| | |exact Hne|exact Hph'|exact Hph].
      - change (map photos clusters) with (photos <$> clusters).
        by rewrite list_lookup_fmap, Hk'.
      - change (map photos clusters) with (photos <$> clusters).
        by rewrite list_lookup_fmap, Hxk. }
    unfold chrono_inv. rewrite Hpl. split_and!.
    + intros p Hp Ha. apply elem_of_app in Hp as [Hp|Hp]; [by apply J1|].
      apply elem_of_member_placements in Hp as (ph & _ & ->). discriminate.
    + intros p Hp Ha. apply elem_of_app in Hp as [Hp|Hp].
      * destruct (J2 p Hp Ha) as (ic & Hic & Hid).
        exists ic. split; [apply elem_of_app; by left|done].
      * apply elem_of_member_placements in Hp as (ph & _ & ->).
        exists x. split; [apply elem_of_app; right; by left|done].
    + intros ic p0 Hic Hp0 Hid Ha.
      apply elem_of_app in Hic as [Hic|Hic].
      * assert (ic.1 <> x.1) as Hne.
        { intros Heq. apply Hfresh. rewrite <- Heq.
          apply list_elem_of_fmap. eauto. }
        apply elem_of_app in Hp0 as [Hp0|Hp0].
        -- destruct (J3 ic p0 Hic Hp0 Hid Ha) as [Hall Hsame]. split.
           ++ intros ph Hph. destruct (Hall ph Hph) as (p & Hp & Hrest).
              exists p. split; [apply elem_of_app; by left|done].
           ++ intros p Hp Hidp Hap. apply elem_of_app in Hp as [Hp|Hp];
                [by apply Hsame|].
              apply elem_of_member_placements in Hp as (ph & _ & ->).
              simpl in Hidp. congruence.
        -- apply elem_of_member_placements in Hp0 as (ph & _ & ->).
           simpl in Hid. congruence.
      * apply list_elem_of_singleton in Hic as ->.
        apply elem_of_app in Hp0 as [Hp0|Hp0]; [by destruct (Hnone p0 Hp0 Ha)|].
        apply elem_of_member_placements in Hp0 as (ph0 & _ & ->). simpl. split.
        -- intros ph Hph. exists (member_placement fs id_method x.1 b ph).
           split; [|done]. apply elem_of_app. right.
           apply elem_of_member_placements. eauto.
        -- intros p Hp Hidp Hap. apply elem_of_app in Hp as [Hp|Hp];
             [by destruct (Hnone p Hp Hap)|].
           by apply elem_of_member_placements in Hp as (ph & _ & ->).
Qed.
End colocation.

Lemma filter_keys_NoDup {A K} (key : A -> K) (f : A -> bool) (l : list A) :
  NoDup (map key l) -> NoDup (map key (List.filter f l)).
Proof.
  induction l as [|x l IH]; simpl; [done|].
  intros Hnd. apply NoDup_cons in Hnd as [Hx Hnd].
  destruct (f x); simpl; [|by apply IH].
  apply NoDup_cons. split; [|by apply IH].
  intros Hin. apply Hx.
  apply list_elem_of_fmap in Hin as (y & Hy & Hin).
  apply elem_of_List_filter in Hin as [Hin _].
  apply list_elem_of_fmap. eauto.
Qed.

(** C7 (cluster co-location), as the code has it.  In a run that returns,
    over clusters whose members have pairwise distinct paths, a cluster
    that the chronological pass has placed (it has a placement that is not
    anchored) has a placement for every one of its members, and all the
    placements that carry its index are at that one slot and not
    anchored. *)
Theorem chronological_cluster_colocated (fs : FileSystem)
    (clusters : list PhotoCluster) (beats : list BeatInfo)
    (start_date end_date : datetime) (start_offset end_offset : Z)
    (id_method : string) (pls : list PhotoPlacement) (ws : list Warning) :
  map_photo_clusters_to_beats fs clusters beats start_date end_date
    start_offset end_offset id_method = Returned (pls, ws) ->
  NoDup (map photo_path (cluster_members clusters)) ->
  forall (n : nat) (c : PhotoCluster) (p0 : PhotoPlacement),
    clusters !! n = Some c -> p0 ∈ pls ->
    cluster_id p0 = Some (Z.of_nat n) -> is_anchored p0 = false ->
    (forall ph, ph ∈ photos c ->
                member_placed pls (Z.of_nat n) (beat_index p0) ph)
    /\ (forall p, p ∈ pls -> cluster_id p = Some (Z.of_nat n) ->
                  beat_index p = beat_index p0 /\ is_anchored p = false).
Proof.
  intros Hrun Hpaths n c p0 Hn Hp0 Hid Ha.
  unfold map_photo_clusters_to_beats in Hrun.
  destruct (_ <=? 0); [discriminate|].
  destruct (_ <? _); [discriminate|].
  outcome_inv Hrun as st1 Hpass1. outcome_inv Hrun as st2 Hpass2.
  simplify_eq. apply elem_of_sorted in Hp0.
  pose proof (anchored_pass_in_clusters fs _ _ _ _ _ _ Hpass1) as Hpls1.
  set (unassigned :=
         List.filter
           (fun ic => negb (cluster_has_anchored (placements st1) ic.1))
           (enumerate clusters)) in *.
  assert (forall ic, ic ∈ unassigned ->
            (exists k, ic.1 = Z.of_nat k /\ clusters !! k = Some ic.2)
            /\ cluster_has_anchored (placements st1) ic.1 = false) as Hun.
  { intros [i c'] Hic. apply elem_of_List_filter in Hic as [Hic Hno].
    apply elem_of_enumerate in Hic as (k & -> & Hk).
    split; [eauto|]. by apply negb_true_iff in Hno. }
  assert (chrono_inv (placements st1) unassigned st2) as (J1 & J2 & J3).
  { eapply (for_each_prefix_invariant (chrono_inv (placements st1)));
      [| |exact Hpass2].
    - intros pre x suf st st' Hsplit Hinv Hstep.
      assert (x ∈ unassigned) as Hx
        by (rewrite Hsplit; apply elem_of_app; right; by left).
      destruct (Hun x Hx) as [Hk Hno].
      eapply distribute_cluster_chrono; eauto.
      assert (NoDup (map fst unassigned)) as Hnd
        by apply filter_keys_NoDup, enumerate_indices_NoDup.
      rewrite Hsplit, map_app in Hnd. apply NoDup_app in Hnd as (_ & Hdisj & _).
      intros Hin. apply (Hdisj _ Hin). by left.
    - split_and!.
      + done.
      + intros p Hp Hap. destruct (Hpls1 p Hp) as [Hap' _]. congruence.
      + intros ic p1 Hic. by apply elem_of_nil in Hic. }
  destruct (J2 p0 Hp0 Ha) as (ic & Hic & Hid').
  destruct (Hun ic Hic) as [(k & Hk & Hck) Hno].
  assert (k = n) as -> by (apply Nat2Z.inj; congruence).
  assert (ic.2 = c) as Hc by congruence.
  assert (ic.1 = Z.of_nat n) as Hi by congruence.
  destruct (J3 ic p0 Hic Hp0 Hid' Ha) as [Hall Hsame].
  rewrite Hc, Hi in *. split.
  - intros ph Hph. destruct (Hall ph Hph) as (p & Hp & Hrest).
    exists p. split; [by apply elem_of_sorted|done].
  - intros p Hp Hidp. apply elem_of_sorted in Hp.
    destruct (is_anchored p) eqn:Hap.
    + exfalso. eapply cluster_has_anchored_false; eauto.
    + split; [by apply Hsame|done].
Qed.

Lemma chronological_cluster_colocated_witness :
  exists pls ws p0,
    map_photo_clusters_to_beats plain_fs plain_clusters (beat_grid 5) 0 100 0 0
      "inode" = Returned (pls, ws)
    /\ p0 ∈ pls /\ cluster_id p0 = Some 0
    /\ (forall ph, ph ∈ [photo "a" 10 None; photo "b" 20 None] ->
                   member_placed pls 0 (beat_index p0) ph)
    /\ (forall p, p ∈ pls -> cluster_id p = Some 0 ->
                  beat_index p = beat_index p0 /\ is_anchored p = false).
Proof.
  eexists _, _, (member_placement plain_fs "inode" 0 0 (photo "a" 10 None)).
  split; [vm_compute; reflexivity|].
  split; [apply elem_of_cons; left; reflexivity|].
  split; [reflexivity|].
  apply (chronological_cluster_colocated plain_fs plain_clusters (beat_grid 5)
           0 100 0 0 "inode" _ [] ltac:(vm_compute; reflexivity)
           ltac:(apply (bool_decide_unpack _); vm_compute; exact I)
           0%nat (make_cluster [photo "a" 10 None; photo "b" 20 None])).
  - reflexivity.
  - apply elem_of_cons. left. reflexivity.
  - reflexivity.
  - reflexivity.
Defined.

(** C7, counterexample to the claim as stated.  A cluster whose two
    members are pinned to beats 1 and 3 is satisfied by its pins, and its
    two placements are at slots 0 and 2. *)
Lemma pinned_members_keep_their_own_slots :
  exists pls ws,
    map_photo_clusters_to_beats plain_fs [two_pins_cluster] (beat_grid 5)
      0 100 0 0 "inode" = Returned (pls, ws)
    /\ summary pls = [("x", 0, true, Some 0); ("y", 2, true, Some 0)]
    /\ ~ (forall p q, p ∈ pls -> q ∈ pls ->
            cluster_id p = Some 0 -> cluster_id q = Some 0 ->
            beat_index p = beat_index q).
Proof.
  eexists _, _. split; [vm_compute; reflexivity|]. split; [reflexivity|].
  intros Hsame.
  specialize (Hsame (new_placement plain_fs "inode" "x" 10 0 true (Some 0))
                (new_placement plain_fs "inode" "y" 20 2 true (Some 0))).
  discriminate Hsame; try reflexivity.
  - by left.
  - right. by left.
Qed.

(** What the first pass leaves of a cluster with one pinned member: the
    cluster is exempt from the second pass, and the member without a pin
    gets no placement. *)
Example pinned_cluster_other_member :
  exists pls ws,
    map_photo_clusters_to_beats plain_fs [pin_and_plain_cluster] (beat_grid 5)
      0 100 0 0 "inode" = Returned (pls, ws)
    /\ summary pls = [("x", 0, true, Some 0)].
Proof. eexists _, _. split; [vm_compute; reflexivity|reflexivity]. Qed.


(** * Further properties of the code *)

(** ** Sorting *)

Section sorted_order.
Context {A : Type} (lt : A -> A -> bool).
Hypothesis lt_asym : forall x y, lt x y = true -> lt y x = false.
Hypothesis lt_negtrans : forall x y z,
    lt y x = false -> lt z y = false -> lt z x = false.

Lemma sorted_insert_sorted x l :
  StronglySorted (not_after lt) l ->
  StronglySorted (not_after lt) (sorted_insert lt x l).
Proof.
  induction 1 as [|y l Hl IH Hy]; simpl.
  - repeat constructor.
  - destruct (lt y x) eqn:Hyx.
    + constructor; [done|].
      apply Forall_forall. intros z Hz.
      rewrite (sorted_insert_Permutation lt x l) in Hz.
      apply elem_of_cons in Hz as [->|Hz].
      * by apply lt_asym.
      * rewrite Forall_forall in Hy. by apply Hy.
    + constructor; [by constructor|].
      constructor; [done|].
      apply Forall_forall. intros z Hz. rewrite Forall_forall in Hy.
      eapply lt_negtrans; [exact Hyx|]. by apply Hy.
Qed.

Lemma sorted_is_sorted l : StronglySorted (not_after lt) (sorted lt l).
Proof.
  induction l as [|x l IH]; simpl; [constructor|].
  by apply sorted_insert_sorted.
Qed.
End sorted_order.

Lemma Permutation_concat {A} (l1 l2 : list (list A)) :
  l1 ≡ₚ l2 -> concat l1 ≡ₚ concat l2.
Proof.
  induction 1 as [|x l1 l2 _ IH|x y l|l1 l2 l3 _ IH1 _ IH2]; simpl.
  - done.
  - by rewrite IH.
  - rewrite !app_assoc. f_equiv. apply Permutation_app_comm.
  - by rewrite IH1.
Qed.

(** ** Clustering keeps every photo *)

Lemma group_append_concat groups key ph :
  concat (map snd (group_append groups key ph))
  ≡ₚ concat (map snd groups) ++ [ph].
Proof.
  induction groups as [|[k g] groups IH]; simpl; [done|].
  case_bool_decide; simpl.
  - rewrite <- !app_assoc. f_equiv. apply Permutation_app_comm.
  - by rewrite IH, app_assoc.
Qed.

Lemma period_groups_concat (key_of : PhotoMetadata -> datetime) ps groups :
  concat (map snd
            (foldl (fun groups ph => group_append groups (key_of ph) ph)
               groups ps))
  ≡ₚ concat (map snd groups) ++ ps.
Proof.
  revert groups. induction ps as [|ph ps IH]; intros groups; simpl.
  - by rewrite app_nil_r.
  - rewrite IH, group_append_concat, <- app_assoc. done.
Qed.

Lemma omap_nonempty_groups_photos (groups : list (datetime * list PhotoMetadata)) :
  Forall (fun kg => kg.2 <> []) groups ->
  map photos
    (omap (fun '(_, group_photos) =>
             match group_photos with
             | [] => None
             | _ => Some (make_cluster group_photos)
             end) groups)
  = map snd groups.
Proof.
  induction 1 as [|[k g] groups Hg _ IH]; [done|].
  destruct g; [done|]. exact (f_equal (cons _) IH).
Qed.

Lemma same_period_members_Permutation ps time_gap :
  cluster_members (cluster_photos_by_same_period ps time_gap) ≡ₚ ps.
Proof.
  unfold cluster_members, cluster_photos_by_same_period.
  destruct (period_groups_nonempty
              (fun ph => normalize_to_period_start (photo_date ph)
                           (unit time_gap)) ps []) as [Hall _];
    [constructor|].
  cbv zeta in Hall. set (groups := foldl _ [] ps) in *.
  rewrite (Permutation_concat _ _
             (Permutation_map photos (sorted_Permutation lt_start_date _))).
  rewrite (omap_nonempty_groups_photos groups Hall).
  unfold groups. by rewrite period_groups_concat.
Qed.

(** X1.  Clustering neither drops nor invents a photo: in every mode the
    members of the clusters, taken together, are a rearrangement of the
    input list; without same-period grouping the clusters, read in order,
    are the input list itself. *)
Theorem clustering_keeps_every_photo (ps : list PhotoMetadata) (time_gap : TimeGap) :
  cluster_members (cluster_photos_by_time_gap ps time_gap) ≡ₚ ps
  /\ (same_period_mode time_gap = false \/ amount time_gap = 0 ->
      cluster_members (cluster_photos_by_time_gap ps time_gap) = ps).
Proof.
  assert (cluster_members
            (map (fun ph => {| photos := [ph]; start_date := photo_date ph;
                               end_date := photo_date ph |}) ps) = ps) as Hnone.
  { unfold cluster_members. induction ps as [|ph ps IH]; simpl; [done|].
    by rewrite IH. }
  unfold cluster_photos_by_time_gap. split.
  - destruct (amount time_gap =? 0); [by rewrite Hnone|].
    destruct (same_period_mode time_gap).
    + apply same_period_members_Permutation.
    + by rewrite minimum_gap_members.
  - intros Hmode. destruct (Z.eqb_spec (amount time_gap) 0) as [|Hne]; [done|].
    destruct Hmode as [->|?]; [|done]. apply minimum_gap_members.
Qed.

Lemma clustering_keeps_every_photo_witness :
  cluster_members (cluster_photos_by_time_gap three_photos gap_20_seconds)
  = three_photos.
Proof.
  apply (clustering_keeps_every_photo three_photos gap_20_seconds).
  left. reflexivity.
Defined.


(** ** Same-period grouping *)

Lemma group_append_known (f : datetime -> list PhotoMetadata) ks key ph :
  NoDup ks -> key ∈ ks ->
  group_append (map (fun k => (k, f k)) ks) key ph
  = map (fun k => (k, if bool_decide (k = key) then f k ++ [ph] else f k)) ks.
Proof.
  induction ks as [|k0 ks IH]; intros Hnd Hin; [by apply elem_of_nil in Hin|].
  apply NoDup_cons in Hnd as [Hk0 Hnd]. simpl.
  case_bool_decide as Hk.
  - f_equal. apply map_ext_in. intros k Hk'. apply list_elem_of_In in Hk'.
    rewrite bool_decide_eq_false_2; [done|]. congruence.
  - f_equal. apply IH; [done|].
    apply elem_of_cons in Hin as [?|?]; [congruence|done].
Qed.

Lemma group_append_new (f : datetime -> list PhotoMetadata) ks key ph :
  key ∉ ks ->
  group_append (map (fun k => (k, f k)) ks) key ph
  = map (fun k => (k, f k)) ks ++ [(key, [ph])].
Proof.
  induction ks as [|k0 ks IH]; intros Hin; simpl; [done|].
  apply not_elem_of_cons in Hin as [Hne Hin].
  rewrite bool_decide_eq_false_2 by congruence. by rewrite IH.
Qed.

Lemma photos_of_period_snoc time_gap k processed ph :
  photos_of_period time_gap k (processed ++ [ph])
  = if bool_decide (period_of time_gap ph = k)
    then photos_of_period time_gap k processed ++ [ph]
    else photos_of_period time_gap k processed.
Proof.
  unfold photos_of_period. rewrite List.filter_app. simpl.
  destruct (bool_decide _); [done|by rewrite app_nil_r].
Qed.

Lemma photos_of_period_empty time_gap k ps :
  (forall ph, ph ∈ ps -> period_of time_gap ph <> k) ->
  photos_of_period time_gap k ps = [].
Proof.
  unfold photos_of_period. induction ps as [|ph ps IH]; intros Hno; simpl; [done|].
  rewrite bool_decide_eq_false_2 by (apply Hno; by left).
  apply IH. intros. apply Hno. by right.
Qed.

(** The dict built by the grouping loop: one entry per period met so far,
    in the order of first appearance, holding the photos of that period in
    input order. *)
Lemma period_groups_are_periods time_gap ps processed ks :
  NoDup ks ->
  (forall k, k ∈ ks <-> exists ph, ph ∈ processed /\ period_of time_gap ph = k) ->
  exists ks',
    NoDup ks'
    /\ (forall k, k ∈ ks' <->
                  exists ph, ph ∈ processed ++ ps /\ period_of time_gap ph = k)
    /\ foldl (fun groups ph => group_append groups (period_of time_gap ph) ph)
         (map (fun k => (k, photos_of_period time_gap k processed)) ks) ps
       = map (fun k => (k, photos_of_period time_gap k (processed ++ ps))) ks'.
Proof.
  revert processed ks. induction ps as [|ph ps IH]; intros processed ks Hnd Hks.
  - exists ks. rewrite app_nil_r. done.
  - simpl. set (key := period_of time_gap ph).
    replace (processed ++ ph :: ps) with ((processed ++ [ph]) ++ ps)
      by (by rewrite <- app_assoc).
    destruct (decide (key ∈ ks)) as [Hin|Hin].
    + rewrite group_append_known by done.
      destruct (IH (processed ++ [ph]) ks Hnd) as (ks' & ? & ? & Heq).
      { intros k. rewrite Hks. split.
        - intros (x & Hx & <-). exists x. split; [|done].
          apply elem_of_app. by left.
        - intros (x & Hx & <-). apply elem_of_app in Hx as [Hx|Hx]; [eauto|].
          apply list_elem_of_singleton in Hx as ->. by apply Hks. }
      exists ks'. split_and!; [done..|]. rewrite <- Heq. f_equal.
      apply map_ext. intros k. rewrite photos_of_period_snoc. fold key.
      destruct (decide (k = key)) as [->|Hne].
      * by rewrite !bool_decide_eq_true_2.
      * rewrite !bool_decide_eq_false_2; [done|congruence|done].
    + rewrite group_append_new by done.
      destruct (IH (processed ++ [ph]) (ks ++ [key])) as (ks' & ? & ? & Heq).
      { apply NoDup_app. split_and!; [done| |apply NoDup_singleton].
        intros k Hk Hk'. apply list_elem_of_singleton in Hk' as ->. done. }
      { intros k. rewrite elem_of_app, Hks, list_elem_of_singleton. split.
        - intros [(x & Hx & <-)| ->].
          + exists x. split; [|done]. apply elem_of_app. by left.
          + exists ph. split; [|done]. apply elem_of_app. right. by left.
        - intros (x & Hx & <-). apply elem_of_app in Hx as [Hx|Hx]; [eauto|].
          apply list_elem_of_singleton in Hx as ->. by right. }
      exists ks'. split_and!; [done..|]. rewrite <- Heq. f_equal.
      rewrite map_app. simpl. f_equal.
      * apply map_ext_in. intros k Hk. apply list_elem_of_In in Hk.
        rewrite photos_of_period_snoc. fold key.
        rewrite bool_decide_eq_false_2; [done|]. intros <-. done.
      * rewrite photos_of_period_snoc. fold key.
        rewrite bool_decide_eq_true_2 by done.
        rewrite photos_of_period_empty; [done|].
        intros x Hx Hk. apply Hin, Hks. eauto.
Qed.

(** X2.  Same-period grouping makes one cluster per period that occurs:
    the clusters are, up to their order, the periods of the input without
    repetition, and the cluster of a period holds exactly the input photos
    of that period, in input order. *)
Theorem same_period_clusters_are_periods (ps : list PhotoMetadata)
    (time_gap : TimeGap) :
  exists ks : list datetime,
    NoDup ks
    /\ (forall k, k ∈ ks <-> exists ph, ph ∈ ps /\ period_of time_gap ph = k)
    /\ map photos (cluster_photos_by_same_period ps time_gap)
       ≡ₚ map (fun k => photos_of_period time_gap k ps) ks.
Proof.
  destruct (period_groups_are_periods time_gap ps [] []) as (ks & Hnd & Hks & Heq).
  { constructor. }
  { intros k. split; [intros H; by apply elem_of_nil in H|].
    intros (ph & H & _). by apply elem_of_nil in H. }
  exists ks. split_and!; [done..|].
  unfold cluster_photos_by_same_period.
  rewrite (Permutation_map photos (sorted_Permutation lt_start_date _)).
  change (fun groups ph =>
            group_append groups
              (normalize_to_period_start (photo_date ph) (unit time_gap)) ph)
    with (fun groups ph => group_append groups (period_of time_gap ph) ph).
  simpl in Heq. rewrite Heq.
  rewrite omap_nonempty_groups_photos.
  - rewrite map_map. done.
  - apply Forall_forall. intros [k g] Hkg. simpl.
    apply list_elem_of_fmap in Hkg as (k' & Hkg & Hk'). simplify_eq.
    apply Hks in Hk' as (ph & Hph & Hk). intros Hempty.
    assert (ph ∈ photos_of_period time_gap k' ps) as Hin.
    { apply elem_of_List_filter. split; [done|]. by apply bool_decide_eq_true. }
    simpl in Hempty. rewrite Hempty in Hin. by apply elem_of_nil in Hin.
Qed.


(** ** Cluster dates *)

Lemma foldl_min_le d l : foldl Z.min d l <= d /\ forall x, x ∈ l -> foldl Z.min d l <= x.
Proof.
  revert d. induction l as [|y l IH]; intros d; simpl.
  - split; [lia|]. intros x Hx. by apply elem_of_nil in Hx.
  - destruct (IH (Z.min d y)) as [H1 H2]. split; [lia|].
    intros x Hx. apply elem_of_cons in Hx as [->|Hx]; [lia|by apply H2].
Qed.

Lemma foldl_max_ge d l : d <= foldl Z.max d l /\ forall x, x ∈ l -> x <= foldl Z.max d l.
Proof.
  revert d. induction l as [|y l IH]; intros d; simpl.
  - split; [lia|]. intros x Hx. by apply elem_of_nil in Hx.
  - destruct (IH (Z.max d y)) as [H1 H2]. split; [lia|].
    intros x Hx. apply elem_of_cons in Hx as [->|Hx]; [lia|by apply H2].
Qed.

Lemma foldl_min_in d l : foldl Z.min d l ∈ d :: l.
Proof.
  revert d. induction l as [|y l IH]; intros d; simpl; [by left|].
  specialize (IH (Z.min d y)). apply elem_of_cons in IH as [->|?].
  - destruct (Z.min_spec d y) as [[_ ->]|[_ ->]]; [by left|right; by left].
  - right. by right.
Qed.

Lemma foldl_max_in d l : foldl Z.max d l ∈ d :: l.
Proof.
  revert d. induction l as [|y l IH]; intros d; simpl; [by left|].
  specialize (IH (Z.max d y)). apply elem_of_cons in IH as [->|?].
  - destruct (Z.max_spec d y) as [[_ ->]|[_ ->]]; [right; by left|by left].
  - right. by right.
Qed.

Lemma py_min_max_bounds l x : x ∈ l -> py_min l <= x <= py_max l.
Proof.
  destruct l as [|d l]; [intros H; by apply elem_of_nil in H|]. simpl.
  destruct (foldl_min_le d l) as [? ?], (foldl_max_ge d l) as [? ?].
  intros Hx. apply elem_of_cons in Hx as [->|Hx]; split; auto.
Qed.

Lemma py_min_max_attained l : l <> [] -> py_min l ∈ l /\ py_max l ∈ l.
Proof.
  destruct l as [|d l]; [done|]. intros _. simpl.
  split; [apply foldl_min_in|apply foldl_max_in].
Qed.

(** The clusters of every mode are built by [make_cluster] from a
    non-empty photo list (a singleton cluster is such a cluster). *)
Lemma clusters_are_made ps time_gap c :
  c ∈ cluster_photos_by_time_gap ps time_gap ->
  photos c <> [] /\ c = make_cluster (photos c).
Proof.
  unfold cluster_photos_by_time_gap.
  destruct (amount time_gap =? 0).
  - intros Hc. apply list_elem_of_fmap in Hc as (ph & -> & _). done.
  - destruct (same_period_mode time_gap).
    + unfold cluster_photos_by_same_period. intros Hc.
      apply elem_of_sorted, list_elem_of_omap in Hc as ([k g] & _ & Hsome).
      destruct g; [done|]. by simplify_eq.
    + intros Hc. split.
      * pose proof (cluster_photos_by_minimum_gap_refines ps time_gap) as Href.
        assert (photos c ∈ clusters_by_gap time_gap ps) as Hin.
        { rewrite <- Href. apply list_elem_of_fmap. eauto. }
        destruct ps as [|p0 rest]; simpl in Hin; [by apply elem_of_nil in Hin|].
        destruct (split_at_gaps_spec time_gap p0 rest) as (_ & Hne & _).
        destruct (split_at_gaps time_gap p0 rest) as [joining following].
        simpl in *. apply elem_of_cons in Hin as [->|Hin]; [done|].
        rewrite Forall_forall in Hne. by apply Hne.
      * assert (Forall (fun c => c = make_cluster (photos c))
                  (cluster_photos_by_minimum_gap ps time_gap)) as Hall.
        { destruct ps as [|p0 rest]; simpl; [constructor|].
          by apply minimum_gap_loop_dates. }
        rewrite Forall_forall in Hall. by apply Hall.
Qed.

(** X3.  Every cluster, in every mode, is non-empty and spans exactly its
    members: its start and end dates are dates of members, and every
    member is dated between them. *)
Theorem cluster_spans_its_members (ps : list PhotoMetadata) (time_gap : TimeGap)
    (c : PhotoCluster) :
  c ∈ cluster_photos_by_time_gap ps time_gap ->
  photos c <> []
  /\ (exists ph, ph ∈ photos c /\ photo_date ph = start_date c)
  /\ (exists ph, ph ∈ photos c /\ photo_date ph = end_date c)
  /\ (forall ph, ph ∈ photos c -> start_date c <= photo_date ph <= end_date c).
Proof.
  intros Hc. destruct (clusters_are_made ps time_gap c Hc) as [Hne Hmade].
  assert (map photo_date (photos c) <> []) as Hdates by (by destruct (photos c)).
  destruct (py_min_max_attained _ Hdates) as [Hmin Hmax].
  rewrite Hmade. simpl. split_and!; [done| | |].
  - apply list_elem_of_fmap in Hmin as (ph & ? & ?). eauto.
  - apply list_elem_of_fmap in Hmax as (ph & ? & ?). eauto.
  - intros ph Hph. apply py_min_max_bounds, list_elem_of_fmap. eauto.
Qed.

Lemma cluster_spans_its_members_witness :
  exists c,
    c ∈ cluster_photos_by_time_gap three_photos gap_20_seconds
    /\ start_date c = 0 /\ end_date c = 25000000
    /\ forall ph, ph ∈ photos c -> start_date c <= photo_date ph <= end_date c.
Proof.
  exists (make_cluster three_photos).
  assert (make_cluster three_photos
          ∈ cluster_photos_by_time_gap three_photos gap_20_seconds) as Hc
    by (apply elem_of_cons; left; reflexivity).
  split_and!; [exact Hc|reflexivity|reflexivity|].
  apply (cluster_spans_its_members three_photos gap_20_seconds _ Hc).
Defined.

Lemma StronglySorted_weaken {A} (R R' : A -> A -> Prop) (l : list A) :
  (forall x y, R x y -> R' x y) -> StronglySorted R l -> StronglySorted R' l.
Proof.
  intros HR. induction 1 as [|x l _ IH Hx]; constructor; [done|].
  eapply Forall_impl; [exact Hx|]. intros y. apply HR.
Qed.

(** X4.  Same-period grouping returns its clusters in ascending order of
    start date. *)
Theorem same_period_clusters_ordered (ps : list PhotoMetadata) (time_gap : TimeGap) :
  StronglySorted (fun c1 c2 => start_date c1 <= start_date c2)
    (cluster_photos_by_same_period ps time_gap).
Proof.
  unfold cluster_photos_by_same_period.
  eapply StronglySorted_weaken; [|apply (sorted_is_sorted lt_start_date)].
  - unfold not_after, lt_start_date. intros c1 c2 H. lia.
  - unfold lt_start_date. intros x y H. lia.
  - unfold lt_start_date. intros x y z H1 H2. lia.
Qed.

(** X5.  The representative date of a cluster with members is the date of
    one of them, the one at position [len // 2] of the sorted dates; on a
    cluster without members the subscript raises [IndexError]. *)
Theorem representative_date_is_a_member (c : PhotoCluster) :
  (photos c = [] -> representative_date c = Raised IndexError)
  /\ (photos c <> [] ->
      exists d, representative_date c = Returned d
                /\ (exists ph, ph ∈ photos c /\ photo_date ph = d)
                /\ sorted lt_Z (map photo_date (photos c))
                   !! (length (photos c) / 2)%nat = Some d).
Proof.
  unfold representative_date. split.
  - intros ->. reflexivity.
  - intros Hne.
    set (dates := sorted lt_Z (map photo_date (photos c))).
    assert (length dates = length (photos c)) as Hlen.
    { unfold dates. by rewrite (Permutation_length (sorted_Permutation _ _)),
        length_map. }
    assert (0 < length (photos c))%nat as Hpos
      by (destruct (photos c); [done|simpl; lia]).
    assert (Z.of_nat (length dates) / 2 = Z.of_nat (length (photos c) / 2)) as Hhalf.
    { rewrite Hlen, Nat2Z.inj_div. done. }
    assert (length (photos c) / 2 < length dates)%nat as Hlt.
    { rewrite Hlen. apply Nat.div_lt; lia. }
    destruct (lookup_lt_is_Some_2 dates _ Hlt) as [d Hd].
    exists d. split_and!.
    + unfold py_getitem, py_index. rewrite Hhalf.
      rewrite bool_decide_eq_true_2 by lia.
      rewrite Nat2Z.id. cbn -[Nat.div]. fold dates. by rewrite Hd.
    + apply list_elem_of_lookup_2 in Hd. unfold dates in Hd.
      rewrite sorted_Permutation in Hd.
      apply list_elem_of_fmap in Hd as (ph & ? & ?). eauto.
    + done.
Qed.

Lemma representative_date_is_a_member_witness :
  representative_date {| photos := []; start_date := 0; end_date := 0 |}
  = Raised IndexError
  /\ exists d, representative_date (make_cluster three_photos) = Returned d
               /\ exists ph, ph ∈ three_photos /\ photo_date ph = d.
Proof.
  split.
  - apply (representative_date_is_a_member
             {| photos := []; start_date := 0; end_date := 0 |}).
    reflexivity.
  - destruct (representative_date_is_a_member (make_cluster three_photos))
      as [_ H].
    destruct H as (d & Hd & Hph & _); [discriminate|]. eauto.
Defined.


(** ** Time arithmetic *)

Lemma unit_microseconds_pos u : 0 < unit_microseconds u.
Proof. destruct u; reflexivity. Qed.

(** X6.  The time difference does not depend on the order of the two
    dates.  When the dates are less than [2^53] microseconds (some 285
    years) apart, it is never negative and is the number of whole units
    in the absolute difference: [k] units fit and [k + 1] units do not. *)
Theorem calculate_time_delta_truncates (date1 date2 : datetime) (u : TimeUnit) :
  Z.abs (date2 - date1) < 2 ^ 53 ->
  let k := calculate_time_delta date1 date2 u in
  k = calculate_time_delta date2 date1 u
  /\ 0 <= k
  /\ k * unit_microseconds u <= Z.abs (date2 - date1)
     < (k + 1) * unit_microseconds u.
Proof.
  intros Hsmall. pose proof (unit_microseconds_pos u) as Hpos. cbv zeta.
  split; [apply calculate_time_delta_sym|].
  rewrite calculate_time_delta_exact by done. split; [|split].
  - apply Z.div_pos; lia.
  - rewrite Z.mul_comm. apply Z.mul_div_le. lia.
  - pose proof (Z.mul_succ_div_gt (Z.abs (date2 - date1)) _ Hpos). lia.
Qed.

Lemma calculate_time_delta_truncates_witness :
  let k := calculate_time_delta 0 119999999 MINUTE in
  k = calculate_time_delta 119999999 0 MINUTE
  /\ 0 <= k
  /\ k * unit_microseconds MINUTE <= Z.abs (119999999 - 0)
     < (k + 1) * unit_microseconds MINUTE.
Proof.
  apply (calculate_time_delta_truncates 0 119999999 MINUTE).
  vm_compute. reflexivity.
Defined.

(** Beyond that span the float of the seconds is rounded before it is
    truncated: 19999999999.999999 seconds count as 20000000000. *)
Example time_delta_rounds_on_long_spans :
  calculate_time_delta 0 19999999999999999 SECOND = 20000000000
  /\ Z.abs (19999999999999999 - 0) / unit_microseconds SECOND = 19999999999.
Proof. split; vm_compute; reflexivity. Qed.

Lemma floor_to_spec d step :
  0 < step ->
  floor_to d step <= d < floor_to d step + step
  /\ floor_to (floor_to d step) step = floor_to d step
  /\ (floor_to d step) mod step = 0.
Proof.
  intros Hstep. unfold floor_to.
  pose proof (Z.mod_pos_bound d step Hstep).
  assert ((d - d mod step) mod step = 0) as Hmod.
  { rewrite Zminus_mod, Zmod_mod, Z.sub_diag. apply Zmod_0_l. }
  split_and!; [lia..| |done]. rewrite Hmod. lia.
Qed.

Lemma floor_to_mono d d' step :
  0 < step -> d <= d' -> floor_to d step <= floor_to d' step.
Proof.
  intros Hstep Hle. unfold floor_to.
  pose proof (Z.div_mod d step ltac:(lia)).
  pose proof (Z.div_mod d' step ltac:(lia)).
  pose proof (Z.div_le_mono d d' step Hstep Hle). nia.
Qed.

Lemma normalize_fixed_length d u :
  fixed_length_unit u = true ->
  normalize_to_period_start d u = floor_to d (unit_microseconds u).
Proof. destruct u; try discriminate; intros _; reflexivity. Qed.

(** X7.  For the units of fixed length (second to week) the start of the
    period of a date is the last multiple of the unit at or before it:
    it is at most one unit before the date, normalising it again changes
    nothing, and a later date never gets an earlier period. *)
Theorem normalize_to_period_start_fixed_units (d d' : datetime) (u : TimeUnit) :
  fixed_length_unit u = true ->
  let start := normalize_to_period_start d u in
  start <= d < start + unit_microseconds u
  /\ start mod unit_microseconds u = 0
  /\ normalize_to_period_start start u = start
  /\ (d <= d' -> start <= normalize_to_period_start d' u).
Proof.
  intros Hu. simpl. rewrite !normalize_fixed_length by done.
  pose proof (unit_microseconds_pos u) as Hpos.
  destruct (floor_to_spec d (unit_microseconds u) Hpos) as (? & ? & ?).
  split_and!; [lia|lia|done|done|].
  intros Hle. by apply floor_to_mono.
Qed.

Lemma normalize_to_period_start_fixed_units_witness :
  normalize_to_period_start 63840045782000017 DAY <= 63840045782000017
  /\ normalize_to_period_start (normalize_to_period_start 63840045782000017 DAY)
       DAY = normalize_to_period_start 63840045782000017 DAY.
Proof.
  destruct (normalize_to_period_start_fixed_units 63840045782000017
              63840045782000017 DAY) as (H1 & _ & H2 & _); [reflexivity|].
  split; [lia|exact H2].
Defined.


(** ** The nearest-free-beat search *)

Lemma search_loop_first_usable beats so eo occupied preferred r0 fuel b :
  search_loop beats so eo occupied preferred r0 fuel = Returned b ->
  (b = preferred
   /\ forall r, r0 < r <= r0 + Z.of_nat fuel ->
                ~ usable beats so eo occupied (candidate_at preferred r))
  \/ (exists r, r0 < r <= r0 + Z.of_nat fuel
                /\ b = candidate_at preferred r
                /\ usable beats so eo occupied b
                /\ forall r', r0 < r' < r ->
                     ~ usable beats so eo occupied (candidate_at preferred r')).
Proof.
  revert r0. induction fuel as [|fuel IH]; intros r0 Hrun.
  - simpl in Hrun. simplify_eq. left. split; [done|]. intros r Hr. lia.
  - cbn [search_loop] in Hrun.
    change (if (r0 + 1) mod 2 =? 1
            then preferred - ((r0 + 1) / 2 + 1)
            else preferred + (r0 + 1) / 2)
      with (candidate_at preferred (r0 + 1)) in Hrun.
    set (c := candidate_at preferred (r0 + 1)) in *.
    assert (~ usable beats so eo occupied c ->
            search_loop beats so eo occupied preferred (r0 + 1) fuel = Returned b ->
            (b = preferred
             /\ forall r, r0 < r <= r0 + Z.of_nat (S fuel) ->
                  ~ usable beats so eo occupied (candidate_at preferred r))
            \/ (exists r, r0 < r <= r0 + Z.of_nat (S fuel)
                  /\ b = candidate_at preferred r
                  /\ usable beats so eo occupied b
                  /\ forall r', r0 < r' < r ->
                       ~ usable beats so eo occupied (candidate_at preferred r')))
      as Hnext.
    { intros Hc Hrest. destruct (IH (r0 + 1) Hrest) as [[-> Hno]|(r & Hr & -> & Hu & Hno)].
      - left. split; [done|]. intros r Hr.
        destruct (decide (r = r0 + 1)) as [->|?]; [exact Hc|]. apply Hno. lia.
      - right. exists r. split; [lia|]. split; [done|]. split; [exact Hu|].
        intros r' Hr'. destruct (decide (r' = r0 + 1)) as [->|?]; [exact Hc|].
        apply Hno. lia. }
    destruct (in_effective_range beats so eo c) eqn:Hrange.
    + destruct (py_getitem occupied c) as [[|]|e] eqn:Hocc; [| |discriminate].
      * apply Hnext; [|done]. intros [_ Hfree]. congruence.
      * simplify_eq. right. exists (r0 + 1).
        split; [lia|]. split; [done|]. split; [by split|].
        intros r' Hr'. lia.
    + apply Hnext; [|done]. intros [Hin _]. congruence.
Qed.

Lemma candidate_at_layout preferred k :
  1 <= k ->
  candidate_at preferred (2 * k - 1) = preferred - k
  /\ candidate_at preferred (2 * k) = preferred + k.
Proof.
  intros Hk. unfold candidate_at. split.
  - replace ((2 * k - 1) mod 2) with 1 by (apply (Z.mod_unique_pos _ _ (k - 1)); lia).
    replace ((2 * k - 1) / 2) with (k - 1) by (apply (Z.div_unique_pos _ _ _ 1); lia).
    simpl. lia.
  - replace ((2 * k) mod 2) with 0 by (apply (Z.mod_unique_pos _ _ k); lia).
    replace (2 * k / 2) with k by (apply (Z.div_unique_pos _ _ _ 0); lia).
    simpl. lia.
Qed.

(** X8.  The search for a beat keeps the preferred beat when it is free.
    Otherwise it walks the candidates of radius 1, 2, ... up to the number
    of effective beats (radius [2k - 1] is [k] beats to the left, radius
    [2k] is [k] beats to the right, so the left neighbour is tried before
    the right one) and returns the first candidate that is inside the
    effective range and free; when no candidate within that radius is, it
    returns the occupied preferred beat. *)
Theorem nearest_free_beat_search (beats : list BeatInfo)
    (start_offset end_offset : Z) (occupied : list bool)
    (preferred num_effective_beats b : Z) :
  find_nearest_beat beats start_offset end_offset occupied preferred
    num_effective_beats = Returned b ->
  (forall k, 1 <= k ->
             candidate_at preferred (2 * k - 1) = preferred - k
             /\ candidate_at preferred (2 * k) = preferred + k)
  /\ ((py_getitem occupied preferred = Returned false /\ b = preferred)
      \/ (py_getitem occupied preferred = Returned true
          /\ ((b = preferred
               /\ forall r, 1 <= r <= num_effective_beats ->
                    ~ usable beats start_offset end_offset occupied
                        (candidate_at preferred r))
              \/ exists r, 1 <= r <= num_effective_beats
                   /\ b = candidate_at preferred r
                   /\ usable beats start_offset end_offset occupied b
                   /\ forall r', 1 <= r' < r ->
                        ~ usable beats start_offset end_offset occupied
                            (candidate_at preferred r')))).
Proof.
  intros Hrun. split; [apply candidate_at_layout|].
  unfold find_nearest_beat in Hrun. outcome_inv Hrun as o Ho.
  destruct o; [|left; by simplify_eq].
  right. split; [done|].
  apply search_loop_first_usable in Hrun
    as [[-> Hno]|(r & Hr & -> & Hu & Hno)].
  - left. split; [done|]. intros r Hr. apply Hno. lia.
  - right. exists r. split; [lia|]. split; [done|]. split; [exact Hu|].
    intros r' Hr'. apply Hno. lia.
Qed.

Lemma nearest_free_beat_search_witness :
  find_nearest_beat (beat_grid 8) 0 0
    [false; false; false; true; true; false; false; false] 4 8 = Returned 5
  /\ candidate_at 4 1 = 3 /\ candidate_at 4 2 = 5.
Proof.
  destruct (nearest_free_beat_search (beat_grid 8) 0 0
              [false; false; false; true; true; false; false; false] 4 8 5)
    as [Hlayout _]; [reflexivity|].
  split; [reflexivity|].
  destruct (Hlayout 1) as [H1 H2]; [lia|]. split; [exact H1|exact H2].
Defined.


(** ** Placements stay inside the effective range *)

Lemma effective_beats_count {A} (l : list A) (so eo : Z) :
  0 <= so -> 0 <= eo -> so + eo <= Z.of_nat (length l) ->
  Z.of_nat (length (py_slice l so (Z.of_nat (length l) - eo)))
  = Z.of_nat (length l) - so - eo.
Proof.
  intros Hso Heo Hfit. unfold py_slice, py_slice_bound.
  repeat case_bool_decide; try lia.
  rewrite length_take, length_drop. lia.
Qed.

Lemma preferred_beat_bounds sd ts so n d :
  0 < ts -> 1 <= n -> sd <= d <= sd + ts ->
  so <= preferred_beat_of sd ts so n d <= so + n - 1.
Proof.
  intros Hts Hn Hd. unfold preferred_beat_of. cbv zeta.
  set (position := fdiv _ _).
  assert (0 <= mantissa position) as Hposition.
  { unfold position, fdiv, total_seconds, true_divide.
    apply round_ratio_sign.
    - pose proof (fden_pos (round_ratio (d - sd) 1000000)).
      assert (0 < fnum (round_ratio ts 1000000)); [|nia].
      apply fnum_sign, round_ratio_sign; lia.
    - pose proof (fden_pos (round_ratio ts 1000000)).
      assert (0 <= fnum (round_ratio (d - sd) 1000000)); [|nia].
      apply fnum_sign, round_ratio_sign; lia. }
  assert (0 <= int_of_float (fmul position (float_of_int (n - 1)))); [|lia].
  apply int_of_float_sign. unfold fmul, float_of_int. apply round_ratio_sign.
  - pose proof (fden_pos position).
    pose proof (fden_pos (round_ratio (n - 1) 1)). nia.
  - assert (0 <= fnum position) by by apply fnum_sign.
    assert (0 <= fnum (round_ratio (n - 1) 1)); [|nia].
    apply fnum_sign, round_ratio_sign; lia.
Qed.

Lemma py_getitem_elem {A} (l : list A) i x : py_getitem l i = Returned x -> x ∈ l.
Proof.
  unfold py_getitem. destruct (py_index _ i) as [n|]; simpl; [|done].
  destruct (l !! n) eqn:Hn; [|done]. intros ?. simplify_eq.
  by eapply list_elem_of_lookup_2.
Qed.

Lemma representative_date_member c d :
  representative_date c = Returned d ->
  exists ph, ph ∈ photos c /\ photo_date ph = d.
Proof.
  unfold representative_date. intros H. apply py_getitem_elem in H.
  rewrite sorted_Permutation in H.
  apply list_elem_of_fmap in H as (ph & ? & ?). eauto.
Qed.

Lemma find_nearest_beat_in_range beats so eo occupied preferred n b :
  find_nearest_beat beats so eo occupied preferred n = Returned b ->
  so <= preferred < Z.of_nat (length beats) - eo ->
  so <= b < Z.of_nat (length beats) - eo.
Proof.
  unfold find_nearest_beat. intros H Hp. outcome_inv H as o Ho.
  destruct o; [|by simplify_eq].
  apply search_loop_first_usable in H as [[-> _]|(r & _ & _ & [Hin _] & _)];
    [done|].
  by apply in_effective_range_bounds.
Qed.

Section in_range.
Context (fs : FileSystem).

Lemma occupy_and_place_in_range beats so eo id_method p d b anchored cid st st' :
  placed_in_range beats so eo st ->
  so <= b < Z.of_nat (length beats) - eo ->
  occupy_and_place fs id_method p d b anchored cid st = Returned st' ->
  placed_in_range beats so eo st'.
Proof.
  intros Hin Hb H. apply occupy_and_place_inv in H as (_ & Hpl & _).
  intros q. rewrite Hpl, elem_of_app, list_elem_of_singleton.
  intros [Hq | ->]; [by apply Hin|done].
Qed.

Lemma place_anchored_photo_in_range beats so eo id_method st ph st' :
  placed_in_range beats so eo st ->
  place_anchored_photo fs beats so eo id_method st ph = Returned st' ->
  placed_in_range beats so eo st'.
Proof.
  unfold place_anchored_photo. intros Hin H.
  destruct (photo_anchor ph) as [anchor|]; [|by simplify_eq].
  destruct (in_effective_range _ _ _ _) eqn:Hr; [|by simplify_eq].
  apply in_effective_range_bounds in Hr.
  outcome_inv H. destruct a; [by simplify_eq|].
  by eapply occupy_and_place_in_range.
Qed.

Lemma place_anchored_cluster_photo_in_range beats so eo id_method idx st ph st' :
  placed_in_range beats so eo st ->
  place_anchored_cluster_photo fs beats so eo id_method idx st ph = Returned st' ->
  placed_in_range beats so eo st'.
Proof.
  unfold place_anchored_cluster_photo. intros Hin H.
  destruct (photo_anchor ph) as [anchor|]; [|by simplify_eq].
  destruct (in_effective_range _ _ _ _) eqn:Hr; [|by simplify_eq].
  apply in_effective_range_bounds in Hr.
  outcome_inv H. destruct a; [by simplify_eq|].
  by eapply occupy_and_place_in_range.
Qed.

Lemma distribute_photo_in_range beats sd ts so eo n id_method st
    (pd : Path * datetime) st' :
  0 < ts -> 1 <= n -> so + n <= Z.of_nat (length beats) - eo ->
  sd <= pd.2 <= sd + ts ->
  placed_in_range beats so eo st ->
  distribute_photo fs beats sd ts so eo n id_method st pd = Returned st' ->
  placed_in_range beats so eo st'.
Proof.
  unfold distribute_photo. intros Hts Hn Hfit Hd Hin H.
  outcome_inv H as b Hb. outcome_inv H as o Ho. destruct o; [by simplify_eq|].
  eapply occupy_and_place_in_range; [done| |exact H].
  eapply find_nearest_beat_in_range; [exact Hb|].
  pose proof (preferred_beat_bounds sd ts so n pd.2 Hts Hn Hd). lia.
Qed.

Lemma distribute_cluster_in_range beats sd ts so eo n id_method st ic st' :
  0 < ts -> 1 <= n -> so + n <= Z.of_nat (length beats) - eo ->
  (forall ph, ph ∈ photos ic.2 -> sd <= photo_date ph <= sd + ts) ->
  placed_in_range beats so eo st ->
  distribute_cluster fs beats sd ts so eo n id_method st ic = Returned st' ->
  placed_in_range beats so eo st'.
Proof.
  unfold distribute_cluster. intros Hts Hn Hfit Hd Hin H.
  outcome_inv H as d Hrep. outcome_inv H as b Hb. outcome_inv H as o Ho.
  destruct o; [by simplify_eq|]. outcome_inv H as occ Hocc. simplify_eq.
  apply representative_date_member in Hrep as (ph & Hph & <-).
  assert (so <= b < Z.of_nat (length beats) - eo) as Hbr.
  { eapply find_nearest_beat_in_range; [exact Hb|].
    pose proof (preferred_beat_bounds sd ts so n (photo_date ph) Hts Hn
                  (Hd ph Hph)). lia. }
  match goal with |- placed_in_range _ _ _ (foldl _ ?s _) => set (st0 := s) end.
  destruct (place_cluster_members_inv fs id_method ic.1 b (photos ic.2) st0)
    as (_ & _ & new & Hpl & Hnew).
  intros p. rewrite Hpl, elem_of_app. intros [Hp|Hp]; [by apply Hin|].
  by destruct (Hnew p Hp) as [-> _].
Qed.

Lemma map_photos_to_beats_original_in_range photos beats sd ed so eo id_method
    pls ws :
  0 <= so -> 0 <= eo -> so + eo <= Z.of_nat (length beats) ->
  map_photos_to_beats_original fs photos beats sd ed so eo id_method
  = Returned (pls, ws) ->
  forall p, p ∈ pls -> so <= beat_index p < Z.of_nat (length beats) - eo.
Proof.
  intros Hso Heo Hfit. unfold map_photos_to_beats_original.
  rewrite effective_beats_count by done.
  destruct (Z.leb_spec (ed - sd) 0) as [|Hts]; [discriminate|].
  destruct (Z.ltb_spec (Z.of_nat (length beats) - so - eo)
              (Z.of_nat (length (List.filter (in_date_range sd ed) photos))))
    as [|Hcap]; [discriminate|].
  intros H. outcome_inv H as st1 Hpass1. outcome_inv H as st2 Hpass2.
  simplify_eq. intros p. rewrite elem_of_sorted.
  assert (placed_in_range beats so eo st1) as Hst1.
  { eapply for_each_invariant; [| |exact Hpass1].
    - intros ? ? ? _. apply place_anchored_photo_in_range.
    - intros q Hq. by apply elem_of_nil in Hq. }
  assert (placed_in_range beats so eo st2) as Hst2; [|apply Hst2].
  eapply for_each_invariant; [|exact Hst1|exact Hpass2].
  intros st pd st' Hpd.
  apply list_elem_of_fmap in Hpd as (ph & -> & Hph).
  apply elem_of_List_filter in Hph as [Hph _].
  assert (1 <= Z.of_nat (length (List.filter (in_date_range sd ed) photos))).
  { destruct (List.filter _ photos); [by apply elem_of_nil in Hph|simpl; lia]. }
  apply elem_of_List_filter in Hph as [_ Hr]. unfold in_date_range in Hr.
  apply distribute_photo_in_range; simpl; lia.
Qed.

Lemma map_photo_clusters_to_beats_in_range clusters beats sd ed so eo id_method
    pls ws :
  0 <= so -> 0 <= eo -> so + eo <= Z.of_nat (length beats) ->
  (forall ph, ph ∈ cluster_members clusters -> sd <= photo_date ph <= ed) ->
  map_photo_clusters_to_beats fs clusters beats sd ed so eo id_method
  = Returned (pls, ws) ->
  forall p, p ∈ pls -> so <= beat_index p < Z.of_nat (length beats) - eo.
Proof.
  intros Hso Heo Hfit Hdates. unfold map_photo_clusters_to_beats.
  rewrite effective_beats_count by done.
  destruct (Z.leb_spec (ed - sd) 0) as [|Hts]; [discriminate|].
  destruct (Z.ltb_spec (Z.of_nat (length beats) - so - eo)
              (Z.of_nat (length clusters))) as [|Hcap]; [discriminate|].
  intros H. outcome_inv H as st1 Hpass1. outcome_inv H as st2 Hpass2.
  simplify_eq. intros p. rewrite elem_of_sorted.
  assert (placed_in_range beats so eo st1) as Hst1.
  { eapply for_each_invariant; [| |exact Hpass1].
    - intros st [i c] st' _ HP. unfold place_anchored_cluster.
      apply for_each_invariant; [|done].
      intros ? ? ? _. apply place_anchored_cluster_photo_in_range.
    - intros q Hq. by apply elem_of_nil in Hq. }
  assert (placed_in_range beats so eo st2) as Hst2; [|apply Hst2].
  eapply for_each_invariant; [|exact Hst1|exact Hpass2].
  intros st [i c] st' Hic. apply elem_of_List_filter in Hic as [Hic _].
  apply elem_of_enumerate in Hic as (k & -> & Hk).
  assert (1 <= Z.of_nat (length clusters)).
  { apply lookup_lt_Some in Hk. lia. }
  apply distribute_cluster_in_range; [lia..|]. simpl.
  intros ph Hph.
  assert (sd <= photo_date ph <= ed); [|lia].
  apply Hdates, elem_of_cluster_members. exists c. split; [|done].
  by eapply list_elem_of_lookup_2.
Qed.
End in_range.

(** X9.  With offsets that are not negative and leave room in the beat
    list, every placement that [map_photos_to_beats] returns, pinned or
    distributed, with or without clustering, sits on a beat of the
    effective range. *)
Theorem placements_within_effective_range (fs : FileSystem)
    (photos : list PhotoMetadata) (beats : list BeatInfo)
    (start_date end_date : datetime) (start_offset end_offset : Z)
    (time_gap : TimeGap) (id_method : string)
    (pls : list PhotoPlacement) (ws : list Warning) :
  0 <= start_offset -> 0 <= end_offset ->
  start_offset + end_offset <= Z.of_nat (length beats) ->
  map_photos_to_beats fs photos beats start_date end_date start_offset
    end_offset time_gap id_method = Returned (pls, ws) ->
  forall p, p ∈ pls ->
    start_offset <= beat_index p < Z.of_nat (length beats) - end_offset.
Proof.
  intros Hso Heo Hfit Hrun p Hp.
  destruct (List.filter (in_date_range start_date end_date) photos) as [|q0 qs]
    eqn:Hfilter.
  - unfold map_photos_to_beats in Hrun. rewrite Hfilter in Hrun.
    simplify_eq. by apply elem_of_nil in Hp.
  - rewrite map_photos_to_beats_in_range in Hrun by (by rewrite Hfilter).
    destruct (amount time_gap =? 0).
    + by eapply map_photos_to_beats_original_in_range.
    + eapply map_photo_clusters_to_beats_in_range; [done..| |exact Hrun|done].
      intros ph Hph. apply cluster_photos_by_time_gap_members in Hph.
      apply elem_of_List_filter in Hph as [_ Hr]. unfold in_date_range in Hr. lia.
Qed.

Lemma placements_within_effective_range_witness :
  exists pls ws,
    map_photos_to_beats plain_fs pressured_photos (beat_grid 5) 0 100 1 1
      gap_20_seconds "inode" = Returned (pls, ws)
    /\ forall p, p ∈ pls -> 1 <= beat_index p < 4.
Proof.
  eexists _, _. split; [vm_compute; reflexivity|].
  match goal with |- forall p, p ∈ ?l -> _ =>
    intros p Hp;
    apply (placements_within_effective_range plain_fs pressured_photos
             (beat_grid 5) 0 100 1 1 gap_20_seconds "inode" l []);
      [lia|lia|simpl; lia|vm_compute; reflexivity|exact Hp]
  end.
Defined.


(** ** The order of the output *)

Lemma lt_beat_index_date_spec p q :
  lt_beat_index_date p q = true <->
  beat_index p < beat_index q
  \/ (beat_index p = beat_index q /\ date p < date q).
Proof.
  unfold lt_beat_index_date.
  rewrite orb_true_iff, andb_true_iff, !Z.ltb_lt, Z.eqb_eq. done.
Qed.

Lemma lt_beat_index_date_false p q :
  lt_beat_index_date p q = false <->
  beat_index q < beat_index p
  \/ (beat_index q = beat_index p /\ date q <= date p).
Proof.
  rewrite <- not_true_iff_false, lt_beat_index_date_spec. lia.
Qed.

Lemma StronglySorted_strict {A} (key : A -> Z) (l : list A) :
  StronglySorted (fun x y => key x <= key y) l -> NoDup (map key l) ->
  StronglySorted (fun x y => key x < key y) l.
Proof.
  induction 1 as [|x l _ IH Hx]; intros Hnd; [constructor|].
  simpl in Hnd. apply NoDup_cons in Hnd as [Hnew Hnd].
  constructor; [by apply IH|].
  rewrite Forall_forall in Hx. apply Forall_forall. intros y Hy.
  assert (key x <> key y); [|specialize (Hx y Hy); lia].
  intros Heq. apply Hnew. rewrite Heq. apply list_elem_of_fmap. eauto.
Qed.

Section output_order.
Context (fs : FileSystem).

Lemma map_photos_to_beats_original_distinct photos beats sd ed so eo id_method
    pls ws :
  map_photos_to_beats_original fs photos beats sd ed so eo id_method
  = Returned (pls, ws) ->
  exists unsorted, pls = sorted lt_beat_index unsorted
                   /\ NoDup (map beat_index unsorted).
Proof.
  unfold map_photos_to_beats_original.
  destruct (_ <=? 0); [discriminate|].
  destruct (_ <? _); [discriminate|].
  intros H. outcome_inv H as st1 Hpass1. outcome_inv H as st2 Hpass2.
  simplify_eq. exists (placements st2). split; [done|].
  assert (distinct_slots st1) as Hst1.
  { eapply for_each_invariant; [| |exact Hpass1].
    - intros ? ? ? _. apply place_anchored_photo_distinct.
    - split; [apply initial_state_marked|constructor]. }
  assert (distinct_slots st2) as [_ ?]; [|done].
  eapply for_each_invariant; [|exact Hst1|exact Hpass2].
  intros ? ? ? _. apply distribute_photo_distinct.
Qed.

(** X10.  The placement list comes back ordered: without clustering by
    strictly increasing beat index, over clusters by beat index and, at
    one beat, by date. *)
Theorem placements_are_ordered (beats : list BeatInfo)
    (start_date end_date : datetime) (start_offset end_offset : Z)
    (id_method : string) :
  (forall photos pls ws,
      map_photos_to_beats_original fs photos beats start_date end_date
        start_offset end_offset id_method = Returned (pls, ws) ->
      StronglySorted (fun p q => beat_index p < beat_index q) pls)
  /\ (forall clusters pls ws,
        map_photo_clusters_to_beats fs clusters beats start_date end_date
          start_offset end_offset id_method = Returned (pls, ws) ->
        StronglySorted by_beat_then_date pls).
Proof.
  split.
  - intros photos pls ws Hrun.
    apply map_photos_to_beats_original_distinct in Hrun
      as (unsorted & -> & Hnd).
    apply StronglySorted_strict.
    + eapply StronglySorted_weaken; [|apply (sorted_is_sorted lt_beat_index)].
      * unfold not_after, lt_beat_index. intros p q H. lia.
      * unfold lt_beat_index. intros x y H. lia.
      * unfold lt_beat_index. intros x y z H1 H2. lia.
    + by rewrite (Permutation_map beat_index (sorted_Permutation _ _)).
  - intros clusters pls ws. unfold map_photo_clusters_to_beats.
    destruct (_ <=? 0); [discriminate|].
    destruct (_ <? _); [discriminate|].
    intros H. outcome_inv H as st1 Hpass1. outcome_inv H as st2 Hpass2.
    simplify_eq.
    eapply StronglySorted_weaken;
      [|apply (sorted_is_sorted lt_beat_index_date)].
    + unfold not_after, by_beat_then_date. intros p q H.
      apply lt_beat_index_date_false in H. lia.
    + intros x y H. apply lt_beat_index_date_spec in H.
      apply lt_beat_index_date_false. lia.
    + intros x y z H1 H2. apply lt_beat_index_date_false in H1, H2.
      apply lt_beat_index_date_false. lia.
Qed.

(** ** Pins that are not honoured *)

Lemma occupy_and_place_warnings id_method p d b anchored cid st st' w :
  occupy_and_place fs id_method p d b anchored cid st = Returned st' ->
  w ∈ warnings st -> w ∈ warnings st'.
Proof.
  intros H Hw. apply occupy_and_place_inv in H as (_ & _ & Hws). by rewrite Hws.
Qed.

Lemma place_anchored_photo_warnings beats so eo id_method st ph st' w :
  place_anchored_photo fs beats so eo id_method st ph = Returned st' ->
  w ∈ warnings st -> w ∈ warnings st'.
Proof.
  unfold place_anchored_photo. intros H Hw.
  destruct (photo_anchor ph) as [anchor|]; [|by simplify_eq].
  destruct (in_effective_range _ _ _ _);
    [|simplify_eq; simpl; apply elem_of_app; by left].
  outcome_inv H. destruct a.
  - simplify_eq. simpl. apply elem_of_app. by left.
  - by eapply occupy_and_place_warnings.
Qed.

Lemma distribute_photo_warnings beats sd ts so eo n id_method st pd st' w :
  distribute_photo fs beats sd ts so eo n id_method st pd = Returned st' ->
  w ∈ warnings st -> w ∈ warnings st'.
Proof.
  unfold distribute_photo. intros H Hw.
  outcome_inv H. outcome_inv H. destruct a0; [by simplify_eq|].
  by eapply occupy_and_place_warnings.
Qed.

(** What the first pass does with one pinned photo. *)
Lemma place_anchored_photo_reports beats so eo id_method st ph anchor st' :
  photo_anchor ph = Some anchor ->
  place_anchored_photo fs beats so eo id_method st ph = Returned st' ->
  (in_effective_range beats so eo (anchor - 1) = true
   /\ exists p, p ∈ placements st' /\ pinned_at ph (anchor - 1) p)
  \/ (in_effective_range beats so eo (anchor - 1) = true
      /\ BeatAlreadyOccupied anchor (photo_path ph) ∈ warnings st')
  \/ (in_effective_range beats so eo (anchor - 1) = false
      /\ BeatOutsideRange anchor (photo_path ph) ∈ warnings st').
Proof.
  unfold place_anchored_photo. intros -> H.
  destruct (in_effective_range _ _ _ _).
  - outcome_inv H. destruct a.
    + simplify_eq. right. left. split; [done|]. simpl.
      apply elem_of_app. right. by left.
    + left. split; [done|]. by eapply occupy_and_place_pins.
  - simplify_eq. right. right. split; [done|]. simpl.
    apply elem_of_app. right. by left.
Qed.

Lemma for_each_at {S A} (Q : S -> Prop) (body : S -> A -> outcome S) l x :
  (forall st y st', body st y = Returned st' -> Q st -> Q st') ->
  (forall st st', body st x = Returned st' -> Q st') ->
  x ∈ l ->
  forall st st', for_each body st l = Returned st' -> Q st'.
Proof.
  intros Hkeep Hat. induction l as [|y l IH]; intros Hx st st' Hrun;
    [by apply elem_of_nil in Hx|].
  simpl in Hrun. destruct (body st y) as [st1|e] eqn:Hy; [|discriminate].
  apply elem_of_cons in Hx as [<-|Hx]; [|by eapply IH].
  eapply (for_each_invariant Q); [|by eapply Hat|exact Hrun].
  intros ? ? ? _ ? ?. by eapply Hkeep.
Qed.

(** X11.  Without clustering no pin is dropped silently: for a photo
    dated inside the range that carries a pin, a run that returns either
    holds its anchored placement at the pinned slot, or has warned that
    the slot was already occupied, or has warned that the pin lies outside
    the effective range. *)
Theorem pin_honoured_or_reported (photos : list PhotoMetadata)
    (beats : list BeatInfo) (start_date end_date : datetime)
    (start_offset end_offset : Z) (id_method : string)
    (pls : list PhotoPlacement) (ws : list Warning)
    (ph : PhotoMetadata) (anchor : Z) :
  map_photos_to_beats_original fs photos beats start_date end_date
    start_offset end_offset id_method = Returned (pls, ws) ->
  ph ∈ photos -> start_date <= photo_date ph <= end_date ->
  photo_anchor ph = Some anchor ->
  (in_effective_range beats start_offset end_offset (anchor - 1) = true
   /\ exists p, p ∈ pls /\ pinned_at ph (anchor - 1) p)
  \/ (in_effective_range beats start_offset end_offset (anchor - 1) = true
      /\ BeatAlreadyOccupied anchor (photo_path ph) ∈ ws)
  \/ (in_effective_range beats start_offset end_offset (anchor - 1) = false
      /\ BeatOutsideRange anchor (photo_path ph) ∈ ws).
Proof.
  intros Hrun Hph Hdate Hanchor. unfold map_photos_to_beats_original in Hrun.
  destruct (_ <=? 0); [discriminate|].
  destruct (_ <? _); [discriminate|].
  outcome_inv Hrun as st1 Hpass1. outcome_inv Hrun as st2 Hpass2. simplify_eq.
  set (Q := fun (pls : list PhotoPlacement) (ws : list Warning) =>
    (in_effective_range beats start_offset end_offset (anchor - 1) = true
     /\ exists p, p ∈ pls /\ pinned_at ph (anchor - 1) p)
    \/ (in_effective_range beats start_offset end_offset (anchor - 1) = true
        /\ BeatAlreadyOccupied anchor (photo_path ph) ∈ ws)
    \/ (in_effective_range beats start_offset end_offset (anchor - 1) = false
        /\ BeatOutsideRange anchor (photo_path ph) ∈ ws)).
  assert (Q (placements st1) (warnings st1)) as Hst1.
  { eapply (for_each_at (fun st => Q (placements st) (warnings st)));
      [| | |exact Hpass1].
    - intros st y st' Hstep [(? & p & Hp & ?)|[[? ?]|[? ?]]].
      + left. split; [done|]. exists p. split; [|done].
        by eapply place_anchored_photo_keeps.
      + right. left. split; [done|]. by eapply place_anchored_photo_warnings.
      + right. right. split; [done|]. by eapply place_anchored_photo_warnings.
    - intros st st' Hstep. by eapply place_anchored_photo_reports.
    - apply elem_of_List_filter. split; [done|]. unfold in_date_range. lia. }
  assert (Q (placements st2) (warnings st2)) as Hst2.
  { eapply (for_each_invariant (fun st => Q (placements st) (warnings st)));
      [|exact Hst1|exact Hpass2].
    intros st y st' _ [(? & p & Hp & ?)|[[? ?]|[? ?]]] Hstep.
    - left. split; [done|]. exists p. split; [|done].
      by eapply distribute_photo_keeps.
    - right. left. split; [done|]. by eapply distribute_photo_warnings.
    - right. right. split; [done|]. by eapply distribute_photo_warnings. }
  destruct Hst2 as [(? & p & Hp & ?)|Hst2]; [|by right].
  left. split; [done|]. exists p. split; [by apply elem_of_sorted|done].
Qed.
End output_order.

Lemma placements_are_ordered_witness :
  exists pls ws,
    map_photos_to_beats_original plain_fs pressured_photos (beat_grid 5)
      0 100 0 0 "inode" = Returned (pls, ws)
    /\ StronglySorted (fun p q => beat_index p < beat_index q) pls.
Proof.
  eexists _, _. split; [vm_compute; reflexivity|].
  match goal with |- StronglySorted _ ?l =>
    apply (proj1 (placements_are_ordered plain_fs (beat_grid 5) 0 100 0 0
                    "inode") pressured_photos l [])
  end.
  vm_compute. reflexivity.
Defined.

Lemma pin_honoured_or_reported_witness :
  exists pls,
    map_photos_to_beats_original plain_fs
      [photo "a" 10 (Some 2); photo "b" 20 (Some 2); photo "c" 30 (Some 9)]
      (beat_grid 5) 0 100 0 0 "inode"
    = Returned (pls, [BeatAlreadyOccupied 2 "b"; BeatOutsideRange 9 "c"])
    /\ ((in_effective_range (beat_grid 5) 0 0 (2 - 1) = true
         /\ exists p, p ∈ pls /\ pinned_at (photo "b" 20 (Some 2)) (2 - 1) p)
        \/ (in_effective_range (beat_grid 5) 0 0 (2 - 1) = true
            /\ BeatAlreadyOccupied 2 (photo_path (photo "b" 20 (Some 2)))
               ∈ [BeatAlreadyOccupied 2 "b"; BeatOutsideRange 9 "c"])
        \/ (in_effective_range (beat_grid 5) 0 0 (2 - 1) = false
            /\ BeatOutsideRange 2 (photo_path (photo "b" 20 (Some 2)))
               ∈ [BeatAlreadyOccupied 2 "b"; BeatOutsideRange 9 "c"])).
Proof.
  eexists. split; [vm_compute; reflexivity|].
  match goal with |- context [exists p, p ∈ ?l /\ _] =>
    apply (pin_honoured_or_reported plain_fs
             [photo "a" 10 (Some 2); photo "b" 20 (Some 2); photo "c" 30 (Some 9)]
             (beat_grid 5) 0 100 0 0 "inode" l
             [BeatAlreadyOccupied 2 "b"; BeatOutsideRange 9 "c"]
             (photo "b" 20 (Some 2)) 2)
  end.
  - vm_compute. reflexivity.
  - apply elem_of_cons. right. apply elem_of_cons. left. reflexivity.
  - unfold photo, photo_date. simpl. lia.
  - reflexivity.
Defined.


(** ** The reconciliation plan, identifier by identifier *)

Lemma omap_total_length {A B} (f : A -> option B) (l : list A) :
  (forall x, x ∈ l -> is_Some (f x)) -> length (omap f l) = length l.
Proof.
  induction l as [|x l IH]; intros Hf; simpl; [done|].
  destruct (Hf x) as [y ->]; [by left|]. simpl. f_equal. apply IH.
  intros z Hz. apply Hf. by right.
Qed.

Lemma omap_keys_NoDup {A B} (f : A -> option (A * B)) (l : list A) :
  (forall x y, f x = Some y -> y.1 = x) -> NoDup l -> NoDup ((omap f l).*1).
Proof.
  intros Hkey. induction 1 as [|x l Hx _ IH]; simpl; [constructor|].
  destruct (f x) as [y|] eqn:Hfx; [|done]. simpl. constructor; [|done].
  rewrite (Hkey x y Hfx). intros Hin. apply Hx.
  apply list_elem_of_fmap in Hin as (z & -> & Hz).
  apply list_elem_of_omap in Hz as (x' & Hx' & Hfx').
  by rewrite (Hkey x' z Hfx').
Qed.

(** X12.  What the plan adds and updates.  The additions are the target
    elements of the identifiers absent from the snapshot, one for each
    such identifier; the updates are the target elements of the
    identifiers present on both sides whose item is off its target
    position or duration, each identifier at most once; and no identifier
    is both updated and removed. *)
Theorem plan_additions_and_updates
    (current_items : gmap string TimelineItem)
    (target_elements : gmap string TimelineElement)
    (stored_state : option SyncState) (project : TimelineProject) :
  let changes :=
    _compute_differential_changes current_items target_elements stored_state
      project in
  (forall e, e ∈ items_to_add changes <->
     exists u, (u ∉ dom current_items) /\ target_elements !! u = Some e)
  /\ length (items_to_add changes)
     = size (dom target_elements ∖ dom current_items)
  /\ (forall u e, (u, e) ∈ items_to_update changes <->
        exists item, current_items !! u = Some item
                     /\ target_elements !! u = Some e
                     /\ _requires_update item e project = true)
  /\ NoDup ((items_to_update changes).*1)
  /\ (forall u e, (u, e) ∈ items_to_update changes ->
        u ∉ items_to_remove changes).
Proof.
  assert (forall u e,
    (u, e) ∈ items_to_update
               (_compute_differential_changes current_items target_elements
                  stored_state project) <->
    exists item, current_items !! u = Some item
                 /\ target_elements !! u = Some e
                 /\ _requires_update item e project = true) as Hupd.
  { intros u e. simpl. rewrite list_elem_of_omap. split.
    - intros (u' & _ & Hu').
      destruct (current_items !! u') as [item|] eqn:Hi; [|done].
      destruct (target_elements !! u') as [elem|] eqn:He; [|done].
      destruct (_requires_update item elem project) eqn:Hreq; [|done].
      simplify_eq. by exists item.
    - intros (item & Hi & He & Hreq). exists u. split.
      + apply elem_of_elements, elem_of_intersection.
        split; apply elem_of_dom; eauto.
      + by rewrite Hi, He, Hreq. }
  simpl. split; [|split; [|split; [|split]]].
  - intros e. rewrite list_elem_of_omap. split.
    + intros (u & Hu & He). exists u. split; [|done].
      apply elem_of_elements, elem_of_difference in Hu. tauto.
    + intros (u & Hu & He). exists u. split; [|done].
      apply elem_of_elements, elem_of_difference. split; [|done].
      apply elem_of_dom. eauto.
  - unfold size, set_size. simpl. apply omap_total_length.
    intros u Hu. apply elem_of_elements, elem_of_difference in Hu as [Hu _].
    by apply elem_of_dom.
  - exact Hupd.
  - apply omap_keys_NoDup; [|apply NoDup_elements].
    intros u [u' e] Hf.
    destruct (current_items !! u); [|done].
    destruct (target_elements !! u); [|done].
    destruct (_requires_update _ _ _); by simplify_eq.
  - intros u e Hin. apply Hupd in Hin as (item & _ & He & _).
    rewrite elem_of_difference. intros [_ Hnot]. apply Hnot.
    apply elem_of_dom. eauto.
Qed.

(** ** Dictionaries built in a loop *)

Lemma foldl_insert_last {A V} (key : A -> option string) (val : A -> V)
    (l : list A) (m0 : gmap string V) (k : string) :
  foldl (fun m x => match key x with
                    | Some k' => <[k' := val x]> m
                    | None => m
                    end) m0 l !! k
  = match last (filter (fun x => key x = Some k) l) with
    | Some x => Some (val x)
    | None => m0 !! k
    end.
Proof.
  revert m0. induction l as [|x l IH]; intros m0; simpl; [done|].
  rewrite IH, filter_cons. destruct (decide (key x = Some k)) as [Hk|Hk].
  - rewrite last_cons. destruct (last _); [done|].
    by rewrite Hk, lookup_insert_eq.
  - destruct (last _); [done|]. destruct (key x) as [k'|]; [|done].
    rewrite lookup_insert_ne; [done|]. congruence.
Qed.

Lemma last_filter_Some {A} (P : A -> Prop) `{!forall x, Decision (P x)}
    (l : list A) (x : A) :
  last (filter P l) = Some x -> x ∈ l /\ P x.
Proof.
  intros Hlast. apply last_Some in Hlast as [l' Hl'].
  assert (x ∈ filter P l) as Hx.
  { rewrite Hl'. apply elem_of_app. right. by left. }
  apply list_elem_of_filter in Hx. tauto.
Qed.

(** X13.  Both dictionaries of a reconciliation keep the last entry of
    each identifier.  The snapshot maps an identifier to the last item, in
    track order, whose tag carries it, and never holds the empty
    identifier; the target maps an identifier to the last project element
    whose asset has it. *)
Theorem dictionaries_keep_last_entry (timeline : Timeline)
    (project : TimelineProject) (u : string) :
  _catalog_current_items timeline !! u
  = last (filter (fun item => uid_truthy (_extract_beatspine_uid item) = Some u)
            (all_items timeline))
  /\ (forall item, _catalog_current_items timeline !! u = Some item ->
        item ∈ all_items timeline
        /\ _extract_beatspine_uid item = Some u /\ u <> ""%string)
  /\ target_elements_of project !! u
     = last (filter (fun elem => uid <$> element_asset elem = Some u)
               (elements project)).
Proof.
  assert (_catalog_current_items timeline !! u
          = last (filter (fun item =>
                            uid_truthy (_extract_beatspine_uid item) = Some u)
                    (all_items timeline))) as Hcat.
  { unfold _catalog_current_items.
    rewrite (foldl_insert_last
               (fun item => uid_truthy (_extract_beatspine_uid item))
               (fun item => item)).
    rewrite lookup_empty. by destruct (last _). }
  split; [exact Hcat|split].
  - intros item. rewrite Hcat. intros Hlast.
    apply last_filter_Some in Hlast as [Hin Huid]. split; [done|].
    unfold uid_truthy in Huid.
    destruct (_extract_beatspine_uid item) as [s|]; [|done].
    case_bool_decide; by simplify_eq.
  - unfold target_elements_of.
    transitivity
      (match last (filter (fun elem => uid <$> element_asset elem = Some u)
                     (elements project)) with
       | Some x => Some x
       | None => (∅ : gmap string TimelineElement) !! u
       end).
    + rewrite <- (foldl_insert_last (fun elem => uid <$> element_asset elem)
                    (fun elem => elem)).
      f_equal. clear. generalize (∅ : gmap string TimelineElement).
      induction (elements project) as [|x l IH]; intros m; simpl; [done|].
      rewrite IH. by destruct (element_asset x).
    + rewrite lookup_empty.
      by destruct (last (filter _ (elements project))).
Qed.


(** ** Tags *)

Lemma append_cons (a : Ascii.ascii) (p r : string) :
  String a p +:+ r = String a (p +:+ r).
Proof. reflexivity. Qed.

Lemma prefix_append (p s : string) :
  String.prefix p s = true <-> exists rest, s = p +:+ rest.
Proof.
  revert s. induction p as [|a p IH]; intros s.
  - split; [intros _; by exists s|intros _; by destruct s].
  - destruct s as [|b s]; simpl.
    + split; [done|]. intros [? ?]. discriminate.
    + destruct (Ascii.ascii_dec a b) as [->|Hab].
      * rewrite IH. split; intros [rest Hrest]; exists rest.
        -- by rewrite append_cons, Hrest.
        -- rewrite append_cons in Hrest. congruence.
      * split; [done|]. intros [rest Hrest]. rewrite append_cons in Hrest.
        congruence.
Qed.

Lemma substring_whole (s : string) : String.substring 0 (String.length s) s = s.
Proof. induction s as [|a s IH]; simpl; [done|]. by rewrite IH. Qed.

Lemma substring_after (p u : string) :
  String.substring (String.length p)
    (String.length (p +:+ u) - String.length p)%nat (p +:+ u) = u.
Proof.
  induction p as [|a p IH].
  - change ("" +:+ u) with u. simpl. rewrite Nat.sub_0_r. apply substring_whole.
  - rewrite append_cons. exact IH.
Qed.

Lemma after_prefix_tag (u : string) : after_prefix (managed_prefix +:+ u) = u.
Proof. apply substring_after. Qed.

(** X14.  Reading a tag back.  An item's identifier is what follows
    [beatspine:] in the custom data of its first marker that starts with
    that prefix, whatever the other markers hold; an item none of whose
    markers starts with the prefix has no identifier. *)
Theorem tag_is_read_from_first_managed_marker (item : TimelineItem) :
  (forall u, _extract_beatspine_uid item = Some u <->
     exists before f m after,
       item_markers item = before ++ (f, m) :: after
       /\ Forall (fun fm => String.prefix managed_prefix (custom_data_of fm.2)
                            = false) before
       /\ custom_data_of m = managed_prefix +:+ u)
  /\ (_extract_beatspine_uid item = None <->
      Forall (fun fm => String.prefix managed_prefix (custom_data_of fm.2)
                        = false) (item_markers item)).
Proof.
  unfold _extract_beatspine_uid.
  induction (item_markers item) as [|[f m] l [IHsome IHnone]].
  - split.
    + intros u. split; [done|]. intros (before & ? & ? & ? & H & _).
      by destruct before.
    + split; [constructor|done].
  - simpl. destruct (String.prefix managed_prefix (custom_data_of m)) eqn:Hp.
    + split.
      * intros u. split.
        -- intros Hu. exists [], f, m, l. split; [done|]. split; [constructor|].
           apply prefix_append in Hp as [rest Hrest].
           rewrite Hrest, after_prefix_tag in Hu. congruence.
        -- intros (before & f' & m' & after & Heq & Hbefore & Hdata).
           destruct before as [|[f0 m0] before].
           ++ simplify_eq/=. by rewrite Hdata, after_prefix_tag.
           ++ simplify_eq/=. apply Forall_cons in Hbefore as [Hno _].
              simpl in Hno. congruence.
      * split; [done|]. intros Hall. apply Forall_cons in Hall as [Hno _].
        simpl in Hno. congruence.
    + split.
      * intros u. rewrite IHsome. split.
        -- intros (before & f' & m' & after & -> & Hbefore & Hdata).
           exists ((f, m) :: before), f', m', after.
           split; [done|]. split; [by constructor|done].
        -- intros (before & f' & m' & after & Heq & Hbefore & Hdata).
           destruct before as [|[f0 m0] before].
           ++ simplify_eq/=. assert (String.prefix managed_prefix (custom_data_of m') = true)
                by (apply prefix_append; eauto).
              congruence.
           ++ simplify_eq/=. apply Forall_cons in Hbefore as [_ Hbefore].
              by exists before, f', m', after.
      * rewrite IHnone. split; [by constructor|].
        intros Hall. by apply Forall_cons in Hall as [_ ?].
Qed.

(** ** The conflict scan *)

Lemma omap_nonempty {A B} (f : A -> option B) (l : list A) :
  omap f l <> [] <-> exists x y, x ∈ l /\ f x = Some y.
Proof.
  split.
  - intros Hne. destruct (omap f l) as [|y l'] eqn:Hom; [done|].
    assert (y ∈ omap f l) as Hy by (rewrite Hom; by left).
    apply list_elem_of_omap in Hy as (x & ? & ?). eauto.
  - intros (x & y & Hx & Hfx) Hnil.
    assert (y ∈ omap f l) as Hy by (apply list_elem_of_omap; eauto).
    rewrite Hnil in Hy. by apply elem_of_nil in Hy.
Qed.

Lemma negb_bool_decide_nil {A} `{EqDecision A} (l : list A) :
  negb (bool_decide (l = [])) = true <-> l <> [].
Proof. rewrite negb_true_iff, bool_decide_eq_false. done. Qed.

(** X15.  What counts as a conflict.  The scan reports a conflict exactly
    when some item of the timeline carries no (or an empty) identifier or
    some timeline marker does not start with [beatspine:].  It never
    reports a moved item, and it reads neither the snapshot nor the
    stored set of managed identifiers.  Every item is either in the
    snapshot under its identifier or reported as a manual item. *)
Theorem conflicts_are_untagged_items_and_foreign_markers
    (timeline : Timeline) (current_items : gmap string TimelineItem)
    (managed_uids : gset string) :
  let report := _analyze_conflicts timeline current_items managed_uids in
  (has_conflicts report = true <->
     (exists item, item ∈ all_items timeline
                   /\ uid_truthy (_extract_beatspine_uid item) = None)
     \/ (exists f m, (f, m) ∈ timeline_markers timeline
                     /\ String.prefix managed_prefix (custom_data_of m) = false))
  /\ modified_positions report = []
  /\ report = _analyze_conflicts timeline ∅ ∅
  /\ (forall item, item ∈ all_items timeline ->
        (exists u, _extract_beatspine_uid item = Some u
                   /\ is_Some (_catalog_current_items timeline !! u))
        \/ ("Manual item: " +:+ item_name item) ∈ unmanaged_items report).
Proof.
  simpl. split; [|split; [done|split; [done|]]].
  - unfold has_conflicts. simpl.
    rewrite !orb_true_iff, !negb_bool_decide_nil, !omap_nonempty. split.
    + intros [[(item & s & Hin & Hf)|?]|((f & m) & s & Hin & Hf)]; [|done|].
      * left. exists item. split; [done|]. by destruct (uid_truthy _).
      * right. exists f, m. split; [done|]. by destruct (String.prefix _ _).
    + intros [(item & Hin & Hf)|(f & m & Hin & Hf)].
      * left. left. exists item. eexists. split; [done|]. by rewrite Hf.
      * right. exists (f, m). eexists. split; [done|]. by rewrite Hf.
  - intros item Hin.
    destruct (uid_truthy (_extract_beatspine_uid item)) as [u|] eqn:Huid.
    + left. exists u. split.
      * unfold uid_truthy in Huid. destruct (_extract_beatspine_uid item); [|done].
        case_bool_decide; by simplify_eq.
      * unfold _catalog_current_items.
        rewrite (foldl_insert_last
                   (fun item => uid_truthy (_extract_beatspine_uid item))
                   (fun item => item)).
        destruct (last _) eqn:Hlast; [done|].
        apply last_None in Hlast.
        assert (item ∈ filter
                  (fun item => uid_truthy (_extract_beatspine_uid item) = Some u)
                  (all_items timeline)) as Hf by by apply list_elem_of_filter.
        rewrite Hlast in Hf. by apply elem_of_nil in Hf.
    + right. apply list_elem_of_omap. exists item. split; [done|].
      by rewrite Huid.
Qed.


(** ** What a dry run issues *)

Lemma run_session_extends {A} (host : Host) (s : Session A) tr :
  tr `prefix_of` (run_session host s tr).1.
Proof.
  revert tr. induction s as [r|e|R c k IH]; intros tr; simpl; [done..|].
  etrans; [|apply IH]. by apply prefix_app_r.
Qed.

Section session_vocabulary.
Context (apply_phase :
           Timeline -> TimelineProject -> bool -> option TimelineChanges ->
           Session Datatypes.unit).

Ltac answer_all host :=
  repeat (match goal with
          | |- context [host ?tr ?R ?c] => destruct (host tr R c)
          | |- context [_locate_timeline ?p ?n] =>
              destruct (_locate_timeline p n)
          | |- context [_extract_managed_state ?t] =>
              destruct (_extract_managed_state t) as [?|?] eqn:?
          | |- context [has_conflicts ?c && negb ?f] =>
              destruct (has_conflicts c && negb f)
          end;
          cbn [negb mbind session_mbind session_bind run_session fst snd app]).

(** X16.  A dry run changes nothing below the project level and never
    asks the operator.  Whatever the host answers, the calls of a dry run
    that change the host are calls on the project manager or on the
    project settings ([DeleteProject], [CreateProject], [SetSetting]), at
    most five of them; it issues no call that creates a timeline, imports
    media, places a clip, touches a marker or stores the state, and no
    [Confirm.ask]. *)
Theorem dry_run_stays_at_project_level (host : Host)
    (project : TimelineProject) (force recreate : bool) :
  let calls :=
    calls_of host (sync_project apply_phase project force recreate true) in
  Forall (fun i => issued_mutating i = true -> issued_project_level i = true)
    calls
  /\ Forall (fun i => asks_operator i = false) calls
  /\ (length (List.filter issued_mutating calls) <= 5)%nat.
Proof.
  unfold calls_of, sync_project, _establish_connection,
    _locate_or_create_project, assert_setting, call.
  cbn [negb mbind session_mbind session_bind run_session fst snd app].
  destruct recreate; answer_all host;
    (split; [repeat constructor|split; [repeat constructor|cbn; lia]]).
Qed.

(** X17.  A dry run is a rehearsal of the real run: against the same host
    and with the same options, the calls of the dry run are the first
    calls of the real run, and an error that ends the dry run ends the
    real run in the same way, after the same calls. *)
Theorem dry_run_is_prefix_of_real_run (host : Host)
    (project : TimelineProject) (force recreate : bool) :
  calls_of host (sync_project apply_phase project force recreate true)
    `prefix_of`
    calls_of host (sync_project apply_phase project force recreate false)
  /\ (forall e,
        (run_session host
           (sync_project apply_phase project force recreate true) []).2
        = inl e ->
        run_session host
          (sync_project apply_phase project force recreate false) []
        = run_session host
            (sync_project apply_phase project force recreate true) []).
Proof.
  unfold calls_of, sync_project, _establish_connection,
    _locate_or_create_project, assert_setting, _create_new_timeline, call.
  cbn [negb mbind session_mbind session_bind run_session fst snd app].
  destruct recreate; answer_all host;
    (split;
     [first [done
            |apply run_session_extends
            |etrans; [|apply run_session_extends]; by eexists [_]
            |by eexists [_]]
     |intros e He; first [discriminate He|reflexivity]]).
Qed.

(** X18.  Where an error of a dry run comes from, on a host whose
    answers have the types of the scripting interface.  When a dry run
    ends with an error, no call follows the failure.  Either the last call
    issued is the one whose refusal raises the error ([GetResolve] for a
    connection error, [CreateProject] for a failed project creation, the
    [SetSetting] of the named key for a rejected setting), or the error
    is the [TypeError] of a stored state that is not a JSON object of the
    expected shape: it is raised while the existing timeline is read,
    after the third setting was written. *)
Theorem dry_run_error_follows_failing_call (host : Host)
    (project : TimelineProject) (force recreate : bool)
    (tr : list Issued) (e : SyncError) :
  run_session host (sync_project apply_phase project force recreate true) []
  = (tr, inl e) ->
  exists before i,
    tr = before ++ [i]
    /\ (raised_by e i = true
        \/ (e = StoredStateTypeError
            /\ exists value,
                 i = {| answer_type := bool;
                        issued_call := SetSetting "videoMonitorFormat" value |})).
Proof.
  unfold sync_project, _establish_connection,
    _locate_or_create_project, assert_setting, call.
  cbn [negb mbind session_mbind session_bind run_session fst snd app].
  destruct recreate; answer_all host; intros Hrun; simplify_eq;
    match goal with
    | |- exists before i, ?l = _ /\ _ =>
        exists (removelast l), (List.last l {| issued_call := GetResolve |})
    end; (split; [reflexivity|]); cbn;
    first [left; by try case_bool_decide
          |right; split;
           [match goal with
            | H : _extract_managed_state ?t = inl _ |- _ =>
                unfold _extract_managed_state in H;
                destruct (stored_sync_state t); by simplify_eq
            end
           |by eexists]].
Qed.
End session_vocabulary.

Lemma dry_run_error_follows_failing_call_witness :
  exists before i,
    [{| answer_type := bool; issued_call := GetResolve |}] = before ++ [i]
    /\ (raised_by ResolveConnectionError i = true
        \/ (ResolveConnectionError = StoredStateTypeError
            /\ exists value,
                 i = {| answer_type := bool;
                        issued_call := SetSetting "videoMonitorFormat" value |})).
Proof.
  apply (dry_run_error_follows_failing_call no_apply unreachable_host
           steady_project false false).
  reflexivity.
Defined.

(** A dry run on a timeline whose stored state is [null]: the settings
    are written, then the state is read and the run ends with the
    [TypeError]. *)
Example dry_run_on_null_state :
  run_session null_state_host
    (sync_project no_apply steady_project false false true) []
  = (calls_of null_state_host
       (sync_project no_apply steady_project false false true),
     inl StoredStateTypeError)
  /\ call_names
       (calls_of null_state_host
          (sync_project no_apply steady_project false false true))
     = ["GetResolve"; "LoadProject"; "SetSetting timelineFrameRate";
        "SetSetting timelineFrameRateMismatchBehavior";
        "SetSetting videoMonitorFormat"].
Proof. split; reflexivity. Qed.


(** ** Beat markers *)

Lemma foldl_invariant {S A} (P : S -> Prop) (f : S -> A -> S) (l : list A) st :
  P st -> (forall st x, x ∈ l -> P st -> P (f st x)) -> P (foldl f st l).
Proof.
  revert st. induction l as [|x l IH]; intros st Hst Hstep; simpl; [done|].
  apply IH.
  - apply Hstep; [by left|done].
  - intros st' y Hy. apply Hstep. by right.
Qed.

Lemma NoDup_fmap_inj_on {A B} (f : A -> B) (l : list A) x y :
  NoDup (f <$> l) -> x ∈ l -> y ∈ l -> f x = f y -> x = y.
Proof.
  induction l as [|z l IH]; intros Hnd Hx Hy Heq; [by apply elem_of_nil in Hx|].
  rewrite fmap_cons in Hnd. apply NoDup_cons in Hnd as [Hz Hnd].
  apply elem_of_cons in Hx as [->|Hx]; apply elem_of_cons in Hy as [->|Hy].
  - done.
  - exfalso. apply Hz. rewrite Heq. apply list_elem_of_fmap. eauto.
  - exfalso. apply Hz. rewrite <- Heq. apply list_elem_of_fmap. eauto.
  - by apply IH.
Qed.

Section beat_marker_facts.
Context (py_int : string -> option Z).
Context (frame_position : TimelineProject -> BeatInfo -> Z).

Lemma catalog_beat_markers_fold (ms : list (Z * MarkerInfo)) cur0 calls0 :
  let step := fun '(current_beat_markers, calls) '(frame_id, marker_info) =>
    let custom_data := custom_data_of marker_info in
    if String.prefix beat_prefix custom_data then
      match py_int (last_segment custom_data) with
      | Some beat_index =>
          (<[beat_index := frame_id]> current_beat_markers, calls)
      | None => (current_beat_markers, calls ++ [delete_marker frame_id])
      end
    else (current_beat_markers, calls) in
  forall (cur : gmap Z Z) calls,
  foldl step (cur0, calls0) ms = (cur, calls) ->
  (forall i f, cur !! i = Some f ->
     cur0 !! i = Some f \/ exists m, (f, m) ∈ ms /\ tagged_beat py_int m i)
  /\ (forall i, is_Some (cur0 !! i)
                \/ (exists f m, (f, m) ∈ ms /\ tagged_beat py_int m i) ->
        is_Some (cur !! i))
  /\ (forall c, c ∈ calls ->
        c ∈ calls0
        \/ exists f m, c = delete_marker f /\ (f, m) ∈ ms
             /\ String.prefix beat_prefix (custom_data_of m) = true)
  /\ ((forall f m, (f, m) ∈ ms ->
         String.prefix beat_prefix (custom_data_of m) = true ->
         is_Some (py_int (last_segment (custom_data_of m)))) ->
      calls = calls0).
Proof.
  intros step. revert cur0 calls0.
  induction ms as [|[f0 m0] ms IH]; intros cur0 calls0 cur calls Hfold.
  - simpl in Hfold. simplify_eq. split; [|split; [|split]].
    + intros i f ?. by left.
    + intros i [?|(f & m & Hin & _)]; [done|]. by apply elem_of_nil in Hin.
    + intros c ?. by left.
    + done.
  - simpl in Hfold.
    destruct (String.prefix beat_prefix (custom_data_of m0)) eqn:Hp.
    + destruct (py_int (last_segment (custom_data_of m0))) as [i0|] eqn:Hi.
      * apply IH in Hfold as (Hsound & Hcomplete & Hcalls & Hclean).
        split; [|split; [|split]].
        -- intros i f Hcur. destruct (Hsound i f Hcur) as [H0|(m & Hin & Hm)].
           ++ destruct (decide (i0 = i)) as [->|Hne].
              ** rewrite lookup_insert_eq in H0. simplify_eq. right.
                 exists m0. split; [by left|done].
              ** rewrite lookup_insert_ne in H0 by done. by left.
           ++ right. exists m. split; [by right|done].
        -- intros i Hi0. apply Hcomplete.
           destruct Hi0 as [Hi0|(f & m & Hin & Hm)].
           ++ left. destruct (decide (i0 = i)) as [->|Hne].
              ** rewrite lookup_insert_eq. eauto.
              ** by rewrite lookup_insert_ne.
           ++ apply elem_of_cons in Hin as [Heq|Hin].
              ** simplify_eq. left. destruct Hm as [_ Hm].
                 assert (i0 = i) as -> by congruence.
                 rewrite lookup_insert_eq. eauto.
              ** right. eauto.
        -- intros c Hc. destruct (Hcalls c Hc) as [?|(f & m & ? & ? & ?)];
             [by left|].
           right. exists f, m. split; [done|]. split; [by right|done].
        -- intros Hparse. apply Hclean. intros f m Hin. apply (Hparse f m). by right.
      * apply IH in Hfold as (Hsound & Hcomplete & Hcalls & Hclean).
        split; [|split; [|split]].
        -- intros i f Hcur. destruct (Hsound i f Hcur) as [?|(m & Hin & Hm)];
             [by left|].
           right. exists m. split; [by right|done].
        -- intros i Hi0. apply Hcomplete.
           destruct Hi0 as [?|(f & m & Hin & Hm)]; [by left|].
           apply elem_of_cons in Hin as [Heq|Hin]; [|right; eauto].
           simplify_eq. destruct Hm as [_ Hm]. congruence.
        -- intros c Hc. destruct (Hcalls c Hc) as [Hc0|(f & m & ? & ? & ?)].
           ++ apply elem_of_app in Hc0 as [?|Hc0]; [by left|].
              apply list_elem_of_singleton in Hc0 as ->. right.
              exists f0, m0. split; [done|]. split; [by left|done].
           ++ right. exists f, m. split; [done|]. split; [by right|done].
        -- intros Hparse. destruct (Hparse f0 m0) as [? ?]; [by left|done|].
           congruence.
    + apply IH in Hfold as (Hsound & Hcomplete & Hcalls & Hclean).
      split; [|split; [|split]].
      * intros i f Hcur. destruct (Hsound i f Hcur) as [?|(m & Hin & Hm)];
          [by left|].
        right. exists m. split; [by right|done].
      * intros i Hi0. apply Hcomplete.
        destruct Hi0 as [?|(f & m & Hin & Hm)]; [by left|].
        apply elem_of_cons in Hin as [Heq|Hin]; [|right; eauto].
        simplify_eq. destruct Hm as [Hm _]. congruence.
      * intros c Hc. destruct (Hcalls c Hc) as [?|(f & m & ? & ? & ?)];
          [by left|].
        right. exists f, m. split; [done|]. split; [by right|done].
      * intros Hparse. apply Hclean. intros f m Hin. apply (Hparse f m). by right.
Qed.

Lemma catalog_beat_markers_spec (ms : list (Z * MarkerInfo)) cur calls :
  catalog_beat_markers py_int ms = (cur, calls) ->
  (forall i f, cur !! i = Some f ->
     exists m, (f, m) ∈ ms /\ tagged_beat py_int m i)
  /\ (forall i f m, (f, m) ∈ ms -> tagged_beat py_int m i ->
        is_Some (cur !! i))
  /\ (forall c, c ∈ calls ->
        exists f m, c = delete_marker f /\ (f, m) ∈ ms
          /\ String.prefix beat_prefix (custom_data_of m) = true)
  /\ ((forall f m, (f, m) ∈ ms ->
         String.prefix beat_prefix (custom_data_of m) = true ->
         is_Some (py_int (last_segment (custom_data_of m)))) ->
      calls = []).
Proof.
  intros Hcat. apply catalog_beat_markers_fold in Hcat
    as (Hsound & Hcomplete & Hcalls & Hclean).
  split; [|split; [|split]].
  - intros i f Hcur. destruct (Hsound i f Hcur) as [H0|?]; [|done].
    by rewrite lookup_empty in H0.
  - intros i f m Hin Hm. apply Hcomplete. right. eauto.
  - intros c Hc. destruct (Hcalls c Hc) as [H0|?]; [|done].
    by apply elem_of_nil in H0.
  - done.
Qed.

Lemma target_markers_of_sound (project : TimelineProject) i f :
  target_markers_of frame_position project !! i = Some f ->
  exists b, b ∈ project_beats project /\ index b = i
            /\ f = frame_position project b.
Proof.
  unfold target_markers_of. revert i f.
  apply (foldl_invariant
           (fun m : gmap Z Z => forall i f, m !! i = Some f ->
              exists b, b ∈ project_beats project /\ index b = i
                        /\ f = frame_position project b)).
  - intros i f H. by rewrite lookup_empty in H.
  - intros m b Hb Hm i f Hi. destruct (decide (index b = i)) as [<-|Hne].
    + rewrite lookup_insert_eq in Hi. simplify_eq. eauto.
    + rewrite lookup_insert_ne in Hi by done. eauto.
Qed.

Lemma target_markers_of_complete (project : TimelineProject) b :
  b ∈ project_beats project ->
  is_Some (target_markers_of frame_position project !! index b).
Proof.
  unfold target_markers_of. generalize (∅ : gmap Z Z).
  induction (project_beats project) as [|b0 l IH]; intros m0 Hb;
    [by apply elem_of_nil in Hb|].
  simpl. apply elem_of_cons in Hb as [->|Hb]; [|by apply IH].
  generalize (<[index b0 := frame_position project b0]> m0)
             (lookup_insert_eq m0 (index b0) (frame_position project b0)).
  clear. intros m Hm. assert (is_Some (m !! index b0)) as Hsome by eauto.
  clear Hm. revert m Hsome. induction l as [|b l IH]; intros m Hm; [done|].
  simpl. apply IH. destruct (decide (index b = index b0)) as [->|Hne].
  - rewrite lookup_insert_eq. eauto.
  - by rewrite lookup_insert_ne.
Qed.

Lemma target_markers_of_distinct (project : TimelineProject) b :
  NoDup (index <$> project_beats project) -> b ∈ project_beats project ->
  target_markers_of frame_position project !! index b
  = Some (frame_position project b).
Proof.
  intros Hnd Hb. destruct (target_markers_of_complete project b Hb) as [f Hf].
  rewrite Hf. apply target_markers_of_sound in Hf as (b' & Hb' & Hidx & ->).
  by rewrite (NoDup_fmap_inj_on index _ b' b Hnd Hb' Hb Hidx).
Qed.

Lemma add_and_move_markers_calls (project : TimelineProject)
    (cur target : gmap Z Z) (indices : list Z) calls result c :
  add_and_move_markers project cur target indices = (calls, result) ->
  c ∈ calls ->
  (exists i f, cur !! i = Some f /\ c = delete_marker f)
  \/ (exists i beat,
        i ∈ indices /\ py_getitem (project_beats project) i = Returned beat
        /\ c = add_marker (target !!! i) (beat_prefix +:+ pretty (index beat))).
Proof.
  revert calls result. induction indices as [|i rest IH];
    intros calls result Hrun Hc; simpl in Hrun.
  - simplify_eq. by apply elem_of_nil in Hc.
  - assert (forall calls' result',
      add_and_move_markers project cur target rest = (calls', result') ->
      c ∈ calls' ->
      (exists i f, cur !! i = Some f /\ c = delete_marker f)
      \/ (exists i0 beat,
            i0 ∈ i :: rest
            /\ py_getitem (project_beats project) i0 = Returned beat
            /\ c = add_marker (target !!! i0)
                     (beat_prefix +:+ pretty (index beat)))) as IH'.
    { intros calls' result' Hrest Hc'.
      destruct (IH _ _ Hrest Hc') as [?|(i0 & beat & ? & ? & ?)]; [by left|].
      right. exists i0, beat. split; [by right|done]. }
    destruct (cur !! i) as [f|] eqn:Hcur.
    + destruct (beyond_tolerance f (target !!! i)); [|by eapply IH'].
      destruct (py_getitem (project_beats project) i) as [beat|e] eqn:Hbeat.
      * destruct (add_and_move_markers project cur target rest)
          as [calls' result'] eqn:Hrest.
        simplify_eq. apply elem_of_cons in Hc as [->|Hc]; [left; eauto|].
        apply elem_of_cons in Hc as [->|Hc]; [|by eapply IH'].
        right. exists i, beat. split; [by left|done].
      * simplify_eq. apply list_elem_of_singleton in Hc as ->. left. eauto.
    + destruct (py_getitem (project_beats project) i) as [beat|e] eqn:Hbeat.
      * destruct (add_and_move_markers project cur target rest)
          as [calls' result'] eqn:Hrest.
        simplify_eq. apply elem_of_cons in Hc as [->|Hc]; [|by eapply IH'].
        right. exists i, beat. split; [by left|done].
      * simplify_eq. by apply elem_of_nil in Hc.
Qed.

Lemma add_and_move_markers_idle (project : TimelineProject)
    (cur target : gmap Z Z) (indices : list Z) :
  (forall i, i ∈ indices -> cur !! i = Some (target !!! i)) ->
  add_and_move_markers project cur target indices = ([], Returned tt).
Proof.
  induction indices as [|i rest IH]; intros Hsame; simpl; [done|].
  rewrite (Hsame i) by left. rewrite beyond_tolerance_same.
  apply IH. intros j Hj. apply Hsame. by right.
Qed.

(** X19.  Synchronising the beat markers spares what is not a beat
    marker.  Every marker the synchronisation deletes is a marker of the
    timeline whose custom data starts with [beatspine:beat:], so a marker
    set by hand is never deleted; every marker it adds sits at the frame
    of a beat of the project and is tagged with the index of the beat
    found at that position of the beat list.  This holds also when the
    run ends with an exception. *)
Theorem marker_sync_spares_manual_markers (timeline : Timeline)
    (project : TimelineProject) (calls : list Issued)
    (result : outcome Datatypes.unit) (c : Issued) :
  _synchronize_beat_markers py_int frame_position timeline project
  = (calls, result) ->
  c ∈ calls ->
  (exists f m,
      c = delete_marker f /\ (f, m) ∈ timeline_markers timeline
      /\ String.prefix beat_prefix (custom_data_of m) = true)
  \/ (exists b beat,
        c = add_marker (frame_position project b)
              (beat_prefix +:+ pretty (index beat))
        /\ b ∈ project_beats project
        /\ py_getitem (project_beats project) (index b) = Returned beat).
Proof.
  unfold _synchronize_beat_markers.
  destruct (catalog_beat_markers py_int (timeline_markers timeline))
    as [cur malformed] eqn:Hcat.
  destruct (add_and_move_markers _ _ _ _) as [calls' result'] eqn:Hmove.
  intros Heq Hc. simplify_eq.
  apply catalog_beat_markers_spec in Hcat as (Hsound & _ & Hmalformed & _).
  apply elem_of_app in Hc as [Hc|Hc]; [left; by apply Hmalformed|].
  apply elem_of_app in Hc as [Hc|Hc].
  - left. apply list_elem_of_fmap in Hc as (i & -> & Hi).
    apply elem_of_elements, elem_of_difference in Hi as [Hi _].
    apply elem_of_dom in Hi as [f Hf].
    destruct (Hsound i f Hf) as (m & Hin & Hp & _).
    exists f, m. split; [|done]. by rewrite (lookup_total_correct _ _ _ Hf).
  - destruct (add_and_move_markers_calls _ _ _ _ _ _ _ Hmove Hc)
      as [(i & f & Hf & ->)|(i & beat & Hi & Hbeat & ->)].
    + left. destruct (Hsound i f Hf) as (m & Hin & Hp & _). by exists f, m.
    + right. apply elem_of_elements, elem_of_dom in Hi as [f Hf].
      rewrite (lookup_total_correct _ _ _ Hf).
      apply target_markers_of_sound in Hf as (b & Hb & <- & ->).
      by exists b, beat.
Qed.

(** X20.  On a synchronised timeline the beat markers are left alone.
    When the beats have distinct indices, every beat has its marker at
    its frame and every beat marker of the timeline is the marker of a
    beat at that beat's frame, the synchronisation issues no call and
    ends normally, whatever other markers the timeline holds. *)
Theorem marker_sync_is_idle_when_synchronised (timeline : Timeline)
    (project : TimelineProject) :
  NoDup (index <$> project_beats project) ->
  (forall f m, (f, m) ∈ timeline_markers timeline ->
     String.prefix beat_prefix (custom_data_of m) = true ->
     exists b, b ∈ project_beats project /\ tagged_beat py_int m (index b)
               /\ f = frame_position project b) ->
  (forall b, b ∈ project_beats project ->
     exists m, (frame_position project b, m) ∈ timeline_markers timeline
               /\ tagged_beat py_int m (index b)) ->
  _synchronize_beat_markers py_int frame_position timeline project
  = ([], Returned tt).
Proof.
  intros Hnd Hmarkers Hbeats. unfold _synchronize_beat_markers.
  destruct (catalog_beat_markers py_int (timeline_markers timeline))
    as [cur malformed] eqn:Hcat.
  apply catalog_beat_markers_spec in Hcat
    as (Hsound & Hcomplete & _ & Hclean).
  assert (forall i f, cur !! i = Some f ->
            target_markers_of frame_position project !! i = Some f) as Hsub.
  { intros i f Hcur. destruct (Hsound i f Hcur) as (m & Hin & Hp & Hi).
    destruct (Hmarkers f m Hin Hp) as (b & Hb & [_ Hi'] & ->).
    assert (i = index b) as -> by congruence.
    by apply target_markers_of_distinct. }
  assert (cur = target_markers_of frame_position project) as ->.
  { apply map_eq. intros i. destruct (cur !! i) as [f|] eqn:Hcur.
    - symmetry. by apply Hsub.
    - destruct (target_markers_of frame_position project !! i) as [f|] eqn:Ht;
        [|done].
      apply target_markers_of_sound in Ht as (b & Hb & <- & ->).
      destruct (Hbeats b Hb) as (m & Hin & Hm).
      destruct (Hcomplete (index b) _ m Hin Hm) as [? ?]. congruence. }
  rewrite Hclean.
  - rewrite difference_diag_L, elements_empty, add_and_move_markers_idle;
      [done|].
    intros i Hi. apply elem_of_elements, elem_of_dom in Hi as [f Hf].
    by rewrite (lookup_total_correct _ _ _ Hf).
  - intros f m Hin Hp. destruct (Hmarkers f m Hin Hp) as (b & _ & [_ ?] & _).
    eauto.
Qed.
End beat_marker_facts.

Lemma marker_sync_spares_manual_markers_witness :
  (exists f m,
      delete_marker 40 = delete_marker f
      /\ (f, m) ∈ timeline_markers stale_marked_timeline
      /\ String.prefix beat_prefix (custom_data_of m) = true)
  \/ (exists b beat,
        delete_marker 40
        = add_marker (frame_of_beat two_beat_project b)
            (beat_prefix +:+ pretty (index beat))
        /\ b ∈ project_beats two_beat_project
        /\ py_getitem (project_beats two_beat_project) (index b)
           = Returned beat).
Proof.
  apply (marker_sync_spares_manual_markers decimal_int frame_of_beat
           stale_marked_timeline two_beat_project
           [delete_marker 95; delete_marker 90; delete_marker 40;
            add_marker 30 "beatspine:beat:1"]
           (Returned tt) (delete_marker 40)).
  - vm_compute. reflexivity.
  - apply elem_of_cons. right. apply elem_of_cons. right.
    apply elem_of_cons. left. reflexivity.
Defined.

Lemma marker_sync_is_idle_when_synchronised_witness :
  _synchronize_beat_markers decimal_int frame_of_beat marked_timeline
    two_beat_project = ([], Returned tt).
Proof.
  apply (marker_sync_is_idle_when_synchronised decimal_int frame_of_beat
           marked_timeline two_beat_project).
  - apply (bool_decide_unpack _). vm_compute. exact I.
  - intros f m Hin Hp. simpl in Hin.
    apply elem_of_cons in Hin as [Hin|Hin];
      [|apply elem_of_cons in Hin as [Hin|Hin];
        [|apply elem_of_cons in Hin as [Hin|Hin];
          [|by apply elem_of_nil in Hin]]];
      injection Hin as -> ->.
    + exists {| index := 0; frame := 0 |}.
      split; [apply elem_of_cons; left; reflexivity|].
      split; [split; vm_compute; reflexivity|reflexivity].
    + vm_compute in Hp. discriminate Hp.
    + exists {| index := 1; frame := 30 |}.
      split; [apply elem_of_cons; right; apply elem_of_cons; left; reflexivity|].
      split; [split; vm_compute; reflexivity|reflexivity].
  - intros b Hb. simpl in Hb.
    apply elem_of_cons in Hb as [->|Hb];
      [|apply elem_of_cons in Hb as [->|Hb]; [|by apply elem_of_nil in Hb]].
    + exists (beat_marker 0).
      split; [apply elem_of_cons; left; reflexivity|].
      split; vm_compute; reflexivity.
    + exists (beat_marker 1).
      split; [apply elem_of_cons; right; apply elem_of_cons; right;
              apply elem_of_cons; left; reflexivity|].
      split; vm_compute; reflexivity.
Defined.


(** ** Every photo is placed at most once *)

Lemma List_filter_partition {A} (f : A -> bool) (l : list A) :
  List.filter f l ++ List.filter (fun x => negb (f x)) l ≡ₚ l.
Proof.
  induction l as [|x l IH]; simpl; [done|].
  destruct (f x); simpl.
  - by rewrite IH.
  - by rewrite <- Permutation_middle, IH.
Qed.

Lemma List_filter_true {A} (l : list A) : List.filter (fun _ => true) l = l.
Proof. induction l as [|x l IH]; simpl; [done|]. by rewrite IH. Qed.

Lemma concat_singletons {A} (l : list A) : concat ((fun x => [x]) <$> l) = l.
Proof. induction l as [|x l IH]; [done|]. exact (f_equal (cons x) IH). Qed.

Lemma enumerate_snd {A} (l : list A) : (enumerate l).*2 = l.
Proof.
  unfold enumerate. rewrite fmap_imap. simpl.
  apply list_eq. intros i. by rewrite list_lookup_imap; destruct (l !! i).
Qed.

Section emits.
Context {S A M B : Type}.
Context (out : S -> list B) (members : A -> list M) (key : M -> B).
Context (r : S -> A -> bool) (body : S -> A -> outcome S).
Hypothesis Hstep : forall st x st',
  body st x = Returned st' ->
  exists Lx, sublist Lx (members x) /\ out st' = out st ++ (key <$> Lx)
             /\ (Lx <> [] -> r st' x = true).
Hypothesis Hmono : forall st y st' x,
  body st y = Returned st' -> r st x = true -> r st' x = true.

(** What a loop appends to [out] is, in order, part of the members of
    the items that [r] marks at the end. *)
Lemma for_each_emits l st st' :
  for_each body st l = Returned st' ->
  exists LL, sublist LL (concat (members <$> List.filter (r st') l))
             /\ out st' = out st ++ (key <$> LL).
Proof.
  revert st. induction l as [|x l IH]; intros st Hrun; simpl in Hrun.
  - simplify_eq. exists []. split; [constructor|by rewrite app_nil_r].
  - destruct (body st x) as [st1|e] eqn:Hx; [|discriminate].
    destruct (Hstep _ _ _ Hx) as (Lx & Hsub & Hout & Hmark).
    destruct (IH _ Hrun) as (LL & HLL & Hout').
    exists (Lx ++ LL). split.
    + simpl. destruct Lx as [|m Lx].
      * simpl. destruct (r st' x); simpl; [|done].
        by apply sublist_inserts_l.
      * assert (r st' x = true) as ->.
        { eapply (for_each_invariant (fun s => r s x = true));
            [|by apply Hmark|exact Hrun].
          intros ? ? ? _ ? ?. by eapply Hmono. }
        simpl. exact (sublist_app (m :: Lx) _ LL _ Hsub HLL).
    + by rewrite Hout', Hout, fmap_app, app_assoc.
Qed.
End emits.

Section placed_once.
Context (fs : FileSystem).

Lemma existsb_app_l {A} (f : A -> bool) (l k : list A) :
  existsb f l = true -> existsb f (l ++ k) = true.
Proof. rewrite existsb_app. by intros ->. Qed.

Lemma existsb_mono {A} (f : A -> bool) (l k : list A) :
  (forall x, x ∈ l -> x ∈ k) -> existsb f l = true -> existsb f k = true.
Proof.
  rewrite !existsb_exists. intros Hsub (x & Hx & Hf). exists x.
  split; [|done]. apply list_elem_of_In, Hsub. by apply list_elem_of_In.
Qed.

Lemma place_anchored_photo_emits beats so eo id_method st ph st' :
  place_anchored_photo fs beats so eo id_method st ph = Returned st' ->
  exists Lx, sublist Lx [ph]
    /\ placed_photo <$> placements st'
       = (placed_photo <$> placements st) ++ (photo_key <$> Lx)
    /\ (Lx <> [] -> negb (is_non_anchored (placements st') ph) = true).
Proof.
  unfold place_anchored_photo. intros H.
  assert (forall s : MapState, placements s = placements st ->
    exists Lx, sublist Lx [ph]
      /\ placed_photo <$> placements s
         = (placed_photo <$> placements st) ++ (photo_key <$> Lx)
      /\ (Lx <> [] -> negb (is_non_anchored (placements s) ph) = true))
    as Hskip.
  { intros s ->. exists []. split; [by constructor|].
    split; [by rewrite app_nil_r|done]. }
  destruct (photo_anchor ph) as [anchor|] eqn:Hanchor;
    [|simplify_eq; by apply Hskip].
  destruct (in_effective_range _ _ _ _); [|simplify_eq; by apply Hskip].
  outcome_inv H. destruct a; [simplify_eq; by apply Hskip|].
  apply occupy_and_place_inv in H as (_ & Hpl & _).
  exists [ph]. split; [done|]. split; [by rewrite Hpl, fmap_app|].
  intros _. unfold is_non_anchored. rewrite Hanchor, Hpl, negb_involutive.
  rewrite existsb_app. simpl. rewrite bool_decide_eq_true_2 by done.
  by rewrite orb_true_r.
Qed.

Lemma is_non_anchored_mono pls pls' ph :
  (forall p, p ∈ pls -> p ∈ pls') ->
  negb (is_non_anchored pls ph) = true ->
  negb (is_non_anchored pls' ph) = true.
Proof.
  unfold is_non_anchored. intros Hsub.
  destruct (photo_anchor ph); [|done].
  rewrite !negb_involutive. by apply existsb_mono.
Qed.

Lemma distribute_photo_emits beats sd ts so eo n id_method st pd st' :
  distribute_photo fs beats sd ts so eo n id_method st pd = Returned st' ->
  exists Lx, sublist Lx [pd]
    /\ placed_photo <$> placements st'
       = (placed_photo <$> placements st) ++ (id <$> Lx)
    /\ (Lx <> [] -> true = true).
Proof.
  unfold distribute_photo. intros H.
  outcome_inv H. outcome_inv H. destruct a0.
  - simplify_eq. exists []. split; [by constructor|].
    split; [by rewrite app_nil_r|done].
  - apply occupy_and_place_inv in H as (_ & Hpl & _).
    exists [pd]. split; [done|]. split; [|done].
    rewrite Hpl, fmap_app. by destruct pd.
Qed.

Lemma map_photos_to_beats_original_once photos beats sd ed so eo id_method
    pls ws :
  map_photos_to_beats_original fs photos beats sd ed so eo id_method
  = Returned (pls, ws) ->
  placed_photo <$> pls ⊆+ photo_key <$> photos.
Proof.
  unfold map_photos_to_beats_original.
  destruct (_ <=? 0); [discriminate|].
  destruct (_ <? _); [discriminate|].
  intros H. outcome_inv H as st1 Hpass1. outcome_inv H as st2 Hpass2.
  simplify_eq. rewrite sorted_Permutation.
  set (filtered := List.filter (in_date_range sd ed) photos) in *.
  apply (for_each_emits (fun st => placed_photo <$> placements st)
           (fun ph => [ph]) photo_key
           (fun st ph => negb (is_non_anchored (placements st) ph))) in Hpass1
    as (L1 & HL1 & Hout1).
  2: { intros st x st'. apply place_anchored_photo_emits. }
  2: { intros st y st' x Hy. apply is_non_anchored_mono.
       intros p. by eapply place_anchored_photo_keeps. }
  apply (for_each_emits (fun st => placed_photo <$> placements st)
           (fun pd => [pd]) id (fun _ _ => true)) in Hpass2
    as (L2 & HL2 & Hout2).
  2: { intros st x st'. apply distribute_photo_emits. }
  2: done.
  rewrite Hout2, Hout1. simpl.
  rewrite concat_singletons in HL1.
  rewrite List_filter_true, concat_singletons in HL2.
  etrans; [apply submseteq_app|].
  - apply fmap_submseteq, sublist_submseteq, HL1.
  - rewrite list_fmap_id. apply sublist_submseteq, HL2.
  - change (map ?f ?l) with (f <$> l). rewrite <- fmap_app.
    apply fmap_submseteq.
    etrans; [|apply sublist_submseteq, (List_filter_sublist
                                          (in_date_range sd ed) photos)].
    apply Permutation_submseteq. fold filtered.
    rewrite Permutation_app_comm.
    rewrite <- (List_filter_partition
                  (is_non_anchored (placements st1)) filtered) at 3.
    done.
Qed.

Lemma cluster_has_anchored_mono pls pls' idx :
  (forall p, p ∈ pls -> p ∈ pls') ->
  cluster_has_anchored pls idx = true -> cluster_has_anchored pls' idx = true.
Proof. apply existsb_mono. Qed.

Lemma place_anchored_cluster_photo_emits beats so eo id_method idx st ph st' :
  place_anchored_cluster_photo fs beats so eo id_method idx st ph
  = Returned st' ->
  exists Lx, sublist Lx [ph]
    /\ placed_photo <$> placements st'
       = (placed_photo <$> placements st) ++ (photo_key <$> Lx)
    /\ (Lx <> [] -> cluster_has_anchored (placements st') idx = true).
Proof.
  unfold place_anchored_cluster_photo. intros H.
  assert (forall s : MapState, placements s = placements st ->
    exists Lx, sublist Lx [ph]
      /\ placed_photo <$> placements s
         = (placed_photo <$> placements st) ++ (photo_key <$> Lx)
      /\ (Lx <> [] -> cluster_has_anchored (placements s) idx = true))
    as Hskip.
  { intros s ->. exists []. split; [by constructor|].
    split; [by rewrite app_nil_r|done]. }
  destruct (photo_anchor ph) as [anchor|] eqn:Hanchor;
    [|simplify_eq; by apply Hskip].
  destruct (in_effective_range _ _ _ _); [|simplify_eq; by apply Hskip].
  outcome_inv H. destruct a; [simplify_eq; by apply Hskip|].
  apply occupy_and_place_inv in H as (_ & Hpl & _).
  exists [ph]. split; [done|]. split; [by rewrite Hpl, fmap_app|].
  intros _. unfold cluster_has_anchored. rewrite Hpl, existsb_app. simpl.
  rewrite bool_decide_eq_true_2 by done. by rewrite orb_true_r.
Qed.

Lemma place_anchored_cluster_keeps beats so eo id_method st ic st' q :
  place_anchored_cluster fs beats so eo id_method st ic = Returned st' ->
  q ∈ placements st -> q ∈ placements st'.
Proof.
  unfold place_anchored_cluster. intros Hrun Hq.
  eapply (for_each_invariant (fun s => q ∈ placements s));
    [|exact Hq|exact Hrun].
  intros ? ? ? _ ? ?. by eapply place_anchored_cluster_photo_keeps.
Qed.

Lemma place_anchored_cluster_emits beats so eo id_method st ic st' :
  place_anchored_cluster fs beats so eo id_method st ic = Returned st' ->
  exists Lx, sublist Lx (photos ic.2)
    /\ placed_photo <$> placements st'
       = (placed_photo <$> placements st) ++ (photo_key <$> Lx)
    /\ (Lx <> [] -> cluster_has_anchored (placements st') ic.1 = true).
Proof.
  unfold place_anchored_cluster. intros Hrun.
  apply (for_each_emits (fun st => placed_photo <$> placements st)
           (fun ph => [ph]) photo_key
           (fun st _ => cluster_has_anchored (placements st) ic.1)) in Hrun
    as (L & HL & Hout).
  2: { intros st0 x st0'. apply place_anchored_cluster_photo_emits. }
  2: { intros st0 y st0' x Hy. apply cluster_has_anchored_mono.
       intros p. by eapply place_anchored_cluster_photo_keeps. }
  rewrite concat_singletons in HL. exists L. split; [|split; [done|]].
  - etrans; [exact HL|apply List_filter_sublist].
  - intros Hne. destruct L as [|ph L]; [done|].
    assert (ph ∈ List.filter
              (fun _ : PhotoMetadata =>
                 cluster_has_anchored (placements st') ic.1) (photos ic.2))
      as Hph.
    { eapply elem_of_submseteq; [by left|apply sublist_submseteq, HL]. }
    by apply elem_of_List_filter in Hph as [_ ?].
Qed.

Lemma place_cluster_members_emits id_method idx b members st :
  exists Lx, sublist Lx members
    /\ placed_photo <$>
         placements (foldl (place_cluster_member fs id_method idx b) st members)
       = (placed_photo <$> placements st) ++ (photo_key <$> Lx).
Proof.
  revert st. induction members as [|ph members IH]; intros st; simpl.
  - exists []. split; [constructor|by rewrite app_nil_r].
  - destruct (IH (place_cluster_member fs id_method idx b st ph))
      as (Lx & Hsub & Hout).
    assert (placements (place_cluster_member fs id_method idx b st ph)
            = placements st
            \/ placements (place_cluster_member fs id_method idx b st ph)
               = placements st
                 ++ [new_placement fs id_method (photo_path ph) (photo_date ph)
                       b false (Some idx)]) as [Heq|Heq].
    { unfold place_cluster_member. destruct (existsb _ _); [by left|by right]. }
    + exists Lx. split; [by constructor|]. by rewrite Hout, Heq.
    + exists (ph :: Lx). split; [by constructor|].
      rewrite Hout, Heq, fmap_app. simpl. by rewrite <- app_assoc.
Qed.

Lemma distribute_cluster_emits beats sd ts so eo n id_method st ic st' :
  distribute_cluster fs beats sd ts so eo n id_method st ic = Returned st' ->
  exists Lx, sublist Lx (photos ic.2)
    /\ placed_photo <$> placements st'
       = (placed_photo <$> placements st) ++ (photo_key <$> Lx)
    /\ (Lx <> [] -> true = true).
Proof.
  unfold distribute_cluster. intros H.
  outcome_inv H. outcome_inv H. outcome_inv H. destruct a1.
  - simplify_eq. exists []. split; [apply sublist_nil_l|].
    split; [by rewrite app_nil_r|done].
  - outcome_inv H. simplify_eq.
    match goal with |- context [foldl _ ?s _] =>
      destruct (place_cluster_members_emits id_method ic.1 a0 (photos ic.2) s)
        as (Lx & Hsub & Hout)
    end.
    exists Lx. split; [done|]. split; [exact Hout|done].
Qed.

Lemma map_photo_clusters_to_beats_once clusters beats sd ed so eo id_method
    pls ws :
  map_photo_clusters_to_beats fs clusters beats sd ed so eo id_method
  = Returned (pls, ws) ->
  placed_photo <$> pls ⊆+ photo_key <$> cluster_members clusters.
Proof.
  unfold map_photo_clusters_to_beats.
  destruct (_ <=? 0); [discriminate|].
  destruct (_ <? _); [discriminate|].
  intros H. outcome_inv H as st1 Hpass1. outcome_inv H as st2 Hpass2.
  simplify_eq. rewrite sorted_Permutation.
  apply (for_each_emits (fun st => placed_photo <$> placements st)
           (fun ic : Z * PhotoCluster => photos ic.2) photo_key
           (fun st ic => cluster_has_anchored (placements st) ic.1)) in Hpass1
    as (L1 & HL1 & Hout1).
  2: { intros st x st'. apply place_anchored_cluster_emits. }
  2: { intros st y st' x Hy. apply cluster_has_anchored_mono.
       intros p. by eapply place_anchored_cluster_keeps. }
  apply (for_each_emits (fun st => placed_photo <$> placements st)
           (fun ic : Z * PhotoCluster => photos ic.2) photo_key
           (fun _ _ => true)) in Hpass2
    as (L2 & HL2 & Hout2).
  2: { intros st x st'. apply distribute_cluster_emits. }
  2: done.
  rewrite Hout2, Hout1. simpl. rewrite <- fmap_app.
  apply fmap_submseteq. rewrite List_filter_true in HL2.
  etrans; [apply submseteq_app; apply sublist_submseteq; [exact HL1|exact HL2]|].
  apply Permutation_submseteq.
  rewrite <- concat_app, <- fmap_app.
  rewrite (List_filter_partition
             (fun ic => cluster_has_anchored (placements st1) ic.1)
             (enumerate clusters)).
  unfold cluster_members.
  by rewrite <- (enumerate_snd clusters) at 2; rewrite <- list_fmap_compose.
Qed.

(** X21.  Every photo is placed at most once.  With or without
    clustering, the placements of a run that returns are, with their
    multiplicity, among the photos dated inside the range: each placement
    carries the path and the date of one of those photos, and no photo
    accounts for two placements.  So there are never more placements than
    photos, and when the paths of the photos are distinct, so are the
    paths of the placements. *)
Theorem each_photo_is_placed_at_most_once (photos : list PhotoMetadata)
    (beats : list BeatInfo) (start_date end_date : datetime)
    (start_offset end_offset : Z) (time_gap : TimeGap) (id_method : string)
    (pls : list PhotoPlacement) (ws : list Warning) :
  map_photos_to_beats fs photos beats start_date end_date start_offset
    end_offset time_gap id_method = Returned (pls, ws) ->
  placed_photo <$> pls
    ⊆+ photo_key <$> List.filter (in_date_range start_date end_date) photos
  /\ (length pls <= length photos)%nat
  /\ (NoDup (photo_path <$> photos) ->
      NoDup ((fun p => path (asset p)) <$> pls)).
Proof.
  intros Hrun.
  assert (placed_photo <$> pls
            ⊆+ photo_key <$> List.filter (in_date_range start_date end_date)
                               photos) as Hsub.
  { unfold map_photos_to_beats in Hrun.
    set (filtered := List.filter (in_date_range start_date end_date) photos)
      in *.
    destruct filtered as [|ph0 rest] eqn:Hfiltered;
      [simplify_eq; by apply submseteq_nil_l|].
    rewrite <- Hfiltered in *. clear Hfiltered.
    destruct (Z.eqb_spec (amount time_gap) 0) as [Hzero|Hnonzero].
    - by apply map_photos_to_beats_original_once in Hrun.
    - apply map_photo_clusters_to_beats_once in Hrun.
      etrans; [exact Hrun|]. apply fmap_submseteq, Permutation_submseteq.
      unfold cluster_photos_by_time_gap.
      destruct (Z.eqb_spec (amount time_gap) 0); [done|].
      destruct (same_period_mode time_gap).
      + apply same_period_members_Permutation.
      + by rewrite minimum_gap_members. }
  assert (placed_photo <$> pls ⊆+ photo_key <$> photos) as Hall.
  { etrans; [exact Hsub|].
    apply fmap_submseteq, sublist_submseteq, List_filter_sublist. }
  split; [exact Hsub|split].
  - apply submseteq_length in Hall. by rewrite !length_fmap in Hall.
  - intros Hnd.
    apply (fmap_submseteq fst) in Hall.
    rewrite <- !list_fmap_compose in Hall.
    apply submseteq_sublist_l in Hall as (k & Hk & Hperm).
    eapply sublist_NoDup; [|exact Hk]. by rewrite Hperm.
Qed.
End placed_once.

Lemma each_photo_is_placed_at_most_once_witness :
  exists pls ws,
    map_photos_to_beats plain_fs pressured_photos (beat_grid 5) 0 100 0 0
      {| amount := 0; unit := SECOND; same_period_mode := false |} "inode"
    = Returned (pls, ws)
    /\ (length pls <= length pressured_photos)%nat.
Proof.
  eexists _, _. split; [vm_compute; reflexivity|].
  match goal with |- (length ?l <= _)%nat =>
    apply (each_photo_is_placed_at_most_once plain_fs pressured_photos
             (beat_grid 5) 0 100 0 0
             {| amount := 0; unit := SECOND; same_period_mode := false |}
             "inode" l [])
  end.
  vm_compute. reflexivity.
Defined.


(** ** The second run *)

Lemma untagged_no_uid (item : TimelineItem) :
  untagged item -> _extract_beatspine_uid item = None.
Proof.
  unfold untagged, _extract_beatspine_uid.
  induction (item_markers item) as [|[f m] l IH]; intros Hall; [done|].
  apply Forall_cons in Hall as [Hm Hall]. simpl in *. rewrite Hm. by apply IH.
Qed.

Lemma catalog_of_untagged (timeline : Timeline) :
  (forall item, item ∈ all_items timeline -> untagged item) ->
  _catalog_current_items timeline = ∅.
Proof.
  intros Hall. unfold _catalog_current_items.
  apply (foldl_invariant (fun m : gmap string TimelineItem => m = ∅));
    [done|].
  intros m item Hitem ->. by rewrite (untagged_no_uid item (Hall item Hitem)).
Qed.

(** C3 (idempotent reconciliation), the defect.  The clips that a run
    places carry no marker, and a timeline whose items carry no
    [beatspine:] marker has an empty snapshot, whatever state is stored.
    So on the timeline that a first run leaves, the second plan is not
    empty: it adds every target element again, one addition for each
    target identifier, removes and updates nothing, and counts as having
    changes; and every clip of the first run is reported as a manual
    item, so that without [force] the second run finds conflicts. *)
Theorem second_run_adds_every_element (timeline : Timeline)
    (project : TimelineProject) (stored_state : option SyncState) :
  (forall item, item ∈ all_items timeline -> untagged item) ->
  let current_items := _catalog_current_items timeline in
  let target_elements := target_elements_of project in
  let changes :=
    _compute_differential_changes current_items target_elements stored_state
      project in
  let managed_uids : gset string :=
    match stored_state with Some s => managed_asset_uids s | None => ∅ end in
  let conflicts := _analyze_conflicts timeline current_items managed_uids in
  current_items = ∅
  /\ (forall u elem, target_elements !! u = Some elem ->
        elem ∈ items_to_add changes)
  /\ length (items_to_add changes) = size (dom target_elements)
  /\ items_to_remove changes = ∅
  /\ items_to_update changes = []
  /\ has_changes changes = true
  /\ (forall item, item ∈ all_items timeline ->
        ("Manual item: " +:+ item_name item) ∈ unmanaged_items conflicts)
  /\ (all_items timeline <> [] -> has_conflicts conflicts = true).
Proof.
  intros Huntagged. cbv zeta.
  rewrite (catalog_of_untagged timeline Huntagged).
  assert (forall item, item ∈ all_items timeline ->
            ("Manual item: " +:+ item_name item)
            ∈ unmanaged_items
                (_analyze_conflicts timeline ∅
                   match stored_state with
                   | Some s => managed_asset_uids s
                   | None => ∅
                   end)) as Hmanual.
  { intros item Hitem. simpl. apply list_elem_of_omap. exists item.
    split; [done|]. by rewrite (untagged_no_uid item (Huntagged item Hitem)). }
  split; [done|]. split; [|split; [|split; [|split; [|split; [|split]]]]].
  - intros u elem Hu. simpl. apply list_elem_of_omap. exists u.
    split; [|done]. rewrite dom_empty_L, difference_empty_L.
    apply elem_of_elements, elem_of_dom. eauto.
  - simpl. rewrite dom_empty_L, difference_empty_L.
    unfold size, set_size. simpl. apply omap_total_length.
    intros u Hu. by apply elem_of_elements, elem_of_dom in Hu.
  - simpl. rewrite dom_empty_L. apply set_eq. intros u.
    rewrite elem_of_difference, elem_of_intersection, elem_of_empty. tauto.
  - simpl. rewrite dom_empty_L, intersection_empty_l_L, elements_empty.
    reflexivity.
  - apply plan_always_has_changes.
  - exact Hmanual.
  - intros Hitems. destruct (all_items timeline) as [|item items] eqn:Hall;
      [done|].
    specialize (Hmanual item ltac:(by left)).
    unfold has_conflicts.
    destruct (unmanaged_items _) as [|? ?]; [by apply elem_of_nil in Hmanual|].
    done.
Qed.

Lemma second_run_adds_every_element_witness :
  let current_items := _catalog_current_items first_run_timeline in
  let target_elements := target_elements_of steady_project in
  let changes :=
    _compute_differential_changes current_items target_elements
      (Some (state_of {["A"; "B"]})) steady_project in
  let conflicts :=
    _analyze_conflicts first_run_timeline current_items {["A"; "B"]} in
  current_items = ∅
  /\ (forall u elem, target_elements !! u = Some elem ->
        elem ∈ items_to_add changes)
  /\ length (items_to_add changes) = size (dom target_elements)
  /\ items_to_remove changes = ∅
  /\ items_to_update changes = []
  /\ has_changes changes = true
  /\ (forall item, item ∈ all_items first_run_timeline ->
        ("Manual item: " +:+ item_name item) ∈ unmanaged_items conflicts)
  /\ (all_items first_run_timeline <> [] -> has_conflicts conflicts = true).
Proof.
  apply (second_run_adds_every_element first_run_timeline steady_project
           (Some (state_of {["A"; "B"]}))).
  intros item Hitem. simpl in Hitem.
  apply elem_of_cons in Hitem as [->|Hitem];
    [|apply elem_of_cons in Hitem as [->|Hitem];
      [|by apply elem_of_nil in Hitem]];
    constructor.
Defined.

(** The second plan on the timeline of the first run, spelled out: both
    elements are added again, and both clips are reported as manual. *)
Example second_run_plan :
  let current_items := _catalog_current_items first_run_timeline in
  let changes :=
    _compute_differential_changes current_items
      (target_elements_of steady_project)
      (Some (state_of {["A"; "B"]})) steady_project in
  _extract_managed_state first_run_timeline = inr (Some (state_of {["A"; "B"]}))
  /\ items_to_add changes = [photo_element "A" 0 30; photo_element "B" 30 30]
  /\ unmanaged_items
       (_analyze_conflicts first_run_timeline current_items {["A"; "B"]})
     = ["Manual item: A"; "Manual item: B"].
Proof. split_and!; vm_compute; reflexivity. Qed.
